(** * ppTranslator: the slide transformation engine and its translation client

    A shallow embedding of [ppt_xml_translator.py] (class [PPTXMLTranslator])
    and [ollama_service/translate_service.py] (class [OllamaTranslator]),
    followed by the properties of the specification that concern them.

    Conventions of the embedding.

    - A Python [str] is a list of Unicode code points ([list N]); string
      literals are written [u "..."] and decoded from UTF-8.
    - An [xml.etree.ElementTree.Element] is a node of a tree that carries
      an identity [eid]: Python code holds references to elements and
      mutates them in place, so every mutation is an update of the node
      with a given identity in the current document.  Tags are written in
      prefix form (["a:p"] for [{drawingml}p], ["p:sp"] for
      [{presentationml}sp]).  The [tail] text of an element is not
      modelled: no function of the program reads it.
    - Python floats are binary64 numbers.  A float is modelled by the
      rational it denotes, and every operation of the program whose exact
      result need not be a float ([size / 100], [point_size * 100],
      [total_len / len(original_text)], [break_pos * ratio]) returns the
      exact result rounded to 53 significant bits, a tie going to the even
      neighbour ([Float.fl]).  Doubling, halving, comparison with the
      ladder and [round] are exact on floats and are computed on the
      rationals.  The exponent range is not modelled: it is left only by
      an integer of more than 300 digits, for which the program raises
      [OverflowError].
    - Diagnostic [print] calls are dropped.
    - The HTTP backend is a parameter: a transition on an abstract world
      that answers a prompt with a response text or fails. *)

From Stdlib Require Import ZArith NArith QArith Qround Qpower Lqa Lia List
  String Ascii Sorted.
From stdpp Require Import base gmap strings list.
Import ListNotations.
Open Scope Z_scope.

(** ** Python strings *)

Module PyStr.

(** UTF-8 decoding of a literal (well-formed input is assumed; a truncated
    sequence is kept as it is). *)
Fixpoint utf8 (bs : list N) : list N :=
  match bs with
  | [] => []
  | b :: r =>
      if (b <? 128)%N then b :: utf8 r
      else if (b <? 224)%N then
        match r with
        | c :: r' => ((b - 192) * 64 + (c - 128))%N :: utf8 r'
        | [] => [b]
        end
      else if (b <? 240)%N then
        match r with
        | c :: d :: r' =>
            ((b - 224) * 4096 + (c - 128) * 64 + (d - 128))%N :: utf8 r'
        | _ => b :: r
        end
      else
        match r with
        | c :: d :: e :: r' =>
            ((b - 240) * 262144 + (c - 128) * 4096 + (d - 128) * 64
             + (e - 128))%N :: utf8 r'
        | _ => b :: r
        end
  end.

Definition u (s : string) : list N :=
  utf8 (List.map N_of_ascii (list_ascii_of_string s)).

Definition LF : N := 10%N.
Definition SPACE : N := 32%N.

(** [str.isspace] on one character: the code points CPython classifies as
    white space. *)
Definition is_space (c : N) : bool :=
  ((9 <=? c) && (c <=? 13) || (28 <=? c) && (c <=? 32)
   || (c =? 133) || (c =? 160) || (c =? 5760)
   || (8192 <=? c) && (c <=? 8202)
   || (c =? 8232) || (c =? 8233) || (c =? 8239) || (c =? 8287)
   || (c =? 12288))%N.

Fixpoint drop_while (p : N -> bool) (s : list N) : list N :=
  match s with
  | [] => []
  | c :: s' => if p c then drop_while p s' else s
  end.

Definition lstrip_by (p : N -> bool) (s : list N) : list N := drop_while p s.
Definition rstrip_by (p : N -> bool) (s : list N) : list N :=
  rev (drop_while p (rev s)).
Definition strip_by (p : N -> bool) (s : list N) : list N :=
  rstrip_by p (lstrip_by p s).

(** [s.strip()] *)
Definition strip (s : list N) : list N := strip_by is_space s.

Definition mem (c : N) (chars : list N) : bool :=
  existsb (N.eqb c) chars.

(** [s.strip(chars)] *)
Definition strip_chars (chars s : list N) : list N :=
  strip_by (fun c => mem c chars) s.

(** Truthiness of a string: [if s:] *)
Definition truthy (s : list N) : bool :=
  match s with [] => false | _ => true end.

(** [s.isspace()]: non-empty and white space only. *)
Definition isspace (s : list N) : bool :=
  truthy s && forallb is_space s.

Fixpoint prefix_b (p s : list N) : bool :=
  match p, s with
  | [], _ => true
  | a :: p', b :: s' => (a =? b)%N && prefix_b p' s'
  | _ :: _, [] => false
  end.

(** [s.startswith(p)] *)
Definition startswith (s p : list N) : bool := prefix_b p s.

(** [s.split(sep)] for a non-empty separator: the pieces between the
    leftmost non-overlapping occurrences of [sep].  [skip] counts the
    characters of a matched separator still to be passed over, [cur] is
    the piece being read, reversed. *)
Fixpoint split_go (sep : list N) (skip : nat) (cur s : list N)
  : list (list N) :=
  match s with
  | [] => [rev cur]
  | c :: s' =>
      match skip with
      | S k => split_go sep k cur s'
      | O =>
          if prefix_b sep s
          then rev cur :: split_go sep (length sep - 1) [] s'
          else split_go sep 0 (c :: cur) s'
      end
  end.

Definition split (sep s : list N) : list (list N) := split_go sep 0 [] s.

(** [s.split()]: maximal runs of non-space characters. *)
Fixpoint words_go (cur s : list N) : list (list N) :=
  match s with
  | [] => match cur with [] => [] | _ => [rev cur] end
  | c :: s' =>
      if is_space c
      then match cur with
           | [] => words_go [] s'
           | _ => rev cur :: words_go [] s'
           end
      else words_go (c :: cur) s'
  end.

Definition words (s : list N) : list (list N) := words_go [] s.

(** [sep.join(parts)] *)
Fixpoint join (sep : list N) (parts : list (list N)) : list N :=
  match parts with
  | [] => []
  | [p] => p
  | p :: rest => p ++ sep ++ join sep rest
  end.

(** [s.replace(old, new)] for a non-empty [old]. *)
Fixpoint replace_go (old new : list N) (skip : nat) (s : list N) : list N :=
  match s with
  | [] => []
  | c :: s' =>
      match skip with
      | S k => replace_go old new k s'
      | O =>
          if prefix_b old s
          then new ++ replace_go old new (length old - 1) s'
          else c :: replace_go old new 0 s'
      end
  end.

Definition replace (old new s : list N) : list N := replace_go old new 0 s.

(** [s.find(c, start)] for a single character [c] and [0 <= start]:
    the first index at or after [start] holding [c], or [-1]. *)
Fixpoint find_from (c : N) (i : Z) (s : list N) : Z :=
  match s with
  | [] => -1
  | d :: s' => if (d =? c)%N then i else find_from c (i + 1) s'
  end.

Definition find (s : list N) (c : N) (start : Z) : Z :=
  find_from c start (skipn (Z.to_nat start) s).

(** [s[a:b]] and [s[a:]] for non-negative indices. *)
Definition slice (s : list N) (a b : Z) : list N :=
  firstn (Z.to_nat b - Z.to_nat a) (skipn (Z.to_nat a) s).
Definition slice_from (s : list N) (a : Z) : list N :=
  skipn (Z.to_nat a) s.

Definition len (s : list N) : Z := Z.of_nat (length s).

Definition is_ascii_upper (c : N) : bool := ((65 <=? c) && (c <=? 90))%N.
Definition is_digit (c : N) : bool := ((48 <=? c) && (c <=? 57))%N.

(** [int(s)] on the decimal literals of ASCII digits: white space around
    the literal is stripped, a sign may lead, and single underscores may
    separate digits.  [None] stands for [ValueError].  Decimal digits of
    other scripts, which Python also accepts, are not recognised. *)
Fixpoint digits_go (acc : Z) (prev_digit : bool) (s : list N) : option Z :=
  match s with
  | [] => if prev_digit then Some acc else None
  | c :: s' =>
      if is_digit c then digits_go (acc * 10 + Z.of_N (c - 48)) true s'
      else if (c =? 95)%N && prev_digit then digits_go acc false s'
      else None
  end.

Definition py_int (s : list N) : option Z :=
  match strip s with
  | [] => None
  | c :: r =>
      if (c =? 45)%N then option_map Z.opp (digits_go 0 false r)
      else if (c =? 43)%N then digits_go 0 false r
      else digits_go 0 false (c :: r)
  end.

(** [str(n)] for an integer. *)
Fixpoint digits_of (fuel : nat) (n : N) (acc : list N) : list N :=
  match fuel with
  | O => acc
  | S f =>
      let acc' := (48 + n mod 10)%N :: acc in
      if (n <? 10)%N then acc' else digits_of f (n / 10)%N acc'
  end.

Definition py_str (z : Z) : list N :=
  let n := Z.to_N (Z.abs z) in
  let ds := digits_of (S (N.to_nat (N.log2 n))) n [] in
  if z <? 0 then 45%N :: ds else ds.

End PyStr.

(** ** Python floats

    [fl x] is the binary64 number nearest to [x], a tie going to the one
    whose last bit is even: the result of an arithmetic operation whose
    exact value is [x]. *)

Module Float.

(** The nearest integer, a tie going to the even one. *)
Definition nearest_even (x : Q) : Z :=
  let f := Qfloor x in
  match Qcompare (x - inject_Z f)%Q (1 # 2)%Q with
  | Lt => f
  | Gt => f + 1
  | Eq => if Z.even f then f else f + 1
  end.

(** The exponent [e] of the last of the 53 bits of a positive number:
    [2^52 <= x / 2^e < 2^53]. *)
Definition last_place (x : Q) : Z :=
  let k := Z.log2 (Qnum x) - Z.log2 (Z.pos (Qden x)) in
  (if Qle_bool (2 ^ k)%Q x then k else k - 1) - 52.

Definition round_pos (x : Q) : Q :=
  let e := last_place x in
  (inject_Z (nearest_even (x / 2 ^ e)) * 2 ^ e)%Q.

Definition fl (x : Q) : Q :=
  match Qcompare x 0 with
  | Eq => 0%Q
  | Gt => round_pos x
  | Lt => (- round_pos (- x))%Q
  end.

End Float.

(** ** A small state monad

    The state is the supply of fresh element identities for the document
    functions, and the world of the backend for the translation client. *)

Definition State (S A : Type) : Type := S -> A * S.
Definition ret {S A} (a : A) : State S A := fun s => (a, s).
Definition bind {S A B} (c : State S A) (k : A -> State S B) : State S B :=
  fun s => let '(a, s') := c s in k a s'.

Declare Scope monad_scope.
Delimit Scope monad_scope with monad.
Notation "x <- c ;; k" := (bind c (fun x => k))
  (at level 100, c at next level, right associativity) : monad_scope.
Open Scope monad_scope.

(** [for x in l: st = body(st, x)] *)
Fixpoint foldM {S A B} (body : B -> A -> State S B) (l : list A) (st : B)
  : State S B :=
  match l with
  | [] => ret st
  | x :: l' => st' <- body st x ;; foldM body l' st'
  end.

(** [[f(x) for x in l]] *)
Fixpoint mapM {S A B} (f : A -> State S B) (l : list A) : State S (list B) :=
  match l with
  | [] => ret []
  | x :: l' => y <- f x ;; r <- mapM f l' ;; ret (y :: r)
  end.

Abbreviation M := (State nat).
Definition fresh : M nat := fun n => (n, S n).

(** ** xml.etree.ElementTree *)

Module ET.

Set Warnings "-register-all".

(** An element: its identity, tag, attribute dictionary, text and children.
    The insertion order of the attribute dictionary is not kept. *)
Inductive elem : Type :=
  Elem { eid : nat;
         tag : string;
         attrib : gmap string (list N);
         text : option (list N);
         kids : list elem }.

(** [ET.Element(tag)] *)
Definition Element (t : string) : M elem :=
  i <- fresh ;; ret (Elem i t ∅ None []).

Definition has_attr (k : string) (e : elem) : bool :=
  match attrib e !! k with Some _ => true | None => false end.

(** [e.get(k, default)] *)
Definition get_attr (e : elem) (k : string) (default : list N) : list N :=
  match attrib e !! k with Some v => v | None => default end.

(** [e.set(k, v)] *)
Definition set_attr (k : string) (v : list N) (e : elem) : elem :=
  Elem (eid e) (tag e) (<[k := v]> (attrib e)) (text e) (kids e).

(** [del e.attrib[k]] *)
Definition del_attr (k : string) (e : elem) : elem :=
  Elem (eid e) (tag e) (delete k (attrib e)) (text e) (kids e).

Definition set_text (x : list N) (e : elem) : elem :=
  Elem (eid e) (tag e) (attrib e) (Some x) (kids e).

Definition set_kids (ks : list elem) (e : elem) : elem :=
  Elem (eid e) (tag e) (attrib e) (text e) ks.

(** [e.append(c)] *)
Definition append (c : elem) (e : elem) : elem :=
  set_kids (kids e ++ [c]) e.

(** [e.insert(index, c)]: a position past the end appends. *)
Definition insert (index : nat) (c : elem) (e : elem) : elem :=
  set_kids (firstn index (kids e) ++ c :: skipn index (kids e)) e.

Fixpoint remove_first (i : nat) (ks : list elem) : list elem :=
  match ks with
  | [] => []
  | k :: ks' => if (eid k =? i)%nat then ks' else k :: remove_first i ks'
  end.

(** [e.remove(c)]: the child that is the object [c] is taken out. *)
Definition remove (c : nat) (e : elem) : elem :=
  set_kids (remove_first c (kids e)) e.

Definition has_tag (t : string) (e : elem) : bool := String.eqb (tag e) t.

(** The proper descendants of an element in document order. *)
Fixpoint descendants (e : elem) : list elem :=
  match e with
  | Elem _ _ _ _ ks =>
      (fix go (l : list elem) : list elem :=
         match l with
         | [] => []
         | k :: l' => (k :: descendants k) ++ go l'
         end) ks
  end.

(** [e.iter()] *)
Definition iter (e : elem) : list elem := e :: descendants e.

(** [e.find("t")], [e.findall("t")]: children with tag [t]. *)
Definition findall_child (t : string) (e : elem) : list elem :=
  List.filter (has_tag t) (kids e).
Definition find_child (t : string) (e : elem) : option elem :=
  head (findall_child t e).

(** [e.find(".//t")], [e.findall(".//t")]: proper descendants with tag
    [t], in document order. *)
Definition findall_desc (t : string) (e : elem) : list elem :=
  List.filter (has_tag t) (descendants e).
Definition find_desc (t : string) (e : elem) : option elem :=
  head (findall_desc t e).

(** [e.findall(".//*[@k]")] *)
Definition findall_with_attr (k : string) (e : elem) : list elem :=
  List.filter (has_attr k) (descendants e).

(** The element with identity [i] in the document under [root]. *)
Definition get (i : nat) (root : elem) : option elem :=
  List.find (fun x => (eid x =? i)%nat) (iter root).

Definition is_child (i : nat) (p : elem) : bool :=
  existsb (fun k => (eid k =? i)%nat) (kids p).

Definition parent_of (i : nat) (root : elem) : option elem :=
  List.find (is_child i) (iter root).

Fixpoint dedup_by_id (seen : list nat) (l : list elem) : list elem :=
  match l with
  | [] => []
  | x :: l' =>
      if existsb (Nat.eqb (eid x)) seen then dedup_by_id seen l'
      else x :: dedup_by_id (eid x :: seen) l'
  end.

(** [root.findall(".//t/..")]: the parents of the descendants with tag
    [t], each once, in the order in which their first such child occurs. *)
Definition findall_parents (t : string) (root : elem) : list elem :=
  dedup_by_id []
    (omap (fun x => parent_of (eid x) root) (findall_desc t root)).

(** The document in which the element with identity [i] is [new]. *)
Fixpoint replace_node (i : nat) (new : elem) (e : elem) : elem :=
  match e with
  | Elem j t a x ks =>
      if (j =? i)%nat then new
      else Elem j t a x (List.map (replace_node i new) ks)
  end.

(** A mutation of the element held by reference [i].  An element that is
    no longer part of the document cannot be reached from the root any
    more, so a mutation of it leaves the document as it is. *)
Definition modify (i : nat) (f : elem -> M elem) (root : elem) : M elem :=
  match get i root with
  | Some e => e' <- f e ;; ret (replace_node i e' root)
  | None => ret root
  end.

Definition modify_pure (i : nat) (f : elem -> elem) (root : elem) : elem :=
  match get i root with
  | Some e => replace_node i (f e) root
  | None => root
  end.

(** [ET.SubElement(parent, t)]: a new element appended to the element
    [parent] of the document; its identity is returned. *)
Definition SubElement (parent : nat) (t : string) (root : elem)
  : M (nat * elem) :=
  c <- Element t ;;
  ret (eid c, modify_pure parent (append c) root).

(** [ET.fromstring(ET.tostring(e))]: a copy of [e] made of new elements.
    An empty text is written as an empty tag and read back as no text. *)
Definition reparsed_text (x : option (list N)) : option (list N) :=
  match x with Some [] => None | _ => x end.

Fixpoint deep_copy (e : elem) : M elem :=
  match e with
  | Elem _ t a x ks =>
      i <- fresh ;;
      ks' <- (fix go (l : list elem) : M (list elem) :=
                match l with
                | [] => ret []
                | k :: l' =>
                    k' <- deep_copy k ;; r <- go l' ;; ret (k' :: r)
                end) ks ;;
      ret (Elem i t a (reparsed_text x) ks')
  end.

End ET.

(** ** class PPTXMLTranslator *)

Module PPTXMLTranslator.
Import PyStr ET.

(** [self.ppt_font_sizes], [self.min_font_size] *)
Definition ppt_font_sizes : list Z :=
  [72; 48; 44; 40; 36; 32; 28; 24; 20; 18; 16; 14; 12; 11; 10; 9; 8; 7; 6; 5].
Definition min_font_size : Z := 5.

(** [int(x)] on a float: truncation towards zero. *)
Definition trunc (x : Q) : Z :=
  if Qle_bool 0%Q x then Qfloor x else Qceiling x.

(** [round(x)]: the nearest integer, a tie going to the even one. *)
Definition py_round (x : Q) : Z :=
  let f := Qfloor x in
  match Qcompare (x - inject_Z f)%Q (1 # 2)%Q with
  | Lt => f
  | Gt => f + 1
  | Eq => if Z.even f then f else f + 1
  end.

(** [int(point_size * 100)]: the product of a float is rounded; that of
    an integer of the ladder is exact, and rounding leaves it as it is. *)
Definition point_to_size (point_size : Q) : Z :=
  trunc (Float.fl (point_size * 100)%Q).

(** [size / 100]: the quotient of two integers, rounded. *)
Definition size_to_point (size : Z) : Q :=
  Float.fl (inject_Z size / 100)%Q.

(** The loop of [get_next_smaller_size] from index [i] on, [rest] being
    [ppt_font_sizes[i:]]. *)
Fixpoint next_smaller_from (rounded_size : Q) (i : nat) (rest : list Z) : Z :=
  match rest with
  | [] => min_font_size
  | std_size :: rest' =>
      if Qle_bool (inject_Z std_size) rounded_size
      then if (i + 2 <? length ppt_font_sizes)%nat
           then nth (i + 2) ppt_font_sizes 0
           else min_font_size
      else next_smaller_from rounded_size (S i) rest'
  end.

Definition get_next_smaller_size (current_size : Q) : Z :=
  let rounded_size := (inject_Z (py_round (current_size * 2)) / 2)%Q in
  next_smaller_from rounded_size 0 ppt_font_sizes.

Definition adjust_font_size (size : Z) (is_translation : bool) : Z :=
  let point_size := size_to_point size in
  let new_point_size := get_next_smaller_size point_size in
  let new_point_size :=
    if is_translation
    then get_next_smaller_size (inject_Z new_point_size)
    else new_point_size in
  let new_point_size := Z.max new_point_size min_font_size in
  point_to_size (inject_Z new_point_size).

(** [adjust_element_font_size(element, attrs, is_translation)]: an
    attribute whose value is not an integer literal keeps its value. *)
Definition adjust_attr (is_translation : bool) (element : elem)
    (attr : string) : elem :=
  match attrib element !! attr with
  | Some v =>
      match py_int v with
      | Some size =>
          set_attr attr (py_str (adjust_font_size size is_translation))
                   element
      | None => element
      end
  | None => element
  end.

Definition adjust_element_font_size (attrs : list string)
    (is_translation : bool) (element : elem) : elem :=
  fold_left (adjust_attr is_translation) attrs element.

(** The result of [get_paragraph_style]: the dictionary
    [{'font_size': n}]. *)
Record StyleSpec := { font_size : Z }.

(** The size declared by an element with an [sz] attribute, when it is an
    integer literal: [point_to_size(size_to_point(int(sz)))]. *)
Definition declared_size (e : elem) : option Z :=
  match attrib e !! "sz" with
  | Some v =>
      match py_int v with
      | Some n => Some (point_to_size (size_to_point n))
      | None => None
      end
  | None => None
  end.

(** Step 1 of [get_paragraph_style]: the runs, in document order. *)
Fixpoint style_from_runs (r_elements : list elem) : option Z :=
  match r_elements with
  | [] => None
  | r :: rest =>
      match find_child "a:rPr" r with
      | Some r_pr =>
          match declared_size r_pr with
          | Some n => Some n
          | None => style_from_runs rest
          end
      | None => style_from_runs rest
      end
  end.

(** Step 2: [pPr/defRPr]. *)
Definition style_from_ppr (p_element : elem) : option Z :=
  match find_child "a:pPr" p_element with
  | Some p_pr =>
      match find_child "a:defRPr" p_pr with
      | Some def_rpr => declared_size def_rpr
      | None => None
      end
  | None => None
  end.

(** Step 3: [endParaRPr]. *)
Definition style_from_end (p_element : elem) : option Z :=
  match find_child "a:endParaRPr" p_element with
  | Some end_para_rpr => declared_size end_para_rpr
  | None => None
  end.

(** The default: the first ladder entry that is at most 14 points. *)
Fixpoint default_from (sizes : list Z) : Z :=
  match sizes with
  | [] => point_to_size (inject_Z min_font_size)
  | std_size :: rest =>
      if Qle_bool (inject_Z std_size) 14%Q
      then point_to_size (inject_Z std_size)
      else default_from rest
  end.

Definition get_paragraph_style (p_element : elem) : StyleSpec :=
  match style_from_runs (findall_desc "a:r" p_element) with
  | Some n => {| font_size := n |}
  | None =>
      match style_from_ppr p_element with
      | Some n => {| font_size := n |}
      | None =>
          match style_from_end p_element with
          | Some n => {| font_size := n |}
          | None => {| font_size := default_from ppt_font_sizes |}
          end
      end
  end.

(** One entry of the result of [find_text_elements]: the dictionary with
    keys ['paragraph'], ['text'], ['style'] and ['shape'].  The two
    elements are held by reference. *)
Record TextBlock := {
  tb_paragraph : option nat;
  tb_text : list N;
  tb_style : option StyleSpec;
  tb_shape : nat }.

Definition sized (o : option elem) : option elem :=
  match o with
  | Some rPr => if has_attr "sz" rPr then Some rPr else None
  | None => None
  end.

(** The style recorded when a run shows a font size.  The message printed
    there evaluates [int(rPr.attrib['sz'])] outside any handler: a value
    that is not an integer literal raises [ValueError] ([None]). *)
Definition style_seen (p rPr : elem) : option StyleSpec :=
  match py_int (get_attr rPr "sz" []) with
  | Some _ => Some (get_paragraph_style p)
  | None => None
  end.

(** The body of [for r in runs]; the state is [paragraph_text] and
    [shape_style]. *)
Definition run_step (p : elem) (st : list N * option StyleSpec) (r : elem)
  : option (list N * option StyleSpec) :=
  let '(paragraph_text, shape_style) := st in
  match find_desc "a:t" r with
  | Some t =>
      match text t with
      | Some (c :: x) =>
          let paragraph_text := paragraph_text ++ c :: x in
          match shape_style with
          | Some _ => Some (paragraph_text, shape_style)
          | None =>
              match sized (find_child "a:rPr" r) with
              | Some rPr =>
                  match style_seen p rPr with
                  | Some s => Some (paragraph_text, Some s)
                  | None => None
                  end
              | None =>
                  match sized (find_desc "a:rPr" r) with
                  | Some rPr =>
                      match style_seen p rPr with
                      | Some s => Some (paragraph_text, Some s)
                      | None => None
                      end
                  | None => Some (paragraph_text, None)
                  end
              end
          end
      | _ => Some st
      end
  | None => Some st
  end.

Fixpoint runs_loop (p : elem) (runs : list elem)
    (st : list N * option StyleSpec) : option (list N * option StyleSpec) :=
  match runs with
  | [] => Some st
  | r :: runs' =>
      match run_step p st r with
      | Some st' => runs_loop p runs' st'
      | None => None
      end
  end.

(** The state of [for p in paragraphs]: [shape_text], [shape_style] and
    [first_paragraph]. *)
Definition paragraph_step
    (st : list N * option StyleSpec * option elem) (p : elem)
  : option (list N * option StyleSpec * option elem) :=
  let '(shape_text, shape_style, first_paragraph) := st in
  match findall_desc "a:r" p with
  | [] => Some st
  | runs =>
      match runs_loop p runs ([], shape_style) with
      | Some (paragraph_text, shape_style) =>
          if truthy (strip paragraph_text)
          then
            let first_paragraph :=
              match first_paragraph with
              | None => Some p
              | Some _ => first_paragraph
              end in
            let shape_text :=
              if truthy shape_text then shape_text ++ [LF] else shape_text in
            Some (shape_text ++ strip paragraph_text, shape_style,
                  first_paragraph)
          else Some (shape_text, shape_style, first_paragraph)
      | None => None
      end
  end.

Fixpoint paragraphs_loop (paragraphs : list elem)
    (st : list N * option StyleSpec * option elem)
  : option (list N * option StyleSpec * option elem) :=
  match paragraphs with
  | [] => Some st
  | p :: rest =>
      match paragraph_step st p with
      | Some st' => paragraphs_loop rest st'
      | None => None
      end
  end.

(** The body of [for shape in shapes]: the block of the shape, if it has
    one. *)
Definition shape_block (shape : elem) : option (option TextBlock) :=
  match findall_desc "a:p" shape with
  | [] => Some None
  | paragraphs =>
      match paragraphs_loop paragraphs ([], None, None) with
      | Some (shape_text, shape_style, first_paragraph) =>
          if truthy (strip shape_text)
          then
            let shape_style :=
              match shape_style, first_paragraph with
              | None, Some fp => Some (get_paragraph_style fp)
              | _, _ => shape_style
              end in
            Some (Some {| tb_paragraph := option_map eid first_paragraph;
                          tb_text := strip shape_text;
                          tb_style := shape_style;
                          tb_shape := eid shape |})
          else Some None
      | None => None
      end
  end.

Fixpoint shapes_loop (shapes : list elem) : option (list TextBlock) :=
  match shapes with
  | [] => Some []
  | shape :: rest =>
      match shape_block shape with
      | Some b =>
          match shapes_loop rest with
          | Some bs =>
              Some (match b with Some x => x :: bs | None => bs end)
          | None => None
          end
      | None => None
      end
  end.

(** [find_text_elements(root)]; [None] is the [ValueError] of
    [style_seen]. *)
Definition find_text_elements (root : elem) : option (list TextBlock) :=
  shapes_loop (findall_desc "p:sp" root).

(** [copy_element_style(source_elem, target_elem)]: the attributes of the
    source are set on the target and copies of its children appended. *)
Definition copy_element_style (source_elem : option elem) (target_elem : elem)
  : M elem :=
  match source_elem with
  | Some src =>
      let target := Elem (eid target_elem) (tag target_elem)
                         (attrib src ∪ attrib target_elem)
                         (text target_elem) (kids target_elem) in
      foldM (fun tg child => c <- deep_copy child ;; ret (append c tg))
            (kids src) target
  | None => ret target_elem
  end.

(** [find_element_with_style(parent, tag)] *)
Definition find_element_with_style (parent : elem) (t : string)
  : option elem * option elem :=
  match find_desc ("a:" ++ t) parent with
  | Some e => (Some e, find_child ("a:" ++ t ++ "Pr") e)
  | None => (None, None)
  end.

(** [create_element_with_style(tag, parent, style_source)]: the new
    element with its style child.  With a [parent] the program appends the
    new element to it on creation and fills it afterwards; here the caller
    appends the finished element, which yields the same tree. *)
Definition create_element_with_style (t : string)
    (style_source : option elem) : M elem :=
  new_elem <- Element ("a:" ++ t) ;;
  match style_source with
  | Some src =>
      match find_child ("a:" ++ t ++ "Pr") src with
      | Some style_elem =>
          new_style <- Element ("a:" ++ t ++ "Pr") ;;
          new_style <- copy_element_style (Some style_elem) new_style ;;
          ret (append new_style new_elem)
      | None => ret new_elem
      end
  | None => ret new_elem
  end.

(** The body of the loop of [create_translated_paragraphs]. *)
Definition translated_paragraph (original_p : elem)
    (original_r original_rPr : option elem) (line : list N) : M elem :=
  new_p <- create_element_with_style "p" (Some original_p) ;;
  new_r <- create_element_with_style "r" original_r ;;
  let new_r :=
    match sized original_rPr with
    | Some _ =>
        match find_child "a:rPr" new_r with
        | Some new_rPr =>
            modify_pure (eid new_rPr)
                        (adjust_element_font_size ["sz"] true) new_r
        | None => new_r
        end
    | None => new_r
    end in
  new_t <- Element "a:t" ;;
  ret (append (append (set_text line new_t) new_r) new_p).

Definition create_translated_paragraphs (original_p : elem)
    (translated_text : list N) : M (list elem) :=
  let '(original_r, original_rPr) :=
    find_element_with_style original_p "r" in
  mapM (translated_paragraph original_p original_r original_rPr)
       (split [LF] translated_text).

(** *** Auto-fit *)

Definition remove_all (t : string) (body_pr : elem) : elem :=
  fold_left (fun b auto_fit => remove (eid auto_fit) b)
            (findall_child t body_pr) body_pr.

Definition del_if_present (e : elem) (attr : string) : elem :=
  if has_attr attr e then del_attr attr e else e.

Definition set_if_truthy (attr : string) (v : list N) (e : elem) : elem :=
  if truthy v then set_attr attr v e else e.

(** What [_set_shape_auto_fit] does to the [bodyPr] element. *)
Definition body_pr_auto_fit (body_pr : elem) : M elem :=
  let body_pr := remove_all "a:noAutofit" body_pr in
  let body_pr := remove_all "a:normAutofit" body_pr in
  let body_pr := remove_all "a:spAutoFit" body_pr in
  let body_pr := fold_left del_if_present ["w"; "h"] body_pr in
  let body_pr := set_attr "wrap" (u "square") body_pr in
  let body_pr := set_attr "rtlCol" (u "0") body_pr in
  let body_pr := set_attr "anchor" (u "ctr") body_pr in
  let body_pr := set_attr "anchorCtr" (u "1") body_pr in
  sp_auto_fit <- Element "a:spAutoFit" ;;
  ret (append sp_auto_fit body_pr).

(** What it does to the transform of the shape. *)
Definition sp_xfrm_fix (xfrm : elem) : elem :=
  let original_off := get_attr xfrm "off" [] in
  let original_ext := get_attr xfrm "ext" [] in
  let xfrm := fold_left del_if_present ["cx"; "cy"] xfrm in
  let xfrm := set_if_truthy "off" original_off xfrm in
  set_if_truthy "ext" original_ext xfrm.

Definition _set_shape_auto_fit (sp : nat) (root : elem) : M elem :=
  match get sp root with
  | None => ret root
  | Some sp_elem =>
      match find_desc "a:txBody" sp_elem with
      | None => ret root
      | Some tx_body =>
          r <- match find_child "a:bodyPr" tx_body with
               | Some body_pr => ret (eid body_pr, root)
               | None => SubElement (eid tx_body) "a:bodyPr" root
               end ;;
          let '(body_pr, root) := r in
          root <- modify body_pr body_pr_auto_fit root ;;
          match get sp root with
          | None => ret root
          | Some sp_elem =>
              match find_desc "p:spPr" sp_elem with
              | None => ret root
              | Some sp_pr =>
                  match find_child "a:xfrm" sp_pr with
                  | None => ret root
                  | Some xfrm =>
                      ret (modify_pure (eid xfrm) sp_xfrm_fix root)
                  end
              end
          end
      end
  end.

(** What [process_shapes] does to the transform of a group. *)
Definition grp_xfrm_fix (xfrm : elem) : elem :=
  let original_off := get_attr xfrm "off" [] in
  let original_ext := get_attr xfrm "ext" [] in
  let original_choff := get_attr xfrm "chOff" [] in
  let original_chext := get_attr xfrm "chExt" [] in
  let xfrm := fold_left del_if_present ["cx"; "cy"] xfrm in
  let xfrm := set_if_truthy "off" original_off xfrm in
  let xfrm := set_if_truthy "ext" original_ext xfrm in
  let xfrm := set_if_truthy "chOff" original_choff xfrm in
  set_if_truthy "chExt" original_chext xfrm.

(** The transform of a group: [grp_sp.find("p:grpSpPr").find("a:xfrm")]. *)
Definition group_xfrm (grp_sp : elem) : option elem :=
  match find_child "p:grpSpPr" grp_sp with
  | Some grp_sp_pr => find_child "a:xfrm" grp_sp_pr
  | None => None
  end.

Definition fix_group (grp_sp : nat) (root : elem) : elem :=
  match get grp_sp root with
  | Some g =>
      match group_xfrm g with
      | Some xfrm => modify_pure (eid xfrm) grp_xfrm_fix root
      | None => root
      end
  | None => root
  end.

Definition is_group (e : elem) : bool := has_tag "p:grpSp" e.

(** The greatest number of group shapes nested below an element. *)
Fixpoint gdepth (e : elem) : nat :=
  match e with
  | Elem _ _ _ _ ks =>
      (fix go (l : list elem) : nat :=
         match l with
         | [] => O
         | k :: l' =>
             Nat.max ((if is_group k then 1 else 0) + gdepth k) (go l')
         end) ks
  end.

(** [process_shapes(parent_element)].  The recursion follows the nesting
    of the groups; [fuel] bounds its depth. *)
Fixpoint process_shapes (fuel : nat) (parent_element : nat) (root : elem)
  : M elem :=
  match fuel with
  | O => ret root
  | S fuel' =>
      match get parent_element root with
      | None => ret root
      | Some parent =>
          root <- foldM (fun r sp => _set_shape_auto_fit (eid sp) r)
                        (findall_desc "p:sp" parent) root ;;
          match get parent_element root with
          | None => ret root
          | Some parent =>
              foldM (fun r grp_sp =>
                       process_shapes fuel' (eid grp_sp)
                                      (fix_group (eid grp_sp) r))
                    (findall_desc "p:grpSp" parent) root
          end
      end
  end.

(** [set_auto_fit(shape_tree)]: the nesting depth of the tree is fuel
    enough. *)
Definition set_auto_fit (shape_tree : elem) : M elem :=
  process_shapes (S (gdepth shape_tree)) (eid shape_tree) shape_tree.

(** *** Line re-segmentation (the middle of [translate_slide]) *)

(** [line_breaks]: the running sum of the lengths of the lines of the
    original text. *)
Fixpoint line_breaks_from (current_pos : Z) (lines : list (list N))
  : list Z :=
  match lines with
  | [] => []
  | line :: rest =>
      let current_pos := current_pos + len line in
      current_pos :: line_breaks_from current_pos rest
  end.

Definition line_breaks (original_text : list N) : list Z :=
  line_breaks_from 0 (split [LF] original_text).

Definition punct_step (translated_text : list N) (translated_break_pos : Z)
    (punct_pos : Z) (punct : N) : Z :=
  let pos := find translated_text punct translated_break_pos in
  if negb (pos =? -1) && ((punct_pos =? -1) || (pos <? punct_pos))
  then pos + 1 else punct_pos.

(** The break chosen for a scaled position below the length of the
    text. *)
Definition snap (translated_text : list N) (translated_break_pos : Z) : Z :=
  let space_pos := find translated_text SPACE translated_break_pos in
  let punct_pos :=
    fold_left (punct_step translated_text translated_break_pos)
              (u ".,:;?!") (-1) in
  if negb (space_pos =? -1) && negb (punct_pos =? -1)
  then Z.min space_pos punct_pos
  else if negb (space_pos =? -1) then space_pos
  else if negb (punct_pos =? -1) then punct_pos
  else translated_break_pos.

(** [for break_pos in line_breaks]; the state is [last_pos] and
    [translated_lines].  [scaled] is [int(break_pos * ratio)]. *)
Fixpoint segment_loop (scaled : Z -> Z) (translated_text : list N)
    (breaks : list Z) (last_pos : Z) (translated_lines : list (list N))
  : Z * list (list N) :=
  match breaks with
  | [] => (last_pos, translated_lines)
  | break_pos :: rest =>
      let translated_break_pos := scaled break_pos in
      if translated_break_pos <? len translated_text
      then
        let break_pos := snap translated_text translated_break_pos in
        let line := strip (slice translated_text last_pos break_pos) in
        segment_loop scaled translated_text rest break_pos
          (if truthy line then translated_lines ++ [line]
           else translated_lines)
      else segment_loop scaled translated_text rest last_pos translated_lines
  end.

(** The lines for a given scaling of the break positions. *)
Definition segment_with (scaled : Z -> Z) (breaks : list Z)
    (translated_text : list N) : list (list N) :=
  let '(last_pos, translated_lines) :=
    segment_loop scaled translated_text breaks 0 [] in
  if last_pos <? len translated_text
  then
    let last_line := strip (slice_from translated_text last_pos) in
    if truthy last_line then translated_lines ++ [last_line]
    else translated_lines
  else translated_lines.

(** [int(break_pos * ratio)] with
    [ratio = total_len / len(original_text)]: the quotient of the two
    lengths is rounded, [break_pos] is converted to a float, and their
    product is rounded again. *)
Definition scaled_break (original_text translated_text : list N)
    (break_pos : Z) : Z :=
  let ratio := Float.fl (inject_Z (len translated_text)
                         / inject_Z (len original_text))%Q in
  trunc (Float.fl (Float.fl (inject_Z break_pos) * ratio)%Q).

(** [translated_lines] for an original text and its translation. *)
Definition resegment (original_text translated_text : list N)
  : list (list N) :=
  segment_with (scaled_break original_text translated_text)
               (line_breaks original_text) translated_text.

(** *** translate_slide *)

Fixpoint index_of (i : nat) (children : list elem) : option nat :=
  match children with
  | [] => None
  | c :: rest =>
      if (eid c =? i)%nat then Some O
      else option_map S (index_of i rest)
  end.

Fixpoint insert_all (index : nat) (new : list elem) (parent : elem) : elem :=
  match new with
  | [] => parent
  | p :: rest => insert_all (S index) rest (insert index p parent)
  end.

(** The font sizes of the runs of the shape of a block. *)
Definition adjust_runs (shape : nat) (root : elem) : elem :=
  match get shape root with
  | None => root
  | Some sh =>
      fold_left
        (fun root p =>
           fold_left
             (fun root r =>
                match find_child "a:rPr" r with
                | Some rPr =>
                    modify_pure (eid rPr)
                      (adjust_element_font_size
                         ["sz"; "kern"; "spc"; "baseline"] false) root
                | None => root
                end)
             (findall_desc "a:r" p) root)
        (findall_desc "a:p" sh) root
  end.

(** The translated paragraphs are inserted after the last paragraph of
    the shape. *)
Definition insert_translation (shape : nat)
    (translated_paragraphs : list elem) (root : elem) : elem :=
  match get shape root with
  | None => root
  | Some sh =>
      match last (findall_desc "a:p" sh) with
      | None => root
      | Some last_p =>
          match List.find (is_child (eid last_p))
                          (findall_parents "a:p" root) with
          | None => root
          | Some parent =>
              match index_of (eid last_p) (kids parent) with
              | None => root
              | Some index =>
                  modify_pure (eid parent)
                    (insert_all (S index) translated_paragraphs) root
              end
          end
      end
  end.

(** The body of [for elem in text_elements]; [None] stands for an
    exception. *)
Definition translate_block (translator_func : list N -> list N)
    (block : TextBlock) (root : elem) : M (option elem) :=
  let original_text := tb_text block in
  let root := adjust_runs (tb_shape block) root in
  let translated_text := translator_func original_text in
  if truthy translated_text
  then
    let translated_lines := resegment original_text translated_text in
    let processed_translation := join [LF] translated_lines in
    match tb_paragraph block with
    | None => ret None
    | Some pid =>
        match get pid root with
        | None => ret None
        | Some original_p =>
            ps <- create_translated_paragraphs original_p
                                               processed_translation ;;
            ret (Some (insert_translation (tb_shape block) ps root))
        end
    end
  else ret (Some root).

Fixpoint blocks_loop (translator_func : list N -> list N)
    (blocks : list TextBlock) (root : elem) : M (option elem) :=
  match blocks with
  | [] => ret (Some root)
  | b :: rest =>
      r <- translate_block translator_func b root ;;
      match r with
      | Some root' => blocks_loop translator_func rest root'
      | None => ret None
      end
  end.

(** [translate_slide] on the parsed document; the result is the tree that
    is written back. *)
Definition translate_slide (translator_func : list N -> list N)
    (root : elem) : M (option elem) :=
  let root :=
    fold_left
      (fun r e =>
         modify_pure (eid e) (adjust_element_font_size ["sz"] false) r)
      (findall_with_attr "sz" root) root in
  match find_text_elements root with
  | None => ret None
  | Some text_elements =>
      r <- blocks_loop translator_func text_elements root ;;
      match r with
      | Some root' => root'' <- set_auto_fit root' ;; ret (Some root'')
      | None => ret None
      end
  end.

End PPTXMLTranslator.

(** ** class OllamaTranslator *)

Module OllamaTranslator.
Import PyStr.

Definition QUOTE : N := 34%N.
Definition APOSTROPHE : N := 39%N.

(** A prompt template: the result of [template.format(text=...,
    separator=...)]. *)
Definition template : Type := list N -> list N -> list N.

Record ModelConfig := {
  zh2en_prompt : template;
  en2zh_prompt : template;
  zh2en_batch_prompt : template;
  en2zh_batch_prompt : template }.

Definition qwen_config : ModelConfig := {|
  zh2en_prompt := fun text _ =>
    u "Translate this Chinese text to English. Only return the translation:"
      ++ text;
  en2zh_prompt := fun text _ =>
    u "Translate this English text to Chinese. Only return the translation:"
      ++ text;
  zh2en_batch_prompt := fun text separator =>
    u "Translate these Chinese texts to English. Return each translation separated by "
      ++ [QUOTE] ++ separator ++ [QUOTE]
      ++ u " without any prefix or explanation:
" ++ text;
  en2zh_batch_prompt := fun text separator =>
    u "Translate these English texts to Chinese. Return each translation separated by "
      ++ [QUOTE] ++ separator ++ [QUOTE]
      ++ u " without any prefix or explanation:
" ++ text |}.

Definition llama_single (src dst label : string) : template :=
  fun text _ =>
    u "<s>[INST] You are a professional translator. Follow these rules strictly:
1. Translate the " ++ u src ++ u " text to " ++ u dst ++ u "
2. Return ONLY the translation
3. No explanations or notes
4. No prefixes like '" ++ u label ++ u "'
5. Keep original punctuation style

Text to translate:
" ++ text ++ u "
[/INST]".

Definition llama_batch (src dst label : string) : template :=
  fun text separator =>
    u "<s>[INST] You are a professional translator. Follow these rules strictly:
1. Translate these " ++ u src ++ u " texts to " ++ u dst ++ u "
2. Return ONLY the translations, separated by "
      ++ [QUOTE] ++ separator ++ [QUOTE] ++ u "
3. No explanations or notes
4. No prefixes like '" ++ u label ++ u "'
5. Keep original punctuation style

Texts to translate:
" ++ text ++ u "
[/INST]".

Definition llama_config : ModelConfig := {|
  zh2en_prompt := llama_single "Chinese" "English" "Translation:";
  en2zh_prompt := llama_single "English" "Chinese" "翻译:";
  zh2en_batch_prompt := llama_batch "Chinese" "English" "Translation:";
  en2zh_batch_prompt := llama_batch "English" "Chinese" "翻译:" |}.

(** [SUPPORTED_MODELS] *)
Definition SUPPORTED_MODELS (model_name : string) : option ModelConfig :=
  if String.eqb model_name "qwen:7b" then Some qwen_config
  else if String.eqb model_name "llama3:8b" then Some llama_config
  else None.

(** The fields of a translator object. *)
Record Translator := {
  model_name : string;
  api_url : list N;
  model_config : ModelConfig }.

(** [__init__]; [None] is the [ValueError] for an unsupported model. *)
Definition init (model_name : string) (host : list N) : option Translator :=
  match SUPPORTED_MODELS model_name with
  | Some cfg =>
      Some {| model_name := model_name;
              api_url := rstrip_by (N.eqb 47) host ++ u "/api/generate";
              model_config := cfg |}
  | None => None
  end.

Definition is_zh2en (from_lang to_lang : string) : bool :=
  String.eqb from_lang "zh" && String.eqb to_lang "en".

Definition get_prompt (self : Translator) (text : list N)
    (from_lang to_lang : string) (is_batch : bool) : list N :=
  let template :=
    if is_batch
    then if is_zh2en from_lang to_lang
         then zh2en_batch_prompt (model_config self)
         else en2zh_batch_prompt (model_config self)
    else if is_zh2en from_lang to_lang
         then zh2en_prompt (model_config self)
         else en2zh_prompt (model_config self) in
  template text (if is_batch then u "|||" else []).

Definition prefixes : list (list N) :=
  [u "translation:"; u "here's the translation:"; u "translated text:";
   u "翻译:"; u "译文:"; u "中文翻译:"; u "英文翻译:";
   u "transliteration:"; u "explanation:"; u "note:"; u "chinese:";
   u "english:"].

Definition explanations : list (list N) :=
  [u "only the translation is provided"; u "only translation returned";
   u "direct translation:"; u "translated version:";
   u "translation result:"; u "chinese text:"; u "english text:";
   u "original text:"].

Definition allowed_zh2en : list N :=
  u "abcdefghijklmnopqrstuvwxyzABCDEFGHIJKLMNOPQRSTUVWXYZ0123456789 .,!?;:"
    ++ [APOSTROPHE; QUOTE] ++ u "-()[]{}/".

Definition allowed_en2zh : list N := u "，。！？、（）:;,.!?()- ".

Definition is_cjk (c : N) : bool := ((19968 <=? c) && (c <=? 40959))%N.

Definition placeholder (text : list N) : list N :=
  u "[Translation Error for: " ++ text ++ u "]".

Section Client.

(** [str.lower]: the case mapping of the Unicode database. *)
Variable lower : list N -> list N.

(** The backend: [requests.post(url, json={model, prompt, stream})]
    followed by [raise_for_status], [json()] and
    [get("response", "")].  The answer is the response text, or [None]
    when any of these raises. *)
Variable World : Type.
Variable post : list N -> string -> list N -> State World (option (list N)).

Definition strip_prefix (text prefix : list N) : list N :=
  if startswith (lower text) prefix
  then strip (skipn (length prefix) text)
  else text.

Definition remove_explanation (text exp : list N) : list N :=
  strip (replace exp [] (lower text)).

Definition clean_translation (self : Translator) (text : list N)
    (from_lang to_lang : string) : list N :=
  if negb (truthy text) then text
  else
    let text := strip text in
    let text :=
      if String.eqb (model_name self) "llama3:8b"
      then
        let text := replace (u "</s>") [] (replace (u "<s>") [] text) in
        let text := replace (u "[/INST]") [] (replace (u "[INST]") [] text) in
        replace (u "Human:") [] (replace (u "Assistant:") [] text)
      else text in
    let text := fold_left strip_prefix prefixes text in
    let text := strip_chars [APOSTROPHE] (strip_chars [QUOTE] text) in
    let text := strip_chars (u ")") (strip_chars (u "(") text) in
    let text := strip_chars (u "]") (strip_chars (u "[") text) in
    let text := fold_left remove_explanation explanations text in
    let text :=
      if is_zh2en from_lang to_lang
      then List.filter (fun c => mem c allowed_zh2en
                                 || (c <? 19968)%N || (40959 <? c)%N) text
      else if String.eqb from_lang "en" && String.eqb to_lang "zh"
      then List.filter (fun c => mem c allowed_en2zh || is_cjk c) text
      else text in
    let text := join [SPACE] (words text) in
    strip text.

Definition translate (self : Translator) (text : list N)
    (from_lang to_lang : string) : State World (list N) :=
  if negb (truthy text) || negb (truthy (strip text)) then ret text
  else
    let prompt := get_prompt self text from_lang to_lang false in
    r <- post (api_url self) (model_name self) prompt ;;
    match r with
    | Some response =>
        let translated_text := strip response in
        let cleaned_text :=
          clean_translation self translated_text from_lang to_lang in
        ret (if truthy (strip cleaned_text) then cleaned_text
             else placeholder text)
    | None => ret (placeholder text)
    end.

(** [for i, trans in enumerate(translations)] *)
Fixpoint clean_all (self : Translator) (texts : list (list N))
    (from_lang to_lang : string) (i : nat) (translations : list (list N))
    (cleaned_translations : list (list N)) : list (list N) :=
  match translations with
  | [] => cleaned_translations
  | trans :: rest =>
      let cleaned_text := clean_translation self trans from_lang to_lang in
      clean_all self texts from_lang to_lang (S i) rest
        (if truthy (strip cleaned_text)
         then cleaned_translations ++ [cleaned_text]
         else match nth_error texts i with
              | Some t => cleaned_translations ++ [placeholder t]
              | None => cleaned_translations
              end)
  end.

(** [while len(cleaned_translations) < len(texts)]: [missing] is
    [texts[len(cleaned_translations):]]. *)
Fixpoint backfill (self : Translator) (from_lang to_lang : string)
    (missing : list (list N)) (cleaned_translations : list (list N))
  : State World (list (list N)) :=
  match missing with
  | [] => ret cleaned_translations
  | t :: rest =>
      single_translation <- translate self t from_lang to_lang ;;
      backfill self from_lang to_lang rest
               (cleaned_translations ++ [single_translation])
  end.

Definition batch_translate (self : Translator) (texts : list (list N))
    (from_lang to_lang : string) : State World (list (list N)) :=
  match texts with
  | [] => ret []
  | _ =>
      let separator := u "|||" in
      let combined_text := join separator texts in
      let prompt := get_prompt self combined_text from_lang to_lang true in
      r <- post (api_url self) (model_name self) prompt ;;
      match r with
      | Some response =>
          let translated_text := strip response in
          let translations :=
            List.map strip
              (List.filter (fun t => truthy (strip t))
                           (split separator translated_text)) in
          let translations :=
            List.filter (fun t => truthy t && negb (isspace t))
                        translations in
          let cleaned_translations :=
            clean_all self texts from_lang to_lang 0 translations [] in
          if (length cleaned_translations =? length texts)%nat
          then ret cleaned_translations
          else backfill self from_lang to_lang
                 (skipn (length cleaned_translations) texts)
                 cleaned_translations
      | None =>
          mapM (fun text => translate self text from_lang to_lang) texts
      end
  end.

End Client.

(** The lower-casing of the letters A to Z; it is [str.lower] on texts
    without other cased characters. *)
Definition ascii_lower (s : list N) : list N :=
  List.map (fun c => if is_ascii_upper c then (c + 32)%N else c) s.

End OllamaTranslator.

(** * Vocabulary of the statements *)

Import PyStr ET PPTXMLTranslator.

(** A run with a run style that declares [sz], and its text. *)
Definition sized_run (i : nat) (sz txt : string) : elem :=
  Elem i "a:r" ∅ None
    [Elem (i + 1) "a:rPr" {["sz" := u sz]} None [];
     Elem (i + 2) "a:t" ∅ (Some (u txt)) []].

(** A paragraph whose run declares 1800 and whose default run style
    declares 1200; the end-of-paragraph style declares 1000. *)
Definition paragraph_1800_over_1200 : elem :=
  Elem 0 "a:p" ∅ None
    [Elem 1 "a:pPr" ∅ None [Elem 2 "a:defRPr" {["sz" := u "1200"]} None []];
     sized_run 3 "1800" "Title";
     Elem 6 "a:endParaRPr" {["sz" := u "1000"]} None []].

(** A paragraph that declares no font size anywhere. *)
Definition paragraph_without_size : elem :=
  Elem 0 "a:p" ∅ None
    [Elem 1 "a:pPr" ∅ None [Elem 2 "a:defRPr" ∅ None []];
     Elem 3 "a:r" ∅ None
       [Elem 4 "a:rPr" {["lang" := u "en-US"]} None [];
        Elem 5 "a:t" ∅ (Some (u "Title")) []];
     Elem 6 "a:endParaRPr" ∅ None []].

(** A slide with one shape whose paragraphs read "Hello", "" and
    "World". *)
Definition shape_hello_empty_world : elem :=
  Elem 1 "p:sp" ∅ None
    [Elem 2 "a:txBody" ∅ None
       [Elem 3 "a:p" ∅ None [sized_run 4 "2400" "Hello"];
        Elem 7 "a:p" ∅ None
          [Elem 8 "a:r" ∅ None
             [Elem 9 "a:rPr" ∅ None []; Elem 10 "a:t" ∅ (Some []) []]];
        Elem 11 "a:p" ∅ None [sized_run 12 "2400" "World"]]].

Definition slide_hello_empty_world : elem :=
  Elem 0 "p:sld" ∅ None [shape_hello_empty_world].

(** A slide with one shape and no text in it. *)
Definition slide_blank : elem :=
  Elem 0 "p:sld" ∅ None
    [Elem 1 "p:sp" ∅ None
       [Elem 2 "a:txBody" ∅ None
          [Elem 3 "a:p" ∅ None
             [Elem 4 "a:r" ∅ None [Elem 5 "a:t" ∅ (Some (u "  ")) []]]]]].

(** The text of a run as [find_text_elements] reads it: the text of its
    first [a:t] descendant, when there is one and it is not empty. *)
Definition run_text (r : elem) : option (list N) :=
  match find_desc "a:t" r with
  | Some t =>
      match text t with
      | Some (c :: x) => Some (c :: x)
      | _ => None
      end
  | None => None
  end.

(** The text of a paragraph: the texts of its runs, in document order. *)
Definition paragraph_text (p : elem) : list N :=
  concat (omap run_text (findall_desc "a:r" p)).

(** The text of a shape: the stripped texts of its paragraphs that are not
    blank, in document order, joined by one line break. *)
Definition shape_text (shape : elem) : list N :=
  join [LF]
    (List.filter truthy
       (List.map (fun p => strip (paragraph_text p))
                 (findall_desc "a:p" shape))).

(** Every [sz] attribute below the root holds an integer literal. *)
Definition size_is_integer (x : elem) : bool :=
  match attrib x !! "sz" with
  | Some v => match py_int v with Some _ => true | None => false end
  | None => true
  end.

Definition sizes_are_integers (root : elem) : bool :=
  forallb size_is_integer (descendants root).

(** A text that begins and ends with a character that is not white
    space. *)
Definition starts_tight (s : list N) : bool :=
  match s with
  | c :: _ => negb (is_space c)
  | [] => false
  end.

Definition tight (s : list N) : bool :=
  starts_tight s && starts_tight (rev s).

(** The characters of a text that are not white space. *)
Definition nonspace (s : list N) : list N :=
  List.filter (fun c => negb (is_space c)) s.

(** What one paragraph adds to the text of its shape. *)
Definition add_piece (shape_text piece : list N) : list N :=
  if truthy piece
  then (if truthy shape_text then shape_text ++ [LF] else shape_text) ++ piece
  else shape_text.

(** The slide of the end-to-end scenario: one shape, two paragraphs
    reading "Hello" and "World" with runs of size 2400. *)
Definition slide_hello_world : elem :=
  Elem 0 "p:sld" ∅ None
    [Elem 1 "p:cSld" ∅ None
       [Elem 2 "p:spTree" ∅ None
          [Elem 3 "p:sp" ∅ None
             [Elem 4 "p:spPr" ∅ None
                [Elem 5 "a:xfrm" {["off" := u "0,0"]} None []];
              Elem 6 "a:txBody" ∅ None
                [Elem 7 "a:bodyPr" ∅ None [Elem 8 "a:normAutofit" ∅ None []];
                 Elem 9 "a:p" ∅ None [sized_run 10 "2400" "Hello"];
                 Elem 13 "a:p" ∅ None [sized_run 14 "2400" "World"]]]]]].

(** The same slide as a presentation holds it: the text body of a shape
    is an element of the presentation namespace, [p:txBody]. *)
Definition slide_hello_world_pml : elem :=
  Elem 0 "p:sld" ∅ None
    [Elem 1 "p:cSld" ∅ None
       [Elem 2 "p:spTree" ∅ None
          [Elem 3 "p:sp" ∅ None
             [Elem 4 "p:spPr" ∅ None
                [Elem 5 "a:xfrm" {["off" := u "0,0"]} None []];
              Elem 6 "p:txBody" ∅ None
                [Elem 7 "a:bodyPr" ∅ None [Elem 8 "a:normAutofit" ∅ None []];
                 Elem 9 "a:p" ∅ None [sized_run 10 "2400" "Hello"];
                 Elem 13 "a:p" ∅ None [sized_run 14 "2400" "World"]]]]]].

(** The translator of the scenario. *)
Definition translator_bonjour (_ : list N) : list N :=
  u "Bonjour" ++ [LF] ++ u "Monde".

(** What is observed of a document: for each paragraph, in document
    order, the declared size and the text of each of its runs; and the
    tags of the children of the text-body properties. *)
Definition run_view (r : elem) : option (list N) * option (list N) :=
  (match find_child "a:rPr" r with
   | Some rPr => attrib rPr !! "sz"
   | None => None
   end,
   match find_child "a:t" r with
   | Some t => text t
   | None => None
   end).

Definition paragraphs_view (root : elem)
  : list (list (option (list N) * option (list N))) :=
  List.map (fun p => List.map run_view (findall_child "a:r" p))
           (findall_desc "a:p" root).

Definition auto_fit_view (root : elem) : list (list string) :=
  List.map (fun b => List.map tag (kids b)) (findall_desc "a:bodyPr" root).

Definition sized_text (sz txt : string)
  : list (option (list N) * option (list N)) :=
  [(Some (u sz), Some (u txt))].

(** No character of the text is one of the letters A to Z. *)
Definition lowercased (s : list N) : Prop :=
  forall c, In c s -> is_ascii_upper c = false.

(** A translator for the model qwen:7b and a backend that answers every
    request with the two fragments "hello" and "world". *)
Definition qwen_translator : OllamaTranslator.Translator :=
  {| OllamaTranslator.model_name := "qwen:7b";
     OllamaTranslator.api_url := u "http://localhost:2342/api/generate";
     OllamaTranslator.model_config := OllamaTranslator.qwen_config |}.

Definition backend_hello_world (_ : list N) (_ : string) (_ : list N)
  : State unit (option (list N)) :=
  ret (Some (u "hello|||world")).

(** A backend that answers every request with "  Hello World ". *)
Definition backend_greeting (_ : list N) (_ : string) (_ : list N)
  : State unit (option (list N)) :=
  ret (Some (u "  Hello World ")).

(** The identities of the elements of a document, in document order.  In
    a document the identities are distinct, and those handed out later
    are not below the supply [n]. *)
Definition ids (e : elem) : list nat := List.map eid (iter e).

Definition well_formed (root : elem) (n : nat) : Prop :=
  List.NoDup (ids root) /\ forall j, In j (ids root) -> (j < n)%nat.

(** The attributes [a'] are the attributes [a] with [cx] and [cy] taken
    out or kept. *)
Definition attrs_rel (a a' : gmap string (list N)) : Prop :=
  forall k : string,
    (k <> "cx" -> k <> "cy" -> a' !! k = a !! k)
    /\ (a' !! k = None \/ a' !! k = a !! k).

Definition xfrm_rel (o o' : option elem) : Prop :=
  match o, o' with
  | None, None => True
  | Some x, Some x' => eid x = eid x' /\ attrs_rel (attrib x) (attrib x')
  | _, _ => False
  end.

(** Every group of [root'] is a group of [root], with the same
    transform element, whose attributes other than [cx] and [cy] are
    unchanged. *)
Definition groups_kept (root root' : elem) : Prop :=
  forall g', In g' (iter root') -> is_group g' = true ->
    exists g, In g (iter root) /\ eid g = eid g' /\ is_group g = true
              /\ xfrm_rel (group_xfrm g) (group_xfrm g').

(** The transform of the group with identity [i] has no [cx] and no
    [cy]. *)
Definition group_done (i : nat) (root : elem) : Prop :=
  forall g x, In g (iter root) -> eid g = i -> is_group g = true ->
    group_xfrm g = Some x ->
    attrib x !! "cx" = None /\ attrib x !! "cy" = None.

(** The weight of a child in the nesting depth of the groups. *)
Definition group_weight (k : elem) : nat :=
  ((if is_group k then 1 else 0) + gdepth k)%nat.

(** Every element of [root'] lies no deeper above groups than the element
    of [root] with its identity, or has no group below it. *)
Definition depth_kept (root root' : elem) : Prop :=
  forall y', In y' (iter root') ->
    gdepth y' = O
    \/ exists y, In y (iter root) /\ eid y = eid y'
                 /\ (gdepth y' <= gdepth y)%nat.

(** The auto-fit markers, and the documents in which they have no
    children. *)
Definition is_marker (e : elem) : bool :=
  has_tag "a:noAutofit" e || has_tag "a:normAutofit" e
  || has_tag "a:spAutoFit" e.

Definition markers_leaves (root : elem) : Prop :=
  forall m, In m (iter root) -> is_marker m = true -> kids m = [].

(** Every group of [root] is a group of [root']. *)
Definition groups_stay (root root' : elem) : Prop :=
  forall g, In g (iter root) -> is_group g = true ->
    exists g', In g' (iter root') /\ eid g' = eid g /\ is_group g' = true.

(** What a mutation of the auto-fit pass keeps of the document. *)
Definition tree_kept (root root' : elem) : Prop :=
  groups_kept root root'
  /\ eid root' = eid root
  /\ depth_kept root root'
  /\ (markers_leaves root ->
      markers_leaves root' /\ groups_stay root root').

(** What a step of the auto-fit pass keeps: the document stays well
    formed, the supply of identities does not go back, and the tree is
    kept. *)
Definition step_ok (root : elem) (n : nat) (r : elem * nat) : Prop :=
  well_formed (fst r) (snd r) /\ (n <= snd r)%nat
  /\ tree_kept root (fst r).

(** A slide with a group that holds a shape and a nested group; the
    transform of the outer group carries the four transform values and a
    size override. *)
Definition slide_groups : elem :=
  Elem 0 "p:sld" ∅ None
    [Elem 1 "p:spTree" ∅ None
       [Elem 2 "p:grpSp" ∅ None
          [Elem 3 "p:grpSpPr" ∅ None
             [Elem 4 "a:xfrm"
                (<["off" := u "0,0"]> (<["ext" := u "100,100"]>
                 (<["chOff" := u "0,0"]> (<["chExt" := u "200,200"]>
                 (<["cx" := u "5"]> {["cy" := u "6"]})))))
                None []];
           Elem 5 "p:sp" ∅ None
             [Elem 6 "p:spPr" ∅ None
                [Elem 7 "a:xfrm" (<["off" := u "1,1"]> {["cx" := u "3"]})
                   None []];
              Elem 8 "a:txBody" ∅ None [Elem 9 "a:p" ∅ None []]];
           Elem 10 "p:grpSp" ∅ None
             [Elem 11 "p:grpSpPr" ∅ None
                [Elem 12 "a:xfrm" (<["off" := u "7,7"]> {["cy" := u "9"]})
                   None []]]]]].

(** The attributes of the transform of the group with identity [i]. *)
Definition group_transform (i : nat) (root : elem)
  : option (gmap string (list N)) :=
  match get i root with
  | Some g => option_map attrib (group_xfrm g)
  | None => None
  end.

(** The first group of a document. *)
Definition first_group (root : elem) : elem :=
  hd root (findall_desc "p:grpSp" root).

(** A check of [well_formed]. *)
Fixpoint distinct (l : list nat) : bool :=
  match l with
  | [] => true
  | a :: l' => negb (existsb (Nat.eqb a) l') && distinct l'
  end.

Definition well_formed_b (root : elem) (n : nat) : bool :=
  distinct (ids root) && forallb (fun j => (j <? n)%nat) (ids root).

(** No two white-space characters follow each other. *)
Fixpoint spaced_once (s : list N) : bool :=
  match s with
  | a :: (b :: _) as r => negb (is_space a && is_space b) && spaced_once r
  | _ => true
  end.

(** A text whose only white space is the plain space, which neither
    begins nor ends with white space, and in which no two white-space
    characters follow each other. *)
Definition evenly_spaced (s : list N) : Prop :=
  (forall c, In c s -> is_space c = true -> c = SPACE)
  /\ (s = [] \/ tight s = true)
  /\ spaced_once s = true.

(** The fragments of a batch response that are kept: the response is
    stripped and split at the separator, the pieces are stripped, and the
    blank ones are left out. *)
Definition usable_fragments (response : list N) : list (list N) :=
  List.filter (fun t => truthy t && negb (isspace t))
    (List.map strip
       (List.filter (fun t => truthy (strip t))
                    (split (u "|||") (strip response)))).

(** A text that is not blank. *)
Definition not_blank (s : list N) : Prop := truthy (strip s) = true.

(** A backend that answers every request with white space. *)
Definition backend_blank (_ : list N) (_ : string) (_ : list N)
  : State unit (option (list N)) :=
  ret (Some (u "   ")).

(** What the loop over the paragraphs of a shape keeps of its state:
    the text gathered so far is empty or begins and ends with a character
    that is not white space; once it is not empty a first paragraph is
    recorded; and the recorded paragraph satisfies [P]. *)
Definition gathered (P : elem -> Prop)
    (st : list N * option StyleSpec * option elem) : Prop :=
  let '(shape_text, _, first_paragraph) := st in
  (shape_text = [] \/ tight shape_text = true)
  /\ (truthy shape_text = true -> first_paragraph <> None)
  /\ (forall p, first_paragraph = Some p -> P p).

(** The block of the slide with the paragraphs "Hello", "" and
    "World". *)
Definition block_hello_world : TextBlock :=
  {| tb_paragraph := Some 3%nat;
     tb_text := u "Hello" ++ [LF] ++ u "World";
     tb_style := Some {| font_size := 2400 |};
     tb_shape := 1%nat |}.

(** The size that the run of a translated paragraph declares: the [sz] of
    the run style of the first run of the original paragraph, stepped
    down as for a translation when it is an integer. *)
Definition translated_size (original_p : elem) : option (list N) :=
  match find_desc "a:r" original_p with
  | Some r =>
      match find_child "a:rPr" r with
      | Some rPr => attrib (adjust_element_font_size ["sz"] true rPr) !! "sz"
      | None => None
      end
  | None => None
  end.

(** A text that holds white space only (it may be empty). *)
Definition white (s : list N) : Prop := forallb is_space s = true.

(** [rewraps lines t]: the text [t] is the lines in their order, with a
    run of white space before each line and after the last one. *)
Definition rewraps (lines : list (list N)) (t : list N) : Prop :=
  exists (gaps : list (list N)) (last_gap : list N),
    length gaps = length lines
    /\ List.Forall white gaps /\ white last_gap
    /\ t = concat (zip_with app gaps lines) ++ last_gap.

(** A backend whose every request fails. *)
Definition backend_down (_ : list N) (_ : string) (_ : list N)
  : State unit (option (list N)) :=
  ret None.

(** A text that is lower-cased or is the error placeholder made for one
    of the given texts. *)
Definition lowercased_or_placeholder (texts : list (list N)) (t : list N)
  : Prop :=
  lowercased t
  \/ exists text, In text texts /\ t = OllamaTranslator.placeholder text.

(** * Properties *)

(** ** Rounding to a float *)

Section Rounding.

Import Float.
Local Open Scope Q_scope.

Lemma nearest_even_mono (x y : Q) :
  x <= y -> (nearest_even x <= nearest_even y)%Z.
Proof.
  intros Hxy.
  pose proof (Qfloor_resp_le x y Hxy) as Hf.
  pose proof (Qfloor_le x) as Hx1. pose proof (Qlt_floor x) as Hx2.
  pose proof (Qfloor_le y) as Hy1. pose proof (Qlt_floor y) as Hy2.
  rewrite inject_Z_plus in Hx2, Hy2.
  change (inject_Z 1) with 1 in Hx2, Hy2.
  destruct (Z.eq_dec (Qfloor x) (Qfloor y)) as [E|E].
  - unfold nearest_even. rewrite <- E.
    destruct (Qcompare (x - inject_Z (Qfloor x)) (1 # 2)) eqn:Cx;
      destruct (Qcompare (y - inject_Z (Qfloor x)) (1 # 2)) eqn:Cy;
      repeat match goal with
             | H : Qcompare _ _ = Eq |- _ => apply <- Qeq_alt in H
             | H : Qcompare _ _ = Lt |- _ => apply <- Qlt_alt in H
             | H : Qcompare _ _ = Gt |- _ => apply <- Qgt_alt in H
             end;
      try (exfalso; lra);
      destruct (Z.even (Qfloor x)); lia.
  - assert (Qfloor x + 1 <= Qfloor y)%Z as Hlt by lia.
    assert (nearest_even x <= Qfloor x + 1)%Z.
    { unfold nearest_even.
      destruct (Qcompare _ _); [destruct (Z.even _)| |]; lia. }
    assert (Qfloor y <= nearest_even y)%Z.
    { unfold nearest_even.
      destruct (Qcompare _ _); [destruct (Z.even _)| |]; lia. }
    lia.
Qed.

Lemma nearest_even_Z (n : Z) : nearest_even (inject_Z n) = n.
Proof.
  unfold nearest_even. rewrite Qfloor_Z.
  destruct (Qcompare (inject_Z n - inject_Z n) (1 # 2)) eqn:C.
  - apply Qeq_alt in C. exfalso. lra.
  - reflexivity.
  - apply Qgt_alt in C. exfalso. lra.
Qed.

Lemma nearest_even_ge (n : Z) (x : Q) :
  inject_Z n <= x -> (n <= nearest_even x)%Z.
Proof.
  intros H. pose proof (nearest_even_mono _ _ H) as M.
  rewrite nearest_even_Z in M. exact M.
Qed.

Lemma nearest_even_le (n : Z) (x : Q) :
  x <= inject_Z n -> (nearest_even x <= n)%Z.
Proof.
  intros H. pose proof (nearest_even_mono _ _ H) as M.
  rewrite nearest_even_Z in M. exact M.
Qed.

Lemma pow2_pos (e : Z) : 0 < 2 ^ e.
Proof. apply Qpower_0_lt. reflexivity. Qed.

Lemma pow2_le (a b : Z) : (a <= b)%Z -> 2 ^ a <= 2 ^ b.
Proof. intros H. apply Qpower_le_compat_l; [exact H|discriminate]. Qed.

Lemma pow2_add (a b : Z) : 2 ^ (a + b) == 2 ^ a * 2 ^ b.
Proof. apply Qpower_plus. discriminate. Qed.

Lemma pow2_log2 (a : Z) :
  (0 < a)%Z -> 2 ^ Z.log2 a <= inject_Z a /\ inject_Z a < 2 ^ (Z.log2 a + 1).
Proof.
  intros Ha. destruct (Z.log2_spec a Ha) as [H1 H2].
  pose proof (Z.log2_nonneg a) as Hn.
  change 2 with (inject_Z 2).
  rewrite <- !Zpower_Qpower by lia.
  split; [rewrite <- Zle_Qle; exact H1|].
  rewrite <- Zlt_Qlt. replace (Z.log2 a + 1)%Z with (Z.succ (Z.log2 a)) by lia.
  exact H2.
Qed.

Lemma Qdiv_lt_cross (a b c d : Q) :
  0 < b -> 0 < d -> a * d < c * b -> a / b < c / d.
Proof.
  intros Hb Hd H. apply Qlt_shift_div_r; [exact Hb|].
  assert (c / d * b == c * b / d) as E by (field; lra).
  rewrite E. apply Qlt_shift_div_l; [exact Hd|exact H].
Qed.

(** The last place of a positive number. *)
Lemma last_place_spec (x : Q) :
  0 < x ->
  2 ^ (last_place x + 52) <= x /\ x < 2 ^ (last_place x + 53).
Proof.
  intros Hx. unfold last_place.
  destruct x as [a b]. cbn [Qnum Qden].
  assert (0 < a)%Z as Ha by (unfold Qlt in Hx; cbn in Hx; lia).
  destruct (pow2_log2 a Ha) as [A1 A2].
  destruct (pow2_log2 (Z.pos b) eq_refl) as [B1 B2].
  set (la := Z.log2 a) in *. set (lb := Z.log2 (Z.pos b)) in *.
  assert (a # b == inject_Z a / inject_Z (Z.pos b)) as E
    by apply Qmake_Qdiv.
  pose proof (pow2_pos la) as Pla. pose proof (pow2_pos lb) as Plb.
  pose proof (pow2_pos (la + 1)) as Pla1.
  pose proof (pow2_pos (lb + 1)) as Plb1.
  assert (0 < inject_Z (Z.pos b)) as Pb
    by (change 0 with (inject_Z 0); rewrite <- Zlt_Qlt; reflexivity).
  (* x < 2^(k+1) and 2^(k-1) < x *)
  assert (a # b < 2 ^ (la - lb + 1)) as Hhi.
  { rewrite E. replace (la - lb + 1)%Z with ((la + 1) - lb)%Z by lia.
    rewrite Qpower_minus by discriminate.
    apply Qdiv_lt_cross; [exact Pb|exact Plb|]. nra. }
  assert (2 ^ (la - lb - 1) < a # b) as Hlo.
  { rewrite E. replace (la - lb - 1)%Z with (la - (lb + 1))%Z by lia.
    rewrite Qpower_minus by discriminate.
    apply Qdiv_lt_cross; [exact Plb1|exact Pb|]. nra. }
  destruct (Qle_bool (2 ^ (la - lb)) (a # b)) eqn:C.
  - apply Qle_bool_iff in C.
    replace (la - lb - 52 + 52)%Z with (la - lb)%Z by lia.
    replace (la - lb - 52 + 53)%Z with (la - lb + 1)%Z by lia.
    split; assumption.
  - assert (a # b < 2 ^ (la - lb)) as C'.
    { apply Qnot_le_lt. intros H. apply Qle_bool_iff in H. congruence. }
    replace (la - lb - 1 - 52 + 52)%Z with (la - lb - 1)%Z by lia.
    replace (la - lb - 1 - 52 + 53)%Z with (la - lb)%Z by lia.
    split; [apply Qlt_le_weak|]; assumption.
Qed.

Lemma round_pos_bounds (x : Q) :
  0 < x ->
  2 ^ (last_place x + 52) <= round_pos x
  /\ round_pos x <= 2 ^ (last_place x + 53).
Proof.
  intros Hx. destruct (last_place_spec x Hx) as [H1 H2].
  unfold round_pos. set (e := last_place x) in *.
  pose proof (pow2_pos e) as Pe.
  rewrite pow2_add in H1. rewrite pow2_add in H2.
  rewrite !pow2_add.
  assert (inject_Z (2 ^ 52) == 2 ^ 52) as E52 by reflexivity.
  assert (inject_Z (2 ^ 53) == 2 ^ 53) as E53 by reflexivity.
  assert (inject_Z (2 ^ 52) <= x / 2 ^ e) as L.
  { rewrite E52. apply Qle_shift_div_l; [exact Pe|].
    rewrite Qmult_comm. exact H1. }
  assert (x / 2 ^ e <= inject_Z (2 ^ 53)) as U.
  { rewrite E53. apply Qle_shift_div_r; [exact Pe|].
    rewrite Qmult_comm. apply Qlt_le_weak. exact H2. }
  apply nearest_even_ge in L. apply nearest_even_le in U.
  rewrite Zle_Qle in L, U. rewrite E52 in L. rewrite E53 in U.
  set (m := inject_Z (nearest_even (x / 2 ^ e))) in *.
  split; rewrite (Qmult_comm (2 ^ e)); apply Qmult_le_compat_r;
    try assumption; apply Qlt_le_weak; exact Pe.
Qed.

Lemma round_pos_mono (x y : Q) :
  0 < x -> x <= y -> round_pos x <= round_pos y.
Proof.
  intros Hx Hxy. assert (0 < y) as Hy by lra.
  destruct (last_place_spec x Hx) as [X1 X2].
  destruct (last_place_spec y Hy) as [Y1 Y2].
  destruct (Z_lt_le_dec (last_place y) (last_place x)) as [C|C].
  - exfalso.
    assert (2 ^ (last_place y + 53) <= 2 ^ (last_place x + 52))
      by (apply pow2_le; lia).
    lra.
  - destruct (Z.eq_dec (last_place x) (last_place y)) as [E|E].
    + unfold round_pos. rewrite <- E. set (e := last_place x).
      pose proof (pow2_pos e) as Pe.
      apply Qmult_le_compat_r; [|apply Qlt_le_weak; exact Pe].
      rewrite <- Zle_Qle. apply nearest_even_mono.
      apply Qle_shift_div_l; [exact Pe|].
      unfold Qdiv. rewrite <- Qmult_assoc, (Qmult_comm (/ _)),
        Qmult_inv_r, Qmult_1_r; [exact Hxy|].
      intros H. rewrite H in Pe. discriminate.
    + destruct (round_pos_bounds x Hx) as [_ U].
      destruct (round_pos_bounds y Hy) as [L _].
      assert (2 ^ (last_place x + 53) <= 2 ^ (last_place y + 52))
        by (apply pow2_le; lia).
      lra.
Qed.

Lemma round_pos_pos (x : Q) : 0 < x -> 0 < round_pos x.
Proof.
  intros Hx. destruct (round_pos_bounds x Hx) as [L _].
  pose proof (pow2_pos (last_place x + 52)). lra.
Qed.

(** Rounding is monotone. *)
Lemma fl_mono (x y : Q) : x <= y -> fl x <= fl y.
Proof.
  intros Hxy. unfold fl.
  destruct (Qcompare x 0) eqn:Cx; destruct (Qcompare y 0) eqn:Cy;
    repeat match goal with
           | H : Qcompare _ _ = Eq |- _ => apply <- Qeq_alt in H
           | H : Qcompare _ _ = Lt |- _ => apply <- Qlt_alt in H
           | H : Qcompare _ _ = Gt |- _ => apply <- Qgt_alt in H
           end;
    try (exfalso; lra).
  - lra.
  - pose proof (round_pos_pos y Cy). lra.
  - assert (0 < - x) as Hx by lra. pose proof (round_pos_pos _ Hx). lra.
  - assert (0 < - y) as Hy by lra.
    pose proof (round_pos_mono (- y) (- x) Hy ltac:(lra)). lra.
  - assert (0 < - x) as Hx by lra. pose proof (round_pos_pos _ Hx).
    pose proof (round_pos_pos y Cy). lra.
  - apply round_pos_mono; [exact Cx|exact Hxy].
Qed.

Lemma fl_nonneg (x : Q) : 0 <= x -> 0 <= fl x.
Proof. intros H. exact (fl_mono 0 x H). Qed.

End Rounding.

(** Two places where the rounding shows: [int((1640 / 100) * 100)] is
    1639, and [int(11 * (15 / 11))] is 14, so a translation of 15
    characters for an original line of 11 is cut before its last
    character. *)
Lemma declared_size_rounds :
  declared_size (Elem 0 "a:rPr" {["sz" := u "1640"]} None []) = Some 1639.
Proof. vm_compute. reflexivity. Qed.

Lemma resegment_rounds :
  resegment (u "hello world") (u "hello the world")
  = [u "hello the worl"; u "d"].
Proof. vm_compute. reflexivity. Qed.

(** ** The font-size ladder *)

Section Ladder.

Local Open Scope Q_scope.

Lemma py_round_near (x : Q) :
  x - (1 # 2) <= inject_Z (py_round x) /\ inject_Z (py_round x) <= x + (1 # 2).
Proof.
  unfold py_round.
  pose proof (Qfloor_le x) as Hlo.
  pose proof (Qlt_floor x) as Hhi.
  rewrite inject_Z_plus in Hhi.
  change (inject_Z 1) with 1 in Hhi.
  destruct (Qcompare (x - inject_Z (Qfloor x)) (1 # 2)) eqn:Hc.
  - apply Qeq_alt in Hc.
    destruct (Z.even (Qfloor x)).
    + split; lra.
    + rewrite inject_Z_plus. change (inject_Z 1) with 1. split; lra.
  - apply Qlt_alt in Hc. split; lra.
  - apply Qgt_alt in Hc.
    rewrite inject_Z_plus. change (inject_Z 1) with 1. split; lra.
Qed.

(** The half-point rounding of [get_next_smaller_size] moves a size by at
    most a quarter point. *)
Lemma rounded_size_near (s : Q) :
  let r := inject_Z (py_round (s * 2)) / 2 in
  s - (1 # 4) <= r /\ r <= s + (1 # 4).
Proof.
  intros r. subst r.
  destruct (py_round_near (s * 2)) as [H1 H2].
  unfold Qdiv. change (/ 2) with (1 # 2).
  split; lra.
Qed.

Lemma next_smaller_in_ladder (r : Q) :
  In (next_smaller_from r 0 ppt_font_sizes) ppt_font_sizes.
Proof.
  unfold ppt_font_sizes at 1. cbn [next_smaller_from].
  repeat match goal with
         | |- context [Qle_bool ?a r] => destruct (Qle_bool a r)
         end;
    vm_compute; tauto.
Qed.

Ltac ladder_value :=
  match goal with
  | |- context [inject_Z ?z] =>
      match z with
      | context [Qle_bool] => fail 1
      | _ => let z' := eval vm_compute in z in change z with z'
      end
  | |- ?z = _ => let z' := eval vm_compute in z in change z with z'
  end.

Lemma next_smaller_le (r s : Q) :
  r <= s + (1 # 4) -> 5 <= s ->
  inject_Z (next_smaller_from r 0 ppt_font_sizes) <= s.
Proof.
  intros Hr Hs.
  unfold ppt_font_sizes at 1. cbn [next_smaller_from].
  repeat match goal with
         | |- context [Qle_bool ?a r] =>
             let E := fresh "E" in
             destruct (Qle_bool a r) eqn:E;
             [ apply Qle_bool_imp_le in E; cbv [inject_Z] in E;
               ladder_value; cbv [inject_Z]; lra
             | clear E ]
         end.
  cbv [min_font_size inject_Z]. lra.
Qed.

Lemma next_smaller_floor (r : Q) :
  r < 6 -> next_smaller_from r 0 ppt_font_sizes = 5%Z.
Proof.
  intros Hr.
  unfold ppt_font_sizes at 1. cbn [next_smaller_from].
  repeat match goal with
         | |- context [Qle_bool ?a r] =>
             let E := fresh "E" in
             destruct (Qle_bool a r) eqn:E;
             [ first [ reflexivity
                     | apply Qle_bool_imp_le in E; cbv [inject_Z] in E; lra ]
             | clear E ]
         end.
  reflexivity.
Qed.

End Ladder.

(** C2, as stated, fails below the floor: three points is a positive size,
    and the size returned for it is the floor of five points, which is
    larger. *)
Lemma get_next_smaller_size_above_input :
  ~ ((0 < 3)%Q ->
     (In (get_next_smaller_size 3) ppt_font_sizes
      \/ get_next_smaller_size 3 = min_font_size)
     /\ (inject_Z (get_next_smaller_size 3) <= 3)%Q).
Proof.
  intros H. destruct (H eq_refl) as [_ Hle].
  vm_compute in Hle. apply Hle. reflexivity.
Qed.

(** C2 (amended): for every size [s], [get_next_smaller_size s] is a
    member of the standard ladder; it is at most [s] whenever [s] is at
    least the floor of five points, and it is the floor itself when [s] is
    below the floor. *)
Theorem get_next_smaller_size_ladder (s : Q) :
  In (get_next_smaller_size s) ppt_font_sizes
  /\ ((5 <= s)%Q -> (inject_Z (get_next_smaller_size s) <= s)%Q)
  /\ ((s < 5)%Q -> get_next_smaller_size s = min_font_size).
Proof.
  unfold get_next_smaller_size.
  destruct (rounded_size_near s) as [Hlo Hhi].
  split; [apply next_smaller_in_ladder|].
  split; intros Hs.
  - apply next_smaller_le; assumption.
  - apply next_smaller_floor. lra.
Qed.

Lemma get_next_smaller_size_ladder_witness :
  In (get_next_smaller_size 24) ppt_font_sizes
  /\ (inject_Z (get_next_smaller_size 24) <= 24)%Q
  /\ get_next_smaller_size (9 # 2) = min_font_size.
Proof.
  split; [apply (get_next_smaller_size_ladder 24)|].
  split.
  - apply (get_next_smaller_size_ladder 24). vm_compute. discriminate.
  - apply (get_next_smaller_size_ladder (9 # 2)). reflexivity.
Defined.

(** ** Style resolution *)

Lemma style_from_runs_skip (before rest : list elem) :
  (forall r x, In r before -> find_child "a:rPr" r = Some x ->
               declared_size x = None) ->
  style_from_runs (before ++ rest) = style_from_runs rest.
Proof.
  induction before as [|r before IH]; intros H; [reflexivity|].
  cbn [app style_from_runs].
  destruct (find_child "a:rPr" r) as [x|] eqn:Hx.
  - rewrite (H r x (or_introl eq_refl) Hx).
    apply IH. intros r' x' Hr'. apply H. right. exact Hr'.
  - apply IH. intros r' x' Hr'. apply H. right. exact Hr'.
Qed.



Lemma style_from_runs_none (runs : list elem) :
  (forall r x, In r runs -> find_child "a:rPr" r = Some x ->
               attrib x !! "sz" = None) ->
  style_from_runs runs = None.
Proof.
  intros H.
  rewrite <- (app_nil_r runs).
  rewrite style_from_runs_skip; [reflexivity|].
  intros r x Hr Hx. unfold declared_size. rewrite (H r x Hr Hx). reflexivity.
Qed.

(** C8: a paragraph that declares no font size in the run style of any of
    its runs, in its default run style or in its end-of-paragraph style
    gets the style of 1400 (14 points, two rungs below the default of 18
    points); [get_paragraph_style] is a total function and has no failing
    case. *)
Theorem get_paragraph_style_default (p : elem) :
  (forall r x, In r (findall_desc "a:r" p) ->
               find_child "a:rPr" r = Some x -> attrib x !! "sz" = None) ->
  (forall p_pr def_rpr, find_child "a:pPr" p = Some p_pr ->
               find_child "a:defRPr" p_pr = Some def_rpr ->
               attrib def_rpr !! "sz" = None) ->
  (forall e, find_child "a:endParaRPr" p = Some e ->
             attrib e !! "sz" = None) ->
  get_paragraph_style p = {| font_size := 1400 |}
  /\ nth 2 (List.filter (fun z => z <=? 18) ppt_font_sizes) 0 = 14.
Proof.
  intros Hruns Hppr Hend.
  split; [|reflexivity].
  unfold get_paragraph_style.
  rewrite (style_from_runs_none _ Hruns).
  assert (style_from_ppr p = None) as ->.
  { unfold style_from_ppr.
    destruct (find_child "a:pPr" p) as [p_pr|] eqn:E1; [|reflexivity].
    destruct (find_child "a:defRPr" p_pr) as [d|] eqn:E2; [|reflexivity].
    unfold declared_size. rewrite (Hppr p_pr d eq_refl E2). reflexivity. }
  assert (style_from_end p = None) as ->.
  { unfold style_from_end.
    destruct (find_child "a:endParaRPr" p) as [e|] eqn:E1; [|reflexivity].
    unfold declared_size. rewrite (Hend e eq_refl). reflexivity. }
  reflexivity.
Qed.

Lemma get_paragraph_style_default_witness :
  get_paragraph_style paragraph_without_size = {| font_size := 1400 |}.
Proof.
  apply (get_paragraph_style_default paragraph_without_size).
  - intros r x Hr Hx. vm_compute in Hr.
    destruct Hr as [<-|[]]. vm_compute in Hx. injection Hx as <-. reflexivity.
  - intros p_pr d H1 H2. vm_compute in H1. injection H1 as <-.
    vm_compute in H2. injection H2 as <-. reflexivity.
  - intros e H1. vm_compute in H1. injection H1 as <-. reflexivity.
Defined.

(** ** Element trees *)

Section ElemInd.

Variable P : elem -> Prop.
Hypothesis step : forall i t a x ks, Forall P ks -> P (Elem i t a x ks).

Fixpoint elem_rect_kids (e : elem) : P e :=
  match e with
  | Elem i t a x ks =>
      step i t a x ks
        ((fix all (l : list elem) : Forall P l :=
            match l with
            | [] => @List.Forall_nil elem P
            | k :: l' =>
                @List.Forall_cons elem P k l' (elem_rect_kids k) (all l')
            end) ks)
  end.

End ElemInd.

Lemma descendants_eq (e : elem) :
  descendants e = flat_map iter (kids e).
Proof.
  destruct e as [i t a x ks]. cbn [kids descendants].
  induction ks as [|k ks IH]; [reflexivity|].
  cbn [flat_map]. unfold iter at 1. rewrite <- IH. reflexivity.
Qed.

Lemma In_descendants (a e : elem) :
  In a (descendants e) <->
  exists k, In k (kids e) /\ (a = k \/ In a (descendants k)).
Proof.
  rewrite descendants_eq, in_flat_map. unfold iter.
  split; intros [k [Hk H]]; exists k; (split; [exact Hk|]).
  - destruct H as [H|H]; [left; symmetry; exact H | right; exact H].
  - destruct H as [H|H]; [left; symmetry; exact H | right; exact H].
Qed.

Lemma In_kids_descendants (k e : elem) :
  In k (kids e) -> In k (descendants e).
Proof. intros H. apply In_descendants. exists k. auto. Qed.

Lemma In_descendants_trans (a b c : elem) :
  In a (descendants b) -> In b (descendants c) -> In a (descendants c).
Proof.
  intros Hab. revert c.
  refine (elem_rect_kids _ _). intros i t at_ x ks IH Hbc.
  apply In_descendants in Hbc. destruct Hbc as [k [Hk Hb]].
  apply In_descendants. exists k. split; [exact Hk|]. right.
  destruct Hb as [->|Hb]; [exact Hab|].
  rewrite List.Forall_forall in IH. exact (IH k Hk Hb).
Qed.

Lemma head_filter_In {A} (f : A -> bool) (l : list A) (x : A) :
  head (List.filter f l) = Some x -> In x l /\ f x = true.
Proof.
  intros H.
  assert (In x (List.filter f l)) as Hin.
  { destruct (List.filter f l); [discriminate|].
    injection H as ->. left. reflexivity. }
  apply filter_In in Hin. exact Hin.
Qed.

Lemma find_child_In (t : string) (e x : elem) :
  find_child t e = Some x -> In x (kids e) /\ tag x = t.
Proof.
  intros H. apply head_filter_In in H. destruct H as [Hin Ht].
  split; [exact Hin|]. apply String.eqb_eq. exact Ht.
Qed.

Lemma find_desc_In (t : string) (e x : elem) :
  find_desc t e = Some x -> In x (descendants e) /\ tag x = t.
Proof.
  intros H. apply head_filter_In in H. destruct H as [Hin Ht].
  split; [exact Hin|]. apply String.eqb_eq. exact Ht.
Qed.

Lemma findall_desc_In (t : string) (e x : elem) :
  In x (findall_desc t e) <-> In x (descendants e) /\ tag x = t.
Proof.
  unfold findall_desc. rewrite filter_In. unfold has_tag.
  rewrite String.eqb_eq. reflexivity.
Qed.

(** ** Strings *)

Lemma drop_while_split (p : N -> bool) (s : list N) :
  exists t, s = t ++ drop_while p s /\ forallb p t = true.
Proof.
  induction s as [|c s [t [Ht Hp]]]; [exists []; auto|].
  cbn [drop_while]. destruct (p c) eqn:Hc.
  - exists (c :: t). cbn. rewrite Hc, Hp. split; [f_equal; exact Ht|reflexivity].
  - exists []. auto.
Qed.

Lemma drop_while_head (p : N -> bool) (s : list N) (c : N) (r : list N) :
  drop_while p s = c :: r -> p c = false.
Proof.
  induction s as [|d s IH]; [discriminate|].
  cbn [drop_while]. destruct (p d) eqn:Hd; [exact IH|].
  intros H. injection H as <- _. exact Hd.
Qed.

Lemma drop_while_fixed (p : N -> bool) (c : N) (r : list N) :
  p c = false -> drop_while p (c :: r) = c :: r.
Proof. intros H. cbn. rewrite H. reflexivity. Qed.

Lemma starts_tight_app (a b : list N) :
  starts_tight a = true -> starts_tight (a ++ b) = true.
Proof. destruct a; [discriminate|]. intros H. exact H. Qed.

Lemma tight_not_nil (s : list N) : tight s = true -> truthy s = true.
Proof. destruct s; [discriminate|reflexivity]. Qed.

Lemma strip_tight (s : list N) : tight s = true -> strip s = s.
Proof.
  unfold tight, strip, strip_by, lstrip_by, rstrip_by.
  intros H. apply andb_prop in H. destruct H as [H1 H2].
  destruct s as [|c r]; [discriminate|].
  rewrite drop_while_fixed by (apply negb_true_iff; exact H1).
  destruct (rev (c :: r)) as [|d r'] eqn:E; [discriminate|].
  rewrite drop_while_fixed by (apply negb_true_iff; exact H2).
  rewrite <- E. apply rev_involutive.
Qed.

Lemma strip_result (s : list N) : strip s = [] \/ tight (strip s) = true.
Proof.
  unfold strip, strip_by, lstrip_by, rstrip_by.
  set (l := drop_while is_space s).
  destruct (drop_while is_space (rev l)) as [|c m] eqn:Em; [left; reflexivity|].
  right. unfold tight. apply andb_true_intro. split.
  - destruct (drop_while_split is_space (rev l)) as [t [Ht _]].
    rewrite Em in Ht.
    assert (l = rev (c :: m) ++ rev t) as Hl.
    { rewrite <- rev_app_distr, <- Ht, rev_involutive. reflexivity. }
    destruct (rev (c :: m)) as [|d m'] eqn:Er.
    + apply (f_equal (@length N)) in Er. rewrite length_rev in Er. discriminate.
    + cbn [starts_tight]. apply negb_true_iff.
      apply (drop_while_head is_space s d (m' ++ rev t)).
      exact Hl.
  - rewrite rev_involutive. cbn [starts_tight]. apply negb_true_iff.
    exact (drop_while_head _ _ _ _ Em).
Qed.

Lemma strip_truthy_tight (s : list N) :
  truthy (strip s) = true -> tight (strip s) = true.
Proof.
  destruct (strip_result s) as [->|H]; [discriminate|]. intros _. exact H.
Qed.

Lemma tight_join2 (a b : list N) (c : N) :
  tight a = true -> tight b = true -> tight (a ++ c :: b) = true.
Proof.
  unfold tight. intros Ha Hb.
  apply andb_prop in Ha. apply andb_prop in Hb.
  apply andb_true_intro. split.
  - apply starts_tight_app. tauto.
  - rewrite rev_app_distr. cbn [rev]. rewrite <- app_assoc.
    apply starts_tight_app. tauto.
Qed.

(** ** Extraction of the text blocks *)

Lemma sized_Some (o : option elem) (x : elem) :
  sized o = Some x -> o = Some x /\ has_attr "sz" x = true.
Proof.
  destruct o as [y|]; [|discriminate]. cbn.
  destruct (has_attr "sz" y) eqn:E; [|discriminate].
  intros H. injection H as <-. auto.
Qed.

Lemma style_seen_ok (p x : elem) :
  has_attr "sz" x = true -> size_is_integer x = true ->
  style_seen p x = Some (get_paragraph_style p).
Proof.
  unfold has_attr, size_is_integer, style_seen, get_attr.
  destruct (attrib x !! "sz") as [v|]; [|discriminate].
  intros _. destruct (py_int v); [reflexivity|discriminate].
Qed.

Lemma run_step_text (p r : elem) (txt : list N) (style : option StyleSpec) :
  (forall x, In x (descendants r) -> size_is_integer x = true) ->
  exists style',
    run_step p (txt, style) r
    = Some (txt ++ match run_text r with Some y => y | None => [] end, style').
Proof.
  intros Hok. unfold run_step, run_text.
  destruct (find_desc "a:t" r) as [t|];
    [|exists style; rewrite app_nil_r; reflexivity].
  destruct (text t) as [[|c y]|];
    try (exists style; rewrite app_nil_r; reflexivity).
  destruct style as [st|]; [exists (Some st); reflexivity|].
  destruct (sized (find_child "a:rPr" r)) as [x|] eqn:E1.
  - apply sized_Some in E1. destruct E1 as [E1 Hsz].
    apply find_child_In in E1. destruct E1 as [Hin _].
    rewrite (style_seen_ok p x Hsz (Hok x (In_kids_descendants _ _ Hin))).
    eexists. reflexivity.
  - destruct (sized (find_desc "a:rPr" r)) as [x|] eqn:E2;
      [|exists None; reflexivity].
    apply sized_Some in E2. destruct E2 as [E2 Hsz].
    apply find_desc_In in E2. destruct E2 as [Hin _].
    rewrite (style_seen_ok p x Hsz (Hok x Hin)).
    eexists. reflexivity.
Qed.

Lemma runs_loop_text (p : elem) (runs : list elem) :
  (forall r x, In r runs -> In x (descendants r) ->
               size_is_integer x = true) ->
  forall txt style, exists style',
    runs_loop p runs (txt, style)
    = Some (txt ++ concat (omap run_text runs), style').
Proof.
  induction runs as [|r runs IH]; intros Hok txt style.
  - exists style. cbn. rewrite app_nil_r. reflexivity.
  - cbn [runs_loop].
    destruct (run_step_text p r txt style) as [style1 ->].
    { intros x. apply Hok. left. reflexivity. }
    destruct (IH (fun r' x Hr => Hok r' x (or_intror Hr))
                 (txt ++ match run_text r with Some y => y | None => [] end)
                 style1) as [style2 ->].
    exists style2. f_equal. f_equal.
    rewrite <- app_assoc. f_equal.
    cbn [omap list_omap]. destruct (run_text r); reflexivity.
Qed.

Lemma paragraph_step_text (p : elem) (stxt : list N)
    (style : option StyleSpec) (first : option elem) :
  (forall x, In x (descendants p) -> size_is_integer x = true) ->
  exists style' first',
    paragraph_step (stxt, style, first) p
    = Some (add_piece stxt (strip (paragraph_text p)), style', first').
Proof.
  intros Hok. unfold paragraph_step, paragraph_text, add_piece.
  destruct (findall_desc "a:r" p) as [|r0 rs] eqn:Eruns.
  - exists style, first. reflexivity.
  - destruct (runs_loop_text p (r0 :: rs)) with (txt := @nil N) (style := style)
      as [style' ->].
    { intros r x Hr Hx. apply Hok.
      rewrite <- Eruns in Hr. apply findall_desc_In in Hr.
      exact (In_descendants_trans _ _ _ Hx (proj1 Hr)). }
    cbn [app].
    destruct (truthy (strip (concat (omap run_text (r0 :: rs))))).
    + eexists _, _. reflexivity.
    + eexists _, _. reflexivity.
Qed.

Lemma paragraphs_loop_text (ps : list elem) :
  (forall p x, In p ps -> In x (descendants p) -> size_is_integer x = true) ->
  forall stxt style first, exists style' first',
    paragraphs_loop ps (stxt, style, first)
    = Some (fold_left add_piece
              (List.map (fun p => strip (paragraph_text p)) ps) stxt,
            style', first').
Proof.
  induction ps as [|p ps IH]; intros Hok stxt style first.
  - exists style, first. reflexivity.
  - cbn [paragraphs_loop List.map fold_left].
    destruct (paragraph_step_text p stxt style first) as [s1 [f1 ->]].
    { intros x. apply Hok. left. reflexivity. }
    apply IH. intros p' x Hp'. apply Hok. right. exact Hp'.
Qed.

Lemma join_snoc (sep : list N) (acc : list (list N)) (x : list N) :
  acc <> [] -> join sep (acc ++ [x]) = join sep acc ++ sep ++ x.
Proof.
  induction acc as [|a acc IH]; [congruence|]. intros _.
  destruct acc as [|b acc]; [reflexivity|].
  change (join sep ((a :: b :: acc) ++ [x]))
    with (a ++ sep ++ join sep ((b :: acc) ++ [x])).
  rewrite IH by discriminate.
  change (join sep (a :: b :: acc)) with (a ++ sep ++ join sep (b :: acc)).
  rewrite <- !app_assoc. reflexivity.
Qed.

Lemma tight_join (pieces : list (list N)) :
  pieces <> [] -> List.Forall (fun s => tight s = true) pieces ->
  tight (join [LF] pieces) = true.
Proof.
  induction pieces as [|a pieces IH]; [congruence|]. intros _ H.
  inversion H as [|? ? Ha Hrest]; subst.
  destruct pieces as [|b pieces]; [exact Ha|].
  change (join [LF] (a :: b :: pieces))
    with (a ++ LF :: join [LF] (b :: pieces)).
  apply tight_join2; [exact Ha|]. apply IH; [discriminate|exact Hrest].
Qed.

Lemma fold_add_piece (pieces acc : list (list N)) :
  List.Forall (fun s => tight s = true) acc ->
  List.Forall (fun s => s = [] \/ tight s = true) pieces ->
  fold_left add_piece pieces (join [LF] acc)
  = join [LF] (acc ++ List.filter truthy pieces).
Proof.
  revert acc. induction pieces as [|x pieces IH]; intros acc Hacc Hp.
  - cbn. rewrite app_nil_r. reflexivity.
  - inversion Hp as [|? ? Hx Hrest]; subst.
    cbn [fold_left List.filter]. unfold add_piece at 2.
    destruct Hx as [->|Hx].
    + cbn [truthy]. apply IH; assumption.
    + rewrite (tight_not_nil x Hx).
      replace ((if truthy (join [LF] acc) then join [LF] acc ++ [LF]
                else join [LF] acc) ++ x) with (join [LF] (acc ++ [x])).
      * rewrite IH; [|apply Forall_app; split; [exact Hacc|]|exact Hrest].
        -- rewrite <- app_assoc. reflexivity.
        -- constructor; [exact Hx|constructor].
      * destruct acc as [|a acc]; [reflexivity|].
        rewrite join_snoc by discriminate.
        rewrite (tight_not_nil _ (tight_join (a :: acc) ltac:(discriminate) Hacc)).
        rewrite <- app_assoc. reflexivity.
Qed.

Lemma pieces_tight (ps : list elem) :
  List.Forall (fun s => s = [] \/ tight s = true)
              (List.map (fun p => strip (paragraph_text p)) ps).
Proof.
  apply List.Forall_forall. intros s Hs.
  apply in_map_iff in Hs. destruct Hs as [p [<- _]].
  apply strip_result.
Qed.

Lemma shape_text_tight (shape : elem) :
  shape_text shape = [] \/ tight (shape_text shape) = true.
Proof.
  unfold shape_text.
  destruct (List.filter truthy _) as [|a l] eqn:E; [left; reflexivity|].
  right. apply tight_join; [discriminate|].
  rewrite <- E. apply List.Forall_forall. intros s Hs.
  apply filter_In in Hs. destruct Hs as [Hs Ht].
  apply in_map_iff in Hs. destruct Hs as [p [<- _]].
  apply strip_truthy_tight. exact Ht.
Qed.

Lemma shape_block_text (shape : elem) :
  (forall x, In x (descendants shape) -> size_is_integer x = true) ->
  exists ob,
    shape_block shape = Some ob
    /\ option_map (fun b => (tb_shape b, tb_text b)) ob
       = if truthy (shape_text shape)
         then Some (eid shape, shape_text shape) else None.
Proof.
  intros Hok. unfold shape_block.
  destruct (findall_desc "a:p" shape) as [|p0 ps] eqn:Eps.
  - exists None. unfold shape_text. rewrite Eps. auto.
  - destruct (paragraphs_loop_text (p0 :: ps)) with
      (stxt := @nil N) (style := @None StyleSpec) (first := @None elem)
      as [style' [first' ->]].
    { intros p x Hp Hx. apply Hok.
      rewrite <- Eps in Hp. apply findall_desc_In in Hp.
      exact (In_descendants_trans _ _ _ Hx (proj1 Hp)). }
    assert (fold_left add_piece
              (List.map (fun p => strip (paragraph_text p)) (p0 :: ps)) []
            = shape_text shape) as ->.
    { change (@nil N) with (join [LF] []) at 1.
      rewrite fold_add_piece; [|constructor|apply pieces_tight].
      unfold shape_text. rewrite Eps. reflexivity. }
    destruct (shape_text_tight shape) as [E|E].
    + rewrite E. cbn. exists None. auto.
    + rewrite (strip_tight _ E), (tight_not_nil _ E).
      eexists (Some _). split; reflexivity.
Qed.

Lemma shapes_loop_text (shapes : list elem) :
  (forall sh x, In sh shapes -> In x (descendants sh) ->
                size_is_integer x = true) ->
  exists blocks,
    shapes_loop shapes = Some blocks
    /\ List.map (fun b => (tb_shape b, tb_text b)) blocks
       = List.map (fun sh => (eid sh, shape_text sh))
           (List.filter (fun sh => truthy (shape_text sh)) shapes).
Proof.
  induction shapes as [|sh shapes IH]; intros Hok.
  - exists []. auto.
  - cbn [shapes_loop List.filter].
    destruct (shape_block_text sh) as [ob [-> Hob]].
    { intros x. apply Hok. left. reflexivity. }
    destruct IH as [bs [-> Hbs]].
    { intros sh' x Hsh'. apply Hok. right. exact Hsh'. }
    eexists. split; [reflexivity|].
    destruct (truthy (shape_text sh)); destruct ob as [b|];
      cbn in Hob; try discriminate.
    + injection Hob as H1 H2. cbn [List.map]. rewrite H1, H2, Hbs. reflexivity.
    + exact Hbs.
Qed.



(** ** The end-to-end scenario *)

(** On the slide of the scenario with a text body tagged [a:txBody], the
    document written back does not show the original runs at 1800
    followed by two paragraphs "Bonjour" and "Monde" at 1400. *)
Lemma translate_slide_scenario_not_as_claimed :
  ~ exists root' n',
      translate_slide translator_bonjour slide_hello_world 17%nat
      = (Some root', n')
      /\ paragraphs_view root'
         = [sized_text "1800" "Hello"; sized_text "1800" "World";
            sized_text "1400" "Bonjour"; sized_text "1400" "Monde"]
      /\ auto_fit_view root' = [["a:spAutoFit"]].
Proof.
  intros [root' [n' [H [Hview _]]]].
  vm_compute in H. injection H as <- _.
  vm_compute in Hview. discriminate Hview.
Qed.

(** C1: what [translate_slide] does on the slide of the scenario, with
    the translator answering "Bonjour", a line break, "Monde".  On the
    slide as a presentation holds it (text body [p:txBody]) the original
    runs end at 1400, not 1800: the pass over all sized elements lowers
    24 points to 18 and the pass over the runs of the shape lowers them
    again to 14.  Four paragraphs are appended, not two, reading "Bonjo",
    "ur", "Mon" and "de" at size 900: the translation is cut inside its
    words at the scaled positions 5 and 11, and the pieces are split again
    at its own line break.  The text-body properties keep the marker
    [normAutofit] and get no [spAutoFit], because [_set_shape_auto_fit]
    looks for a text body tagged [a:txBody].  On the same slide with the
    text body tagged [a:txBody] the sizes and the paragraphs are the same
    and the marker is rewritten to [spAutoFit]. *)
Theorem translate_slide_scenario_diverges :
  (exists root' n',
      translate_slide translator_bonjour slide_hello_world_pml 17%nat
      = (Some root', n')
      /\ paragraphs_view root'
         = [sized_text "1400" "Hello"; sized_text "1400" "World";
            sized_text "900" "Bonjo"; sized_text "900" "ur";
            sized_text "900" "Mon"; sized_text "900" "de"]
      /\ auto_fit_view root' = [["a:normAutofit"]])
  /\ (exists root' n',
        translate_slide translator_bonjour slide_hello_world 17%nat
        = (Some root', n')
        /\ paragraphs_view root'
           = [sized_text "1400" "Hello"; sized_text "1400" "World";
              sized_text "900" "Bonjo"; sized_text "900" "ur";
              sized_text "900" "Mon"; sized_text "900" "de"]
        /\ auto_fit_view root' = [["a:spAutoFit"]]).
Proof.
  split; eexists _, _; (split; [vm_compute; reflexivity|]);
    split; vm_compute; reflexivity.
Qed.

(** ** The translation client *)

Import OllamaTranslator.

Lemma strip_nil_of_blank (s : list N) :
  truthy (strip s) = true -> truthy s = true.
Proof. destruct s; [discriminate|reflexivity]. Qed.

Lemma placeholder_tight (text : list N) : tight (placeholder text) = true.
Proof.
  unfold placeholder, tight.
  assert (exists r, u "[Translation Error for: " = 91%N :: r) as [r ->]
    by (eexists; vm_compute; reflexivity).
  change (u "]") with [93%N].
  apply andb_true_intro. split; [reflexivity|].
  rewrite rev_app_distr, rev_app_distr. reflexivity.
Qed.

Lemma placeholder_not_blank (text : list N) :
  truthy (strip (placeholder text)) = true.
Proof.
  rewrite strip_tight by apply placeholder_tight.
  apply tight_not_nil, placeholder_tight.
Qed.

(** What [translate] returns for a text that is not blank. *)
Lemma translate_result (lower : list N -> list N) (World : Type)
    (post : list N -> string -> list N -> State World (option (list N)))
    (self : Translator) (text : list N) (from_lang to_lang : string)
    (w : World) :
  truthy (strip text) = true ->
  let result :=
    fst (translate lower World post self text from_lang to_lang w) in
  match fst (post (api_url self) (model_name self)
                  (get_prompt self text from_lang to_lang false) w) with
  | Some response =>
      let cleaned := clean_translation lower self (strip response)
                                       from_lang to_lang in
      result = if truthy (strip cleaned) then cleaned
               else placeholder text
  | None => result = placeholder text
  end.
Proof.
  intros Htext result. subst result. unfold translate.
  rewrite Htext, (strip_nil_of_blank _ Htext). cbn [negb orb].
  unfold bind.
  destruct (post (api_url self) (model_name self)
              (get_prompt self text from_lang to_lang false) w)
    as [[response|] w']; reflexivity.
Qed.

Section ClientProperties.

Variable lower : list N -> list N.
Variable World : Type.
Variable post : list N -> string -> list N -> State World (option (list N)).

(** C6: for a text that is not blank, [translate] returns a text that is
    not blank: the placeholder ["[Translation Error for: " + text + "]"]
    when the backend call fails or the cleaned translation is empty or
    white space only, and the cleaned translation otherwise. *)
Theorem translate_never_blank (self : Translator) (text : list N)
    (from_lang to_lang : string) (w : World) :
  truthy (strip text) = true ->
  let result := fst (translate lower World post self text from_lang to_lang w) in
  truthy (strip result) = true
  /\ match fst (post (api_url self) (model_name self)
                     (get_prompt self text from_lang to_lang false) w) with
     | Some response =>
         let cleaned := clean_translation lower self (strip response)
                                          from_lang to_lang in
         result = if truthy (strip cleaned) then cleaned
                  else u "[Translation Error for: " ++ text ++ u "]"
     | None => result = u "[Translation Error for: " ++ text ++ u "]"
     end.
Proof.
  intros Htext result. subst result. unfold translate.
  rewrite Htext, (strip_nil_of_blank _ Htext). cbn [negb orb].
  unfold bind.
  destruct (post (api_url self) (model_name self)
              (get_prompt self text from_lang to_lang false) w)
    as [[response|] w'].
  - cbn [fst ret].
    destruct (truthy (strip (clean_translation lower self (strip response)
                               from_lang to_lang))) eqn:E.
    + split; [exact E|reflexivity].
    + split; [apply placeholder_not_blank|reflexivity].
  - cbn [fst ret]. split; [apply placeholder_not_blank|reflexivity].
Qed.

End ClientProperties.

Lemma translate_never_blank_witness :
  fst (translate ascii_lower unit backend_greeting qwen_translator
                 (u "你好") "zh" "en" tt) = u "hello world".
Proof.
  destruct (translate_never_blank ascii_lower unit backend_greeting
              qwen_translator (u "你好") "zh" "en" tt eq_refl) as [_ H].
  exact H.
Defined.

Lemma In_drop_while (p : N -> bool) (s : list N) (c : N) :
  In c (drop_while p s) -> In c s.
Proof.
  destruct (drop_while_split p s) as [t [Ht _]].
  intros H. rewrite Ht. apply in_or_app. right. exact H.
Qed.

Lemma In_strip_by (p : N -> bool) (s : list N) (c : N) :
  In c (strip_by p s) -> In c s.
Proof.
  unfold strip_by, rstrip_by, lstrip_by. intros H.
  apply in_rev, In_drop_while in H. apply in_rev in H.
  exact (In_drop_while _ _ _ H).
Qed.

Lemma In_replace_go (old : list N) (s : list N) (c : N) :
  forall skip, In c (replace_go old [] skip s) -> In c s.
Proof.
  induction s as [|d s IH]; intros skip H; [exact H|].
  cbn [replace_go] in H. destruct skip as [|k].
  - destruct (prefix_b old (d :: s)).
    + right. exact (IH _ H).
    + destruct H as [<-|H]; [left; reflexivity|right; exact (IH _ H)].
  - right. exact (IH _ H).
Qed.

Lemma In_words_go (s : list N) :
  forall cur w c, In w (words_go cur s) -> In c w -> In c cur \/ In c s.
Proof.
  induction s as [|d s IH]; intros cur w c Hw Hc.
  - cbn in Hw. destruct cur as [|a cur]; [destruct Hw|].
    destruct Hw as [<-|[]]. left. apply in_rev. exact Hc.
  - cbn [words_go] in Hw. destruct (is_space d).
    + destruct cur as [|a cur].
      * destruct (IH _ _ _ Hw Hc) as [[]|H]. right. right. exact H.
      * destruct Hw as [<-|Hw]; [left; apply in_rev; exact Hc|].
        destruct (IH _ _ _ Hw Hc) as [[]|H]. right. right. exact H.
    + destruct (IH _ _ _ Hw Hc) as [[<-|H]|H].
      * right. left. reflexivity.
      * left. exact H.
      * right. right. exact H.
Qed.

Lemma In_join (sep : list N) (ws : list (list N)) (c : N) :
  In c (join sep ws) -> In c sep \/ exists w, In w ws /\ In c w.
Proof.
  induction ws as [|w ws IH]; [intros []|].
  destruct ws as [|w' ws].
  - intros H. right. exists w. split; [left; reflexivity|exact H].
  - change (join sep (w :: w' :: ws)) with (w ++ sep ++ join sep (w' :: ws)).
    intros H. apply in_app_or in H. destruct H as [H|H].
    + right. exists w. split; [left; reflexivity|exact H].
    + apply in_app_or in H. destruct H as [H|H]; [left; exact H|].
      destruct (IH H) as [H'|[x [Hx Hcx]]]; [left; exact H'|].
      right. exists x. split; [right; exact Hx|exact Hcx].
Qed.

Section Lowercase.

Variable lower : list N -> list N.
Hypothesis lower_lowercased : forall s, lowercased (lower s).

Lemma remove_explanation_lowercased (text exp : list N) :
  lowercased (remove_explanation lower text exp).
Proof.
  intros c H. unfold remove_explanation, strip in H.
  apply In_strip_by in H. unfold replace in H. apply In_replace_go in H.
  exact (lower_lowercased _ _ H).
Qed.

Lemma explanations_loop_lowercased (exps : list (list N)) :
  forall text, lowercased text \/ exps <> [] ->
               lowercased (fold_left (remove_explanation lower) exps text).
Proof.
  induction exps as [|e exps IH]; intros text H.
  - destruct H as [H|H]; [exact H|congruence].
  - cbn [fold_left]. apply IH. left. apply remove_explanation_lowercased.
Qed.

Lemma filter_lowercased (f : N -> bool) (s : list N) :
  lowercased s -> lowercased (List.filter f s).
Proof. intros H c Hc. apply filter_In in Hc. apply H. tauto. Qed.

Lemma words_join_lowercased (s : list N) :
  lowercased s -> lowercased (strip (join [SPACE] (words s))).
Proof.
  intros H c Hc. apply In_strip_by in Hc. apply In_join in Hc.
  destruct Hc as [[<-|[]]|[w [Hw Hcw]]]; [reflexivity|].
  destruct (In_words_go _ _ _ _ Hw Hcw) as [[]|Hs]. exact (H _ Hs).
Qed.

(** Whatever the model and the language pair, the text returned by
    [clean_translation] holds none of the letters A to Z: the loop over
    the explanations lower-cases the whole text. *)
Lemma clean_translation_lower (self : Translator) (text : list N)
    (from_lang to_lang : string) :
  lowercased (clean_translation lower self text from_lang to_lang).
Proof.
  unfold clean_translation.
  destruct (truthy text) eqn:Et; cbn [negb].
  - apply words_join_lowercased.
    assert (lowercased
              (fold_left (remove_explanation lower) explanations
                 (strip_chars (u "]") (strip_chars (u "[")
                   (strip_chars (u ")") (strip_chars (u "(")
                     (strip_chars [APOSTROPHE] (strip_chars [QUOTE]
                       (fold_left (strip_prefix lower) prefixes
                          (if String.eqb (model_name self) "llama3:8b"
                           then replace (u "Human:") []
                                  (replace (u "Assistant:") []
                                     (replace (u "[/INST]") []
                                        (replace (u "[INST]") []
                                           (replace (u "</s>") []
                                              (replace (u "<s>") []
                                                 (strip text))))))
                           else strip text))))))))))
      as Hloop.
    { apply explanations_loop_lowercased. right. discriminate. }
    destruct (is_zh2en from_lang to_lang);
      [apply filter_lowercased; exact Hloop|].
    destruct (String.eqb from_lang "en" && String.eqb to_lang "zh");
      [apply filter_lowercased; exact Hloop|exact Hloop].
  - destruct text; [intros c []|discriminate].
Qed.

End Lowercase.

Lemma ascii_lower_lowercased (s : list N) : lowercased (ascii_lower s).
Proof.
  intros c H. unfold ascii_lower in H. apply in_map_iff in H.
  destruct H as [d [<- _]].
  destruct (is_ascii_upper d) eqn:E; [|exact E].
  unfold is_ascii_upper in *. apply andb_prop in E. destruct E as [E1 E2].
  apply N.leb_le in E1. apply N.leb_le in E2.
  apply andb_false_intro2. apply N.leb_gt. lia.
Qed.

Section Batch.

Variable lower : list N -> list N.
Variable World : Type.
Variable post : list N -> string -> list N -> State World (option (list N)).

Lemma backfill_length (self : Translator) (from_lang to_lang : string)
    (missing : list (list N)) :
  forall cleaned w,
    length (fst (backfill lower World post self from_lang to_lang
                          missing cleaned w))
    = (length cleaned + length missing)%nat.
Proof.
  induction missing as [|t missing IH]; intros cleaned w.
  - cbn. lia.
  - cbn [backfill]. unfold bind.
    destruct (translate lower World post self t from_lang to_lang w)
      as [single w'].
    rewrite IH, length_app. cbn. lia.
Qed.

Lemma mapM_length {A B} (f : A -> State World B) (l : list A) :
  forall w, length (fst (mapM f l w)) = length l.
Proof.
  induction l as [|x l IH]; intros w; [reflexivity|].
  cbn [mapM]. unfold bind.
  destruct (f x w) as [y w1]. specialize (IH w1).
  destruct (mapM f l w1) as [r w2]. cbn in *. lia.
Qed.

(** The batch is never shorter than its input: a shortfall is filled by
    single translations, and the fall-back after a failed request
    translates every text. *)
Lemma batch_translate_not_fewer (self : Translator) (texts : list (list N))
    (from_lang to_lang : string) (w : World) :
  (length texts
   <= length (fst (batch_translate lower World post self texts
                                   from_lang to_lang w)))%nat.
Proof.
  unfold batch_translate. destruct texts as [|t texts]; [cbn; lia|].
  unfold bind.
  destruct (post _ _ _ w) as [[response|] w'].
  - match goal with
    | |- context [clean_all ?a ?b ?c ?d ?e ?f ?g ?h] =>
        set (cleaned := clean_all a b c d e f g h)
    end.
    destruct (length cleaned =? length (t :: texts))%nat eqn:E.
    + apply Nat.eqb_eq in E. cbn [fst ret]. lia.
    + rewrite backfill_length, length_skipn. lia.
  - rewrite mapM_length. lia.
Qed.

End Batch.

(** C4 fails on the code when the response holds more fragments than the
    batch holds texts: for the single text "你好" and a backend that
    answers "hello|||world", [batch_translate] returns the two strings
    "hello" and "world".  The count check notices the mismatch, and the
    loop that follows only fills a shortfall. *)
Theorem batch_translate_extra_fragment :
  fst (batch_translate ascii_lower unit backend_hello_world qwen_translator
                       [u "你好"] "zh" "en" tt)
  = [u "hello"; u "world"].
Proof. vm_compute. reflexivity. Qed.

(** ** Line re-segmentation *)

Lemma find_from_range (c : N) (l : list N) :
  forall i, 0 <= i ->
    find_from c i l = -1 \/ (i <= find_from c i l < i + len l).
Proof.
  unfold len.
  induction l as [|d l IH]; intros i Hi; [left; reflexivity|].
  cbn [find_from]. destruct (d =? c)%N.
  - right. cbn [length]. lia.
  - destruct (IH (i + 1) ltac:(lia)) as [H|H]; [left; exact H|].
    right. cbn [length]. lia.
Qed.

Lemma find_from_skip (c : N) (k : nat) :
  forall l i, 0 <= i ->
    let p1 := find_from c i l in
    let p2 := find_from c (i + Z.of_nat k) (skipn k l) in
    (p2 <> -1 -> p1 <> -1 /\ p1 <= p2)
    /\ (p1 <> -1 -> p2 = -1 -> p1 < i + Z.of_nat k).
Proof.
  induction k as [|k IH]; intros l i Hi p1 p2; subst p1 p2.
  - change (skipn 0 l) with l. cbn [Z.of_nat]. rewrite Z.add_0_r.
    split; [lia|congruence].
  - destruct l as [|d l].
    + cbn. split; congruence.
    + change (skipn (S k) (d :: l)) with (skipn k l). cbn [find_from].
      replace (i + Z.of_nat (S k)) with (i + 1 + Z.of_nat k) by lia.
      destruct (d =? c)%N.
      * split; [|lia]. intros H.
        destruct (find_from_range c (skipn k l) (i + 1 + Z.of_nat k)
                    ltac:(lia)) as [E|E]; [congruence|lia].
      * exact (IH l (i + 1) ltac:(lia)).
Qed.

(** The facts about [s.find(c, t)] that the snapping relies on. *)
Lemma find_range (s : list N) (c : N) (t : Z) :
  0 <= t -> find s c t = -1 \/ (t <= find s c t < len s).
Proof.
  intros Ht. unfold find.
  destruct (find_from_range c (skipn (Z.to_nat t) s) t Ht) as [H|H];
    [left; exact H|].
  destruct (Z_lt_le_dec (find_from c t (skipn (Z.to_nat t) s)) (len s))
    as [Hlt|Hge]; [right; lia|].
  unfold len in *. rewrite length_skipn in H. lia.
Qed.

Lemma find_mono (s : list N) (c : N) (t1 t2 : Z) :
  0 <= t1 <= t2 ->
  (find s c t2 <> -1 -> find s c t1 <> -1 /\ find s c t1 <= find s c t2)
  /\ (find s c t1 <> -1 -> find s c t2 = -1 -> find s c t1 < t2).
Proof.
  intros Ht. unfold find.
  pose proof (find_from_skip c (Z.to_nat (t2 - t1))
                (skipn (Z.to_nat t1) s) t1 (proj1 Ht)) as H.
  cbn zeta in H.
  rewrite skipn_skipn in H.
  replace (Z.to_nat (t2 - t1) + Z.to_nat t1)%nat with (Z.to_nat t2) in H
    by lia.
  replace (t1 + Z.of_nat (Z.to_nat (t2 - t1))) with t2 in H by lia.
  exact H.
Qed.

Section Snap.

Variable txt : list N.

(** How the positions after the first punctuation mark at or after [t1]
    and at or after [t2] compare, for [t1 <= t2]. *)
Definition punct_rel (t1 t2 a1 a2 : Z) : Prop :=
  (a1 = -1 \/ t1 < a1 <= len txt)
  /\ (a2 = -1 \/ t2 < a2 <= len txt)
  /\ (a2 <> -1 -> a1 <> -1 /\ a1 <= a2)
  /\ (a1 <> -1 -> a2 = -1 -> a1 <= t2).

Lemma punct_step_rel (t1 t2 a1 a2 : Z) (c : N) :
  0 <= t1 <= t2 -> punct_rel t1 t2 a1 a2 ->
  punct_rel t1 t2 (punct_step txt t1 a1 c) (punct_step txt t2 a2 c).
Proof.
  intros Ht [H1 [H2 [H3 H4]]]. unfold punct_rel, punct_step.
  pose proof (find_range txt c t1 ltac:(lia)) as R1.
  pose proof (find_range txt c t2 ltac:(lia)) as R2.
  destruct (find_mono txt c t1 t2 Ht) as [M1 M2].
  destruct (Z.eqb_spec (find txt c t1) (-1)); cbn [negb andb orb];
    destruct (Z.eqb_spec (find txt c t2) (-1)); cbn [negb andb orb];
    destruct (Z.eqb_spec a1 (-1)); cbn [orb];
    destruct (Z.eqb_spec a2 (-1)); cbn [orb];
    repeat match goal with
           | |- context [?x <? ?y] => destruct (Z.ltb_spec x y)
           end;
    lia.
Qed.

Lemma punct_fold_rel (t1 t2 : Z) (chars : list N) :
  0 <= t1 <= t2 ->
  forall a1 a2, punct_rel t1 t2 a1 a2 ->
    punct_rel t1 t2 (fold_left (punct_step txt t1) chars a1)
                    (fold_left (punct_step txt t2) chars a2).
Proof.
  intros Ht. induction chars as [|c chars IH]; intros a1 a2 H; [exact H|].
  cbn [fold_left]. apply IH. apply punct_step_rel; assumption.
Qed.

Lemma snap_range (t : Z) :
  0 <= t < len txt -> t <= snap txt t <= len txt.
Proof.
  intros Ht. unfold snap.
  pose proof (find_range txt SPACE t ltac:(lia)) as R.
  destruct (punct_fold_rel t t (u ".,:;?!") ltac:(lia) (-1) (-1))
    as [P _]; [unfold punct_rel; lia|].
  destruct (Z.eqb_spec (find txt SPACE t) (-1)); cbn [negb andb];
    destruct (Z.eqb_spec
                (fold_left (punct_step txt t) (u ".,:;?!") (-1)) (-1));
    cbn [negb andb]; lia.
Qed.

Lemma snap_mono (t1 t2 : Z) :
  0 <= t1 <= t2 -> t2 < len txt -> snap txt t1 <= snap txt t2.
Proof.
  intros Ht Hlen. unfold snap.
  pose proof (find_range txt SPACE t1 ltac:(lia)) as R1.
  pose proof (find_range txt SPACE t2 ltac:(lia)) as R2.
  destruct (find_mono txt SPACE t1 t2 Ht) as [M1 M2].
  destruct (punct_fold_rel t1 t2 (u ".,:;?!") Ht (-1) (-1))
    as [P1 [P2 [P3 P4]]]; [unfold punct_rel; lia|].
  destruct (Z.eqb_spec (find txt SPACE t1) (-1)); cbn [negb andb];
    destruct (Z.eqb_spec (find txt SPACE t2) (-1)); cbn [negb andb];
    destruct (Z.eqb_spec
                (fold_left (punct_step txt t1) (u ".,:;?!") (-1)) (-1));
    cbn [negb andb];
    destruct (Z.eqb_spec
                (fold_left (punct_step txt t2) (u ".,:;?!") (-1)) (-1));
    cbn [negb andb]; lia.
Qed.

End Snap.

Lemma nonspace_spaces (a : list N) :
  forallb is_space a = true -> nonspace a = [].
Proof.
  induction a as [|c a IH]; [reflexivity|]. cbn.
  intros H. apply andb_prop in H. destruct H as [Hc Ha].
  rewrite Hc. cbn. exact (IH Ha).
Qed.

Lemma nonspace_app (a b : list N) :
  nonspace (a ++ b) = nonspace a ++ nonspace b.
Proof. apply List.filter_app. Qed.

Lemma forallb_rev (p : N -> bool) (l : list N) :
  forallb p l = true -> forallb p (rev l) = true.
Proof.
  rewrite !forallb_forall. intros H x Hx. apply H, in_rev. exact Hx.
Qed.

Lemma strip_split (s : list N) :
  exists a b, s = a ++ strip s ++ b
              /\ forallb is_space a = true /\ forallb is_space b = true.
Proof.
  unfold strip, strip_by, lstrip_by, rstrip_by.
  destruct (drop_while_split is_space s) as [a [Ha Hpa]].
  destruct (drop_while_split is_space (rev (drop_while is_space s)))
    as [t [Ht Hpt]].
  exists a, (rev t). split; [|split; [exact Hpa|apply forallb_rev; exact Hpt]].
  rewrite <- rev_app_distr, <- Ht, rev_involutive. exact Ha.
Qed.

Lemma nonspace_strip (s : list N) : nonspace (strip s) = nonspace s.
Proof.
  destruct (strip_split s) as [a [b [Hs [Ha Hb]]]].
  rewrite Hs at 2. rewrite !nonspace_app.
  rewrite (nonspace_spaces a Ha), (nonspace_spaces b Hb), app_nil_r.
  reflexivity.
Qed.

Lemma firstn_add {A} (n m : nat) (l : list A) :
  firstn (n + m) l = firstn n l ++ firstn m (skipn n l).
Proof.
  revert l. induction n as [|n IH]; intros l; [reflexivity|].
  destruct l as [|x l]; [destruct m; reflexivity|].
  cbn. f_equal. apply IH.
Qed.

Lemma firstn_slice (txt : list N) (a b : Z) :
  0 <= a <= b ->
  firstn (Z.to_nat b) txt = firstn (Z.to_nat a) txt ++ slice txt a b.
Proof.
  intros H. unfold slice.
  replace (Z.to_nat b) with (Z.to_nat a + (Z.to_nat b - Z.to_nat a))%nat
    at 1 by lia.
  apply firstn_add.
Qed.

Lemma rewraps_nil : rewraps [] [].
Proof. exists [], []. repeat split; constructor. Qed.

Lemma rewraps_gap (lines : list (list N)) (t w : list N) :
  rewraps lines t -> white w -> rewraps lines (t ++ w).
Proof.
  intros [gaps [lg [Hl [Hg [Hw ->]]]]] Hws.
  exists gaps, (lg ++ w). repeat split; try assumption.
  - unfold white. rewrite forallb_app. apply andb_true_intro. auto.
  - rewrite <- app_assoc. reflexivity.
Qed.

Lemma rewraps_line (lines : list (list N)) (t l : list N) :
  rewraps lines t -> rewraps (lines ++ [l]) (t ++ l).
Proof.
  intros [gaps [lg [Hl [Hg [Hw ->]]]]].
  exists (gaps ++ [lg]), []. repeat split.
  - rewrite !length_app, Hl. reflexivity.
  - apply Forall_app. split; [exact Hg|]. constructor; [exact Hw|constructor].
  - rewrite (zip_with_app app gaps [lg] lines [l] Hl), concat_app.
    cbn [zip_with concat]. rewrite !app_nil_r, <- app_assoc. reflexivity.
Qed.

(** What a slice of the text adds: its stripped form as a line, when that
    is not empty, and white space around it. *)
Lemma rewraps_slice (lines : list (list N)) (t s : list N) :
  rewraps lines t ->
  rewraps (if truthy (strip s) then lines ++ [strip s] else lines) (t ++ s).
Proof.
  intros H. destruct (strip_split s) as [a [b [Hs [Ha Hb]]]].
  assert (rewraps (if truthy (strip s) then lines ++ [strip s] else lines)
                  (t ++ a ++ strip s ++ b)) as R;
    [|rewrite <- Hs in R; exact R].
  clear Hs. destruct (strip s) as [|c line]; cbn [truthy].
  - cbn [app]. rewrite app_assoc.
    apply rewraps_gap; [apply rewraps_gap|]; assumption.
  - rewrite !app_assoc. apply rewraps_gap; [|exact Hb].
    apply rewraps_line. apply rewraps_gap; assumption.
Qed.

Lemma segment_loop_rewraps (scaled : Z -> Z) (txt : list N)
    (breaks : list Z) :
  forall last_pos lines,
    StronglySorted Z.le (List.map scaled breaks) ->
    List.Forall (fun t => 0 <= t) (List.map scaled breaks) ->
    0 <= last_pos <= len txt ->
    (forall t, In t (List.map scaled breaks) -> t < len txt ->
               last_pos <= snap txt t) ->
    rewraps lines (firstn (Z.to_nat last_pos) txt) ->
    List.Forall (fun line => tight line = true) lines ->
    let r := segment_loop scaled txt breaks last_pos lines in
    0 <= fst r <= len txt
    /\ rewraps (snd r) (firstn (Z.to_nat (fst r)) txt)
    /\ List.Forall (fun line => tight line = true) (snd r).
Proof.
  induction breaks as [|b breaks IH];
    intros last_pos lines Hsorted Hpos Hlast Hnext Hlines Htight r; subst r.
  - cbn. auto.
  - cbn [segment_loop]. cbn [List.map] in Hsorted, Hpos, Hnext.
    apply StronglySorted_inv in Hsorted. destruct Hsorted as [Hsorted Hle].
    apply List.Forall_cons_iff in Hpos. destruct Hpos as [Hb Hpos].
    destruct (Z.ltb_spec (scaled b) (len txt)) as [Hlt|Hge].
    + pose proof (snap_range txt (scaled b) ltac:(lia)) as Hsnap.
      pose proof (Hnext (scaled b) (or_introl eq_refl) Hlt) as Hcut.
      apply IH; try assumption.
      * lia.
      * intros t Ht Htl. apply snap_mono; [|exact Htl].
        rewrite List.Forall_forall in Hle. specialize (Hle t Ht). lia.
      * rewrite (firstn_slice txt last_pos (snap txt (scaled b)))
          by lia.
        apply rewraps_slice. exact Hlines.
      * destruct (truthy (strip (slice txt last_pos (snap txt (scaled b)))))
          eqn:E; [|exact Htight].
        apply Forall_app. split; [exact Htight|].
        constructor; [|constructor]. apply strip_truthy_tight. exact E.
    + apply IH; try assumption.
      intros t Ht. apply Hnext. right. exact Ht.
Qed.

Lemma segment_with_rewraps (scaled : Z -> Z) (breaks : list Z)
    (txt : list N) :
  StronglySorted Z.le (List.map scaled breaks) ->
  List.Forall (fun t => 0 <= t) (List.map scaled breaks) ->
  rewraps (segment_with scaled breaks txt) txt
  /\ List.Forall (fun line => tight line = true)
                 (segment_with scaled breaks txt).
Proof.
  intros Hsorted Hpos. unfold segment_with.
  destruct (segment_loop_rewraps scaled txt breaks 0 [] Hsorted Hpos)
    as [Hlast [Hlines Htight]].
  - unfold len. lia.
  - intros t Ht Hlt. rewrite List.Forall_forall in Hpos.
    pose proof (Hpos t Ht).
    pose proof (snap_range txt t ltac:(lia)). lia.
  - exact rewraps_nil.
  - constructor.
  - destruct (segment_loop scaled txt breaks 0 []) as [last_pos lines].
    cbn [fst snd] in *.
    assert (txt = firstn (Z.to_nat last_pos) txt ++ slice_from txt last_pos)
      as Htxt by (unfold slice_from; symmetry; apply firstn_skipn).
    destruct (Z.ltb_spec last_pos (len txt)) as [Hlt|Hge].
    + pose proof (rewraps_slice lines _ (slice_from txt last_pos) Hlines)
        as Hr.
      rewrite <- Htxt in Hr.
      destruct (truthy (strip (slice_from txt last_pos))) eqn:E.
      * split; [exact Hr|].
        apply Forall_app. split; [exact Htight|].
        constructor; [|constructor]. apply strip_truthy_tight. exact E.
      * split; [exact Hr|exact Htight].
    + split; [|exact Htight].
      rewrite firstn_all2 in Hlines by (unfold len in *; lia).
      exact Hlines.
Qed.

Lemma line_breaks_from_sorted (lines : list (list N)) :
  forall cur,
    StronglySorted Z.le (line_breaks_from cur lines)
    /\ List.Forall (Z.le cur) (line_breaks_from cur lines).
Proof.
  induction lines as [|line lines IH]; intros cur.
  - split; constructor.
  - cbn [line_breaks_from].
    destruct (IH (cur + len line)) as [Hs Hf].
    assert (0 <= len line) by (unfold len; lia).
    split.
    + constructor; assumption.
    + constructor; [lia|].
      eapply List.Forall_impl; [|exact Hf]. cbn. intros; lia.
Qed.

Lemma trunc_nonneg (x : Q) : (0 <= x)%Q -> trunc x = Qfloor x.
Proof.
  intros H. unfold trunc.
  destruct (Qle_bool 0 x) eqn:E; [reflexivity|].
  apply Qle_bool_iff in H. congruence.
Qed.

Lemma scaled_break_mono (T T' : list N) (b1 b2 : Z) :
  0 <= b1 <= b2 ->
  0 <= scaled_break T T' b1 <= scaled_break T T' b2.
Proof.
  intros Hb. unfold scaled_break.
  set (ratio := Float.fl (inject_Z (len T') / inject_Z (len T))%Q).
  assert (0 <= ratio)%Q as Hratio.
  { subst ratio. apply fl_nonneg. unfold Qdiv. apply Qmult_le_0_compat.
    - change 0%Q with (inject_Z 0). rewrite <- Zle_Qle. unfold len. lia.
    - apply Qinv_le_0_compat.
      change 0%Q with (inject_Z 0). rewrite <- Zle_Qle. unfold len. lia. }
  assert (0 <= Float.fl (inject_Z b1))%Q as H1.
  { apply fl_nonneg. change 0%Q with (inject_Z 0). rewrite <- Zle_Qle. lia. }
  assert (Float.fl (inject_Z b1) <= Float.fl (inject_Z b2))%Q as H2
    by (apply fl_mono; rewrite <- Zle_Qle; lia).
  assert (0 <= Float.fl (inject_Z b1) * ratio)%Q as H3
    by (apply Qmult_le_0_compat; assumption).
  assert (Float.fl (inject_Z b1) * ratio
          <= Float.fl (inject_Z b2) * ratio)%Q as H4
    by (apply Qmult_le_compat_r; assumption).
  pose proof (fl_nonneg _ H3) as H5.
  pose proof (fl_mono _ _ H4) as H6.
  rewrite !trunc_nonneg by lra.
  split.
  - change 0 with (Qfloor 0). apply Qfloor_resp_le. exact H5.
  - apply Qfloor_resp_le. exact H6.
Qed.

Lemma scaled_breaks_sorted (T T' : list N) (bs : list Z) :
  StronglySorted Z.le bs -> List.Forall (Z.le 0) bs ->
  StronglySorted Z.le (List.map (scaled_break T T') bs)
  /\ List.Forall (fun t => 0 <= t) (List.map (scaled_break T T') bs).
Proof.
  induction bs as [|b bs IH]; intros Hs Hp; [split; constructor|].
  apply StronglySorted_inv in Hs. destruct Hs as [Hs Hle].
  apply List.Forall_cons_iff in Hp. destruct Hp as [Hb Hp].
  destruct (IH Hs Hp) as [IH1 IH2].
  cbn [List.map]. split.
  - constructor; [exact IH1|].
    apply List.Forall_forall. intros t Ht. apply in_map_iff in Ht.
    destruct Ht as [b' [<- Hb']].
    rewrite List.Forall_forall in Hle.
    apply scaled_break_mono. split; [exact Hb|exact (Hle b' Hb')].
  - constructor; [|exact IH2].
    apply (scaled_break_mono T T' b b). lia.
Qed.

(** C3, as stated, fails: the lines are stripped, so white space of the
    translation at a cut is dropped.  For the original "a", line break,
    "b" and the translation "x y" the lines are "x" and "y", and their
    concatenation is "xy". *)
Lemma resegment_drops_space :
  ~ (u "a" ++ [LF] ++ u "b" <> [] ->
     concat (resegment (u "a" ++ [LF] ++ u "b") (u "x y")) = u "x y").
Proof.
  intros H. specialize (H ltac:(discriminate)).
  vm_compute in H. discriminate H.
Qed.

(** C3 (amended): for every non-empty original text and every translation,
    the lines returned by the re-segmentation are not empty and begin and
    end with a character that is not white space, and the translation is
    exactly these lines in their order with a run of white space, which
    may be empty, before each line and after the last one.  Every line is
    thus a piece of the translation with its inner white space; no
    character is duplicated or moved, and what concatenating the lines
    leaves out is white space at the cuts and at the two ends. *)
Theorem resegment_rewraps (T T' : list N) :
  T <> [] ->
  rewraps (resegment T T') T'
  /\ List.Forall (fun line => tight line = true) (resegment T T').
Proof.
  intros _. unfold resegment.
  destruct (line_breaks_from_sorted (split [LF] T) 0) as [Hs Hp].
  destruct (scaled_breaks_sorted T T' (line_breaks T) Hs Hp) as [H1 H2].
  apply segment_with_rewraps; assumption.
Qed.

Lemma resegment_rewraps_witness :
  rewraps (resegment (u "hello" ++ [LF] ++ u "big world")
                     (u "bonjour  grand monde"))
          (u "bonjour  grand monde").
Proof.
  apply (resegment_rewraps (u "hello" ++ [LF] ++ u "big world")
                           (u "bonjour  grand monde")).
  discriminate.
Defined.

(** ** C10: which returned texts are lower-cased *)

Lemma space_not_upper (c : N) : is_space c = true -> is_ascii_upper c = false.
Proof.
  intros H. destruct (is_ascii_upper c) eqn:E; [|reflexivity].
  exfalso. unfold is_ascii_upper in E. apply andb_prop in E.
  destruct E as [E1 E2]. apply N.leb_le in E1. apply N.leb_le in E2.
  unfold is_space in H.
  repeat match goal with
         | H : (_ || _)%bool = true |- _ =>
             apply orb_prop in H; destruct H as [H|H]
         | H : (_ && _)%bool = true |- _ =>
             apply andb_prop in H; destruct H as [? ?]
         | H : (_ <=? _)%N = true |- _ => apply N.leb_le in H
         | H : (_ =? _)%N = true |- _ => apply N.eqb_eq in H
         end; lia.
Qed.

Lemma blank_lowercased (text : list N) :
  truthy (strip text) = false -> lowercased text.
Proof.
  intros H. destruct (strip_split text) as [a [b [Hs [Ha Hb]]]].
  destruct (strip text); [|discriminate].
  rewrite forallb_forall in Ha. rewrite forallb_forall in Hb.
  intros c Hc. rewrite Hs in Hc. cbn [app] in Hc.
  apply space_not_upper. apply in_app_or in Hc.
  destruct Hc as [Hc|Hc]; auto.
Qed.

Lemma placeholder_capitals (text : list N) : ~ lowercased (placeholder text).
Proof.
  intros H. specialize (H 84%N).
  assert (exists r, u "[Translation Error for: " = 91%N :: 84%N :: r)
    as [r E] by (eexists; vm_compute; reflexivity).
  unfold placeholder in H. rewrite E in H.
  discriminate (H (or_intror (or_introl eq_refl))).
Qed.

Section Returned.

Variable lower : list N -> list N.
Hypothesis lower_lowercased : forall s, lowercased (lower s).
Variable World : Type.
Variable post : list N -> string -> list N -> State World (option (list N)).

Lemma translate_lowercased (self : Translator) (text : list N)
    (from_lang to_lang : string) (w : World) :
  let result :=
    fst (translate lower World post self text from_lang to_lang w) in
  lowercased result \/ result = placeholder text.
Proof.
  cbv zeta. destruct (truthy (strip text)) eqn:Htext.
  - pose proof (translate_result lower World post self text from_lang
                  to_lang w Htext) as H.
    cbv zeta in H.
    destruct (fst (post (api_url self) (model_name self)
                     (get_prompt self text from_lang to_lang false) w))
      as [response|]; [|right; exact H].
    destruct (truthy (strip (clean_translation lower self (strip response)
                               from_lang to_lang)));
      [|right; exact H].
    left. rewrite H.
    apply (clean_translation_lower lower lower_lowercased).
  - left. unfold translate. rewrite Htext.
    destruct (truthy text); cbn [negb orb ret fst];
      apply blank_lowercased; exact Htext.
Qed.

Lemma clean_all_lowercased (self : Translator) (texts : list (list N))
    (from_lang to_lang : string) (translations : list (list N)) :
  forall i cleaned,
    List.Forall (lowercased_or_placeholder texts) cleaned ->
    List.Forall (lowercased_or_placeholder texts)
      (clean_all lower self texts from_lang to_lang i translations cleaned).
Proof.
  induction translations as [|trans rest IH]; intros i cleaned H;
    [exact H|].
  cbn [clean_all]. apply IH.
  destruct (truthy (strip (clean_translation lower self trans from_lang
                             to_lang))).
  - apply List.Forall_app. split; [exact H|].
    constructor; [|constructor]. left.
    apply (clean_translation_lower lower lower_lowercased).
  - destruct (nth_error texts i) as [t|] eqn:E; [|exact H].
    apply List.Forall_app. split; [exact H|].
    constructor; [|constructor]. right. exists t.
    split; [exact (nth_error_In _ _ E)|reflexivity].
Qed.

Lemma backfill_lowercased (self : Translator) (from_lang to_lang : string)
    (texts missing : list (list N)) :
  (forall t, In t missing -> In t texts) ->
  forall cleaned w,
    List.Forall (lowercased_or_placeholder texts) cleaned ->
    List.Forall (lowercased_or_placeholder texts)
      (fst (backfill lower World post self from_lang to_lang missing
                     cleaned w)).
Proof.
  induction missing as [|t rest IH]; intros Hm cleaned w Hc; [exact Hc|].
  cbn [backfill]. unfold bind.
  pose proof (translate_lowercased self t from_lang to_lang w) as H1.
  destruct (translate lower World post self t from_lang to_lang w)
    as [r w1].
  cbn [fst] in H1.
  apply IH; [intros x Hx; apply Hm; right; exact Hx|].
  apply List.Forall_app. split; [exact Hc|].
  constructor; [|constructor].
  destruct H1 as [H1|H1]; [left; exact H1|].
  right. exists t. split; [apply Hm; left; reflexivity|exact H1].
Qed.

Lemma translate_all_lowercased (self : Translator)
    (from_lang to_lang : string) (texts missing : list (list N)) :
  (forall t, In t missing -> In t texts) ->
  forall w,
    List.Forall (lowercased_or_placeholder texts)
      (fst (mapM (fun text =>
                    translate lower World post self text from_lang to_lang)
                 missing w)).
Proof.
  induction missing as [|t rest IH]; intros Hm w; [constructor|].
  cbn [mapM]. unfold bind.
  pose proof (translate_lowercased self t from_lang to_lang w) as H1.
  destruct (translate lower World post self t from_lang to_lang w)
    as [r w1].
  cbn [fst] in H1.
  specialize (IH (fun x Hx => Hm x (or_intror Hx)) w1).
  destruct (mapM _ rest w1) as [rs w2]. cbn [fst ret] in *.
  constructor; [|exact IH].
  destruct H1 as [H1|H1]; [left; exact H1|].
  right. exists t. split; [apply Hm; left; reflexivity|exact H1].
Qed.


End Returned.



(** ** Identity of elements *)

Lemma iter_eq (e : elem) : iter e = e :: flat_map iter (kids e).
Proof. unfold iter. rewrite descendants_eq. reflexivity. Qed.

Lemma ids_eq (e : elem) : ids e = eid e :: flat_map ids (kids e).
Proof.
  unfold ids at 1. rewrite iter_eq. cbn [List.map]. f_equal.
  induction (kids e) as [|k ks IH]; [reflexivity|].
  cbn [flat_map]. rewrite List.map_app, IH. reflexivity.
Qed.

Lemma In_iter_self (e : elem) : In e (iter e).
Proof. left. reflexivity. Qed.

Lemma In_iter_trans (a b c : elem) :
  In a (iter b) -> In b (iter c) -> In a (iter c).
Proof.
  unfold iter. intros [Eab|Hab] [Ebc|Hbc].
  - left. congruence.
  - right. subst a. exact Hbc.
  - right. subst c. exact Hab.
  - right. exact (In_descendants_trans _ _ _ Hab Hbc).
Qed.

Lemma In_iter_kid (y k e : elem) :
  In k (kids e) -> In y (iter k) -> In y (iter e).
Proof.
  intros Hk Hy. apply (In_iter_trans y k e Hy).
  right. apply In_kids_descendants. exact Hk.
Qed.

Lemma In_iter_inv (y e : elem) :
  In y (iter e) -> y = e \/ exists k, In k (kids e) /\ In y (iter k).
Proof.
  rewrite iter_eq. intros [<-|H]; [left; reflexivity|].
  right. apply in_flat_map in H. exact H.
Qed.

Lemma In_ids (y e : elem) : In y (iter e) -> In (eid y) (ids e).
Proof. intros H. unfold ids. apply in_map. exact H. Qed.

Lemma In_ids_inv (j : nat) (e : elem) :
  In j (ids e) -> exists y, In y (iter e) /\ eid y = j.
Proof.
  unfold ids. intros H. apply in_map_iff in H.
  destruct H as [y [H1 H2]]. exists y. auto.
Qed.

Lemma ids_sub (y e : elem) (j : nat) :
  In y (iter e) -> In j (ids y) -> In j (ids e).
Proof.
  intros Hy Hj. apply In_ids_inv in Hj. destruct Hj as [z [Hz <-]].
  apply In_ids. exact (In_iter_trans _ _ _ Hz Hy).
Qed.

Lemma NoDup_map_unique {A B} (f : A -> B) (l : list A) (y z : A) :
  List.NoDup (List.map f l) -> In y l -> In z l -> f y = f z -> y = z.
Proof.
  induction l as [|a l IH]; intros Hnd Hy Hz Hf; [destruct Hy|].
  cbn in Hnd. apply List.NoDup_cons_iff in Hnd. destruct Hnd as [Hna Hnd].
  destruct Hy as [->|Hy], Hz as [->|Hz].
  - reflexivity.
  - exfalso. apply Hna. rewrite Hf. apply in_map. exact Hz.
  - exfalso. apply Hna. rewrite <- Hf. apply in_map. exact Hy.
  - exact (IH Hnd Hy Hz Hf).
Qed.

Lemma unique_by_id (root y z : elem) :
  List.NoDup (ids root) -> In y (iter root) -> In z (iter root) ->
  eid y = eid z -> y = z.
Proof. apply NoDup_map_unique. Qed.

Lemma NoDup_flat_map_In {A B} (f : A -> list B) (l : list A) (k : A) :
  List.NoDup (flat_map f l) -> In k l -> List.NoDup (f k).
Proof.
  induction l as [|a l IH]; intros Hnd Hk; [destruct Hk|].
  cbn in Hnd. apply List.NoDup_app_remove_l in Hnd as Hr.
  apply List.NoDup_app_remove_r in Hnd as Hl.
  destruct Hk as [->|Hk]; [exact Hl|exact (IH Hr Hk)].
Qed.

Lemma NoDup_kid (e k : elem) :
  List.NoDup (ids e) -> In k (kids e) -> List.NoDup (ids k).
Proof.
  rewrite ids_eq. intros Hnd Hk.
  apply List.NoDup_cons_iff in Hnd. destruct Hnd as [_ Hnd].
  exact (NoDup_flat_map_In ids _ _ Hnd Hk).
Qed.

Lemma NoDup_sub (root : elem) :
  forall y, List.NoDup (ids root) -> In y (iter root) -> List.NoDup (ids y).
Proof.
  revert root. refine (elem_rect_kids _ _). intros i t a x ks IH y Hnd Hy.
  apply In_iter_inv in Hy. destruct Hy as [->|[k [Hk Hy]]]; [exact Hnd|].
  rewrite List.Forall_forall in IH.
  exact (IH k Hk y (NoDup_kid _ k Hnd Hk) Hy).
Qed.

Lemma get_In (i : nat) (root y : elem) :
  get i root = Some y -> In y (iter root) /\ eid y = i.
Proof.
  unfold get. intros H. apply find_some in H. destruct H as [H1 H2].
  split; [exact H1|]. apply Nat.eqb_eq. exact H2.
Qed.

Lemma get_of_In (root y : elem) :
  List.NoDup (ids root) -> In y (iter root) -> get (eid y) root = Some y.
Proof.
  intros Hnd Hy. destruct (get (eid y) root) as [z|] eqn:E.
  - apply get_In in E. destruct E as [Hz Hid].
    f_equal. exact (unique_by_id root z y Hnd Hz Hy Hid).
  - unfold get in E.
    pose proof (find_none _ _ E y Hy) as H. cbn in H.
    rewrite Nat.eqb_refl in H. discriminate.
Qed.

Lemma not_own_descendant (e : elem) :
  List.NoDup (ids e) -> ~ In e (descendants e).
Proof.
  unfold ids, iter. cbn [List.map]. intros Hnd H.
  apply List.NoDup_cons_iff in Hnd. destruct Hnd as [Hn _].
  apply Hn. apply in_map. exact H.
Qed.

(** ** Replacing an element of a document *)

Lemma replace_node_eq (i : nat) (new e : elem) :
  replace_node i new e
  = if (eid e =? i)%nat then new
    else Elem (eid e) (tag e) (attrib e) (text e)
              (List.map (replace_node i new) (kids e)).
Proof. destruct e. reflexivity. Qed.

Lemma tag_replace (i : nat) (new e : elem) :
  (eid e = i -> tag new = tag e) -> tag (replace_node i new e) = tag e.
Proof.
  rewrite replace_node_eq. destruct (Nat.eqb_spec (eid e) i); auto.
Qed.

Lemma map_id_on {A} (f : A -> A) (l : list A) :
  (forall x, In x l -> f x = x) -> List.map f l = l.
Proof.
  induction l as [|a l IH]; intros H; [reflexivity|].
  cbn. rewrite (H a (or_introl eq_refl)), IH; [reflexivity|].
  intros x Hx. apply H. right. exact Hx.
Qed.

Lemma replace_absent (i : nat) (new : elem) :
  forall t, ~ In i (ids t) -> replace_node i new t = t.
Proof.
  refine (elem_rect_kids _ _). intros j tg a x ks IH Hni.
  rewrite replace_node_eq. cbn [eid tag attrib text kids].
  rewrite ids_eq in Hni. cbn [eid kids] in Hni.
  destruct (Nat.eqb_spec j i) as [->|Hji]; [exfalso; apply Hni; left; reflexivity|].
  f_equal. apply map_id_on. intros k Hk.
  rewrite List.Forall_forall in IH. apply (IH k Hk).
  intros Hik. apply Hni. right. apply in_flat_map. exists k. auto.
Qed.

Lemma iter_replace (i : nat) (new : elem) :
  forall t y',
    In y' (iter (replace_node i new t)) ->
    In y' (iter new)
    \/ exists y, In y (iter t) /\ eid y <> i
                 /\ y' = Elem (eid y) (tag y) (attrib y) (text y)
                              (List.map (replace_node i new) (kids y)).
Proof.
  refine (elem_rect_kids _ _). intros j tg a x ks IH y' H.
  rewrite replace_node_eq in H. cbn [eid tag attrib text kids] in H.
  destruct (Nat.eqb_spec j i) as [->|Hji]; [left; exact H|].
  apply In_iter_inv in H. cbn [kids] in H.
  destruct H as [->|[k' [Hk' Hy']]].
  - right. exists (Elem j tg a x ks). split; [apply In_iter_self|].
    split; [exact Hji|reflexivity].
  - apply in_map_iff in Hk'. destruct Hk' as [k [<- Hk]].
    rewrite List.Forall_forall in IH.
    destruct (IH k Hk y' Hy') as [Hn|[y [Hy [Hne ->]]]]; [left; exact Hn|].
    right. exists y. split; [|auto].
    exact (In_iter_kid y k (Elem j tg a x ks) Hk Hy).
Qed.

Lemma ids_replace (i : nat) (new t : elem) (j : nat) :
  In j (ids (replace_node i new t)) -> In j (ids new) \/ In j (ids t).
Proof.
  intros H. apply In_ids_inv in H. destruct H as [y' [Hy' <-]].
  apply iter_replace in Hy'. destruct Hy' as [H|[y [Hy [_ ->]]]].
  - left. apply In_ids. exact H.
  - right. cbn [eid]. apply In_ids. exact Hy.
Qed.

Section ReplaceWellFormed.

Variables (e e' : elem) (i n n' : nat).
Hypothesis e'_nodup : List.NoDup (ids e').
Hypothesis e'_ids : forall j, In j (ids e') -> In j (ids e) \/ (n <= j < n')%nat.
Hypothesis e_id : eid e = i.

(** The statement proved by induction on the document. *)
Definition replace_ok (t : elem) : Prop :=
  List.NoDup (ids t) -> (forall j, In j (ids t) -> (j < n)%nat) ->
  (forall y, In y (iter t) -> eid y = i -> y = e) ->
  List.NoDup (ids (replace_node i e' t))
  /\ forall j, In j (ids (replace_node i e' t)) ->
               In j (ids t) \/ (n <= j < n')%nat.

Lemma replace_ok_kids (ks : list elem) :
  List.Forall replace_ok ks ->
  List.NoDup (flat_map ids ks) ->
  (forall j, In j (flat_map ids ks) -> (j < n)%nat) ->
  (forall k y, In k ks -> In y (iter k) -> eid y = i -> y = e) ->
  List.NoDup (flat_map ids (List.map (replace_node i e') ks))
  /\ forall j, In j (flat_map ids (List.map (replace_node i e') ks)) ->
               In j (flat_map ids ks) \/ (n <= j < n')%nat.
Proof.
  induction ks as [|k ks IH]; intros Hok Hnd Hlt Hun.
  - cbn. split; [constructor|intros j []].
  - apply List.Forall_cons_iff in Hok. destruct Hok as [Hk Hks].
    cbn [flat_map List.map] in *.
    pose proof (List.NoDup_app_remove_l _ _ Hnd) as Hnd2.
    pose proof (List.NoDup_app_remove_r _ _ Hnd) as Hnd1.
    destruct (Hk Hnd1) as [K1 K2].
    { intros j Hj. apply Hlt, in_or_app. left. exact Hj. }
    { intros y. apply Hun. left. reflexivity. }
    destruct (IH Hks Hnd2) as [I1 I2].
    { intros j Hj. apply Hlt, in_or_app. right. exact Hj. }
    { intros k' y Hk'. apply Hun. right. exact Hk'. }
    assert (forall a, In a (ids k) -> ~ In a (flat_map ids ks)) as Hdisj.
    { intros a Ha Hb. revert Hnd Ha Hb. clear.
      induction (ids k) as [|c l IHl]; intros Hnd Ha Hb; [destruct Ha|].
      cbn in Hnd. apply List.NoDup_cons_iff in Hnd. destruct Hnd as [Hc Hnd].
      destruct Ha as [->|Ha]; [|exact (IHl Hnd Ha Hb)].
      apply Hc, in_or_app. right. exact Hb. }
    split.
    + apply List.NoDup_app; [exact K1|exact I1|].
      intros j Hj1 Hj2.
      destruct (in_dec Nat.eq_dec i (ids k)) as [Hik|Hik].
      * assert (List.map (replace_node i e') ks = ks) as Hsame.
        { apply map_id_on. intros k2 Hk2. apply replace_absent.
          intros Hi2. apply (Hdisj i Hik).
          apply in_flat_map. exists k2. auto. }
        rewrite Hsame in Hj2.
        destruct (K2 j Hj1) as [Hold|Hnew].
        -- exact (Hdisj j Hold Hj2).
        -- assert (j < n)%nat by (apply Hlt, in_or_app; right; exact Hj2). lia.
      * rewrite (replace_absent i e' k Hik) in Hj1.
        destruct (I2 j Hj2) as [Hold|Hnew].
        -- exact (Hdisj j Hj1 Hold).
        -- assert (j < n)%nat by (apply Hlt, in_or_app; left; exact Hj1). lia.
    + intros j Hj. apply in_app_or in Hj. destruct Hj as [Hj|Hj].
      * destruct (K2 j Hj) as [H|H]; [left; apply in_or_app; auto|auto].
      * destruct (I2 j Hj) as [H|H]; [left; apply in_or_app; auto|auto].
Qed.

Lemma replace_ok_all : forall t, replace_ok t.
Proof.
  refine (elem_rect_kids _ _). intros j tg a x ks IH Hnd Hlt Hun.
  rewrite replace_node_eq. cbn [eid tag attrib text kids].
  destruct (Nat.eqb_spec j i) as [Hji|Hji].
  - rewrite <- (Hun _ (In_iter_self _) Hji) in e'_ids.
    split; [exact e'_nodup|exact e'_ids].
  - rewrite ids_eq in Hnd, Hlt. cbn [eid kids] in Hnd, Hlt.
    apply List.NoDup_cons_iff in Hnd. destruct Hnd as [Hj Hnd].
    destruct (replace_ok_kids ks IH Hnd) as [K1 K2].
    { intros j' Hj'. apply Hlt. right. exact Hj'. }
    { intros k y Hk Hy. apply Hun.
      exact (In_iter_kid y k (Elem j tg a x ks) Hk Hy). }
    rewrite !ids_eq. cbn [eid kids]. split.
    + constructor; [|exact K1].
      intros Hin. destruct (K2 j Hin) as [H|H]; [exact (Hj H)|].
      assert (j < n)%nat by (apply Hlt; left; reflexivity). lia.
    + intros j' [<-|Hj']; [left; left; reflexivity|].
      destruct (K2 j' Hj') as [H|H]; [left; right; exact H|right; exact H].
Qed.

End ReplaceWellFormed.

Lemma replace_well_formed (root e e' : elem) (n n' : nat) :
  well_formed root n -> In e (iter root) -> eid e' = eid e ->
  List.NoDup (ids e') ->
  (forall j, In j (ids e') -> In j (ids e) \/ (n <= j < n')%nat) ->
  (n <= n')%nat ->
  well_formed (replace_node (eid e) e' root) n'.
Proof.
  intros [Hnd Hlt] He Hid Hnd' Hids Hn.
  destruct (replace_ok_all e e' (eid e) n n' Hnd' Hids eq_refl root Hnd Hlt)
    as [H1 H2].
  { intros y Hy Hyi. exact (unique_by_id root y e Hnd Hy He Hyi). }
  split; [exact H1|].
  intros j Hj. destruct (H2 j Hj) as [H|H]; [|lia].
  specialize (Hlt j H). lia.
Qed.

(** ** Groups and their transforms under a replacement *)

Lemma attrs_rel_refl (a : gmap string (list N)) : attrs_rel a a.
Proof. intros k. auto. Qed.

Lemma attrs_rel_trans (a b c : gmap string (list N)) :
  attrs_rel a b -> attrs_rel b c -> attrs_rel a c.
Proof.
  intros H1 H2 k. destruct (H1 k) as [A1 A2], (H2 k) as [B1 B2].
  split.
  - intros Hx Hy. rewrite (B1 Hx Hy). exact (A1 Hx Hy).
  - destruct B2 as [B2|B2]; [left; exact B2|].
    rewrite B2. exact A2.
Qed.

Lemma xfrm_rel_refl (o : option elem) : xfrm_rel o o.
Proof. destruct o; cbn; auto using attrs_rel_refl. Qed.

Lemma xfrm_rel_trans (o1 o2 o3 : option elem) :
  xfrm_rel o1 o2 -> xfrm_rel o2 o3 -> xfrm_rel o1 o3.
Proof.
  destruct o1, o2, o3; cbn; try tauto.
  intros [E1 R1] [E2 R2]. split; [congruence|].
  exact (attrs_rel_trans _ _ _ R1 R2).
Qed.

Lemma groups_kept_refl (root : elem) : groups_kept root root.
Proof.
  intros g Hg Hgrp. exists g. auto using xfrm_rel_refl.
Qed.

Lemma groups_kept_trans (r1 r2 r3 : elem) :
  groups_kept r1 r2 -> groups_kept r2 r3 -> groups_kept r1 r3.
Proof.
  intros H12 H23 g3 Hg3 Hgrp3.
  destruct (H23 g3 Hg3 Hgrp3) as [g2 [Hg2 [E2 [Hgrp2 R2]]]].
  destruct (H12 g2 Hg2 Hgrp2) as [g1 [Hg1 [E1 [Hgrp1 R1]]]].
  exists g1. split; [exact Hg1|]. split; [congruence|].
  split; [exact Hgrp1|]. exact (xfrm_rel_trans _ _ _ R1 R2).
Qed.

Lemma group_done_kept (i : nat) (root root' : elem) :
  groups_kept root root' -> group_done i root -> group_done i root'.
Proof.
  intros Hk Hd g' x' Hg' Hid Hgrp Hx'.
  destruct (Hk g' Hg' Hgrp) as [g [Hg [E [Hgrp0 R]]]].
  rewrite Hx' in R. destruct (group_xfrm g) as [x|] eqn:Hx; [|destruct R].
  destruct R as [_ R].
  destruct (Hd g x Hg ltac:(congruence) Hgrp0 Hx) as [Hcx Hcy].
  destruct (R "cx") as [_ [C|C]], (R "cy") as [_ [D|D]];
    split; congruence.
Qed.

Lemma head_filter_map {A} (f : A -> A) (p : A -> bool) (l : list A) :
  (forall x, In x l -> p (f x) = p x) ->
  head (List.filter p (List.map f l))
  = option_map f (head (List.filter p l)).
Proof.
  induction l as [|a l IH]; intros H; [reflexivity|].
  cbn [List.map List.filter]. rewrite (H a (or_introl eq_refl)).
  destruct (p a); [reflexivity|].
  apply IH. intros x Hx. apply H. right. exact Hx.
Qed.

Section ReplaceGroups.

Variables (e e' : elem) (i : nat).
Hypothesis e_id : eid e = i.
Hypothesis e'_id : eid e' = i.
Hypothesis e'_tag : tag e' = tag e.
Hypothesis not_group_props : tag e <> "p:grpSpPr".
Hypothesis not_group : tag e <> "p:grpSp".
Hypothesis xfrm_attrs :
  tag e = "a:xfrm" -> attrs_rel (attrib e) (attrib e').
Hypothesis groups_inside :
  forall g', In g' (descendants e') -> is_group g' = true ->
             In g' (descendants e).

Lemma find_child_replace (t : string) (y : elem) :
  (forall k, In k (kids y) -> eid k = i -> k = e) ->
  find_child t (Elem (eid y) (tag y) (attrib y) (text y)
                     (List.map (replace_node i e') (kids y)))
  = option_map (replace_node i e') (find_child t y).
Proof.
  intros Hun. unfold find_child, findall_child. cbn [kids].
  apply head_filter_map. intros k Hk. unfold has_tag.
  rewrite tag_replace; [reflexivity|].
  intros Hki. rewrite (Hun k Hk Hki). exact e'_tag.
Qed.

(** One level: the transform of an element above the replaced one. *)
Lemma group_xfrm_replace (y : elem) :
  (forall z, In z (iter y) -> eid z = i -> z = e) ->
  xfrm_rel (group_xfrm y)
           (group_xfrm (Elem (eid y) (tag y) (attrib y) (text y)
                             (List.map (replace_node i e') (kids y)))).
Proof.
  intros Hun. unfold group_xfrm.
  rewrite find_child_replace
    by (intros k Hk; apply Hun; exact (In_iter_kid k k y Hk (In_iter_self k))).
  destruct (find_child "p:grpSpPr" y) as [c|] eqn:Ec; [|exact I].
  apply find_child_In in Ec. destruct Ec as [Hc Htc].
  cbn [option_map]. rewrite replace_node_eq.
  destruct (Nat.eqb_spec (eid c) i) as [Hci|Hci].
  { exfalso. apply not_group_props.
    rewrite <- (Hun c (In_iter_kid c c y Hc (In_iter_self c)) Hci).
    exact Htc. }
  rewrite find_child_replace.
  2:{ intros k Hk. apply Hun.
      apply (In_iter_kid k c y Hc). right. apply In_kids_descendants.
      exact Hk. }
  destruct (find_child "a:xfrm" c) as [x|] eqn:Ex; [|exact I].
  apply find_child_In in Ex. destruct Ex as [Hx Htx].
  cbn [option_map xfrm_rel]. rewrite replace_node_eq.
  destruct (Nat.eqb_spec (eid x) i) as [Hxi|Hxi].
  - assert (x = e) as ->.
    { apply Hun; [|exact Hxi]. apply (In_iter_kid x c y Hc).
      right. apply In_kids_descendants. exact Hx. }
    split; [congruence|]. exact (xfrm_attrs Htx).
  - cbn [eid attrib]. split; [reflexivity|apply attrs_rel_refl].
Qed.

Lemma replace_groups_kept :
  forall t, (forall y, In y (iter t) -> eid y = i -> y = e) ->
            groups_kept t (replace_node i e' t).
Proof.
  refine (elem_rect_kids _ _). intros j tg a x ks IH Hun g' Hg' Hgrp.
  rewrite replace_node_eq in Hg'. cbn [eid tag attrib text kids] in Hg'.
  destruct (Nat.eqb_spec j i) as [Hji|Hji].
  - rewrite <- (Hun _ (In_iter_self _) Hji) in *.
    destruct Hg' as [<-|Hg'].
    + exfalso. apply not_group. unfold is_group, has_tag in Hgrp.
      apply String.eqb_eq in Hgrp. congruence.
    + exists g'. split; [right; exact (groups_inside g' Hg' Hgrp)|].
      auto using xfrm_rel_refl.
  - apply In_iter_inv in Hg'. cbn [kids] in Hg'.
    destruct Hg' as [->|[k' [Hk' Hg']]].
    + exists (Elem j tg a x ks). split; [apply In_iter_self|].
      split; [reflexivity|]. split; [exact Hgrp|].
      exact (group_xfrm_replace (Elem j tg a x ks) Hun).
    + apply in_map_iff in Hk'. destruct Hk' as [k [<- Hk]].
      rewrite List.Forall_forall in IH.
      destruct (IH k Hk) with (g' := g') as [g [Hg H]];
        [|exact Hg'|exact Hgrp|].
      * intros y Hy. apply Hun.
        exact (In_iter_kid y k (Elem j tg a x ks) Hk Hy).
      * exists g. split; [|exact H].
        exact (In_iter_kid g k (Elem j tg a x ks) Hk Hg).
Qed.

End ReplaceGroups.

(** ** The nesting depth of the groups *)

Lemma gdepth_eq (e : elem) :
  gdepth e = list_max (List.map group_weight (kids e)).
Proof.
  destruct e as [i t a x ks]. cbn [kids gdepth].
  induction ks as [|k ks IH]; [reflexivity|].
  change (list_max (List.map group_weight (k :: ks)))
    with (Nat.max (group_weight k) (list_max (List.map group_weight ks))).
  rewrite <- IH. reflexivity.
Qed.

Lemma list_max_In (l : list nat) (a : nat) :
  In a l -> (a <= list_max l)%nat.
Proof.
  unfold list_max.
  induction l as [|b l IH]; intros H; [destruct H|].
  cbn [fold_right]. destruct H as [->|H]; [lia|]. specialize (IH H). lia.
Qed.

Lemma list_max_bound (l : list nat) (m : nat) :
  (forall a, In a l -> (a <= m)%nat) -> (list_max l <= m)%nat.
Proof.
  unfold list_max.
  induction l as [|b l IH]; intros H; [cbn; lia|].
  cbn [fold_right]. specialize (H b (or_introl eq_refl)) as Hb.
  assert (fold_right Nat.max O l <= m)%nat
    by (apply IH; intros a Ha; apply H; right; exact Ha).
  lia.
Qed.

Lemma sublist_In {A} (l1 l2 : list A) (x : A) :
  sublist l1 l2 -> In x l1 -> In x l2.
Proof.
  induction 1 as [|a l1 l2 _ IH|a l1 l2 _ IH]; intros H; [exact H| |].
  - destruct H as [->|H]; [left; reflexivity|right; exact (IH H)].
  - right. exact (IH H).
Qed.

Lemma gdepth_kid (k e : elem) :
  In k (kids e) -> (group_weight k <= gdepth e)%nat.
Proof.
  intros H. rewrite gdepth_eq. apply list_max_In, in_map. exact H.
Qed.

Lemma gdepth_descendant (g : elem) :
  forall e, In g (descendants e) -> is_group g = true ->
            (S (gdepth g) <= gdepth e)%nat.
Proof.
  refine (elem_rect_kids _ _). intros i t a x ks IH Hg Hgrp.
  apply In_descendants in Hg. destruct Hg as [k [Hk Hg]].
  pose proof (gdepth_kid k (Elem i t a x ks) Hk) as Hw.
  unfold group_weight in Hw.
  destruct Hg as [->|Hg].
  - rewrite Hgrp in Hw. lia.
  - rewrite List.Forall_forall in IH. specialize (IH k Hk Hg Hgrp). lia.
Qed.

Section ReplaceDepth.

Variables (e e' : elem) (i : nat).
Hypothesis e'_tag : tag e' = tag e.
Hypothesis e'_depth : (gdepth e' <= gdepth e)%nat.

Lemma gdepth_replace_le :
  forall t, (forall y, In y (iter t) -> eid y = i -> y = e) ->
            (gdepth (replace_node i e' t) <= gdepth t)%nat.
Proof.
  refine (elem_rect_kids _ _). intros j tg a x ks IH Hun.
  rewrite replace_node_eq. cbn [eid tag attrib text kids].
  destruct (Nat.eqb_spec j i) as [Hji|Hji].
  - rewrite (Hun _ (In_iter_self _) Hji). exact e'_depth.
  - rewrite !gdepth_eq. cbn [kids]. apply list_max_bound.
    intros w Hw. apply in_map_iff in Hw. destruct Hw as [k' [<- Hk']].
    apply in_map_iff in Hk'. destruct Hk' as [k [<- Hk]].
    rewrite List.Forall_forall in IH.
    assert (forall y, In y (iter k) -> eid y = i -> y = e) as Hunk.
    { intros y Hy. apply Hun.
      exact (In_iter_kid y k (Elem j tg a x ks) Hk Hy). }
    specialize (IH k Hk Hunk).
    transitivity (group_weight k);
      [|apply list_max_In, in_map; exact Hk].
    unfold group_weight, is_group, has_tag.
    rewrite tag_replace; [lia|].
    intros Hki. rewrite (Hunk k (In_iter_self k) Hki). exact e'_tag.
Qed.

Hypothesis depth_inside :
  forall y', In y' (descendants e') ->
             gdepth y' = O \/ In y' (descendants e).

Lemma replace_depth_kept (t : elem) :
  (forall y, In y (iter t) -> eid y = i -> y = e) -> eid e' = i ->
  depth_kept t (replace_node i e' t).
Proof.
  intros Hun Hid y' Hy'.
  destruct (in_dec Nat.eq_dec i (ids t)) as [Hin|Hnin].
  2:{ rewrite (replace_absent i e' t Hnin) in Hy'.
      right. exists y'. auto. }
  apply In_ids_inv in Hin. destruct Hin as [z [Hz Hzi]].
  pose proof (Hun z Hz Hzi) as ->.
  apply iter_replace in Hy'. destruct Hy' as [Hy'|[y [Hy [Hne ->]]]].
  - destruct Hy' as [<-|Hy'].
    + right. exists e. split; [exact Hz|]. split; [congruence|exact e'_depth].
    + destruct (depth_inside y' Hy') as [H0|Hd]; [left; exact H0|].
      right. exists y'. split; [|auto].
      apply (In_iter_trans y' e t); [right; exact Hd|exact Hz].
  - right. exists y. split; [exact Hy|]. split; [reflexivity|].
    assert (forall z, In z (iter y) -> eid z = i -> z = e) as Huny.
    { intros z' Hz'. apply Hun. exact (In_iter_trans z' y t Hz' Hy). }
    pose proof (gdepth_replace_le y Huny) as Hle.
    rewrite replace_node_eq in Hle.
    destruct (Nat.eqb_spec (eid y) i); [contradiction|exact Hle].
Qed.

End ReplaceDepth.

Lemma depth_kept_refl (root : elem) : depth_kept root root.
Proof. intros y Hy. right. exists y. auto. Qed.

Lemma depth_kept_trans (a b c : elem) :
  depth_kept a b -> depth_kept b c -> depth_kept a c.
Proof.
  intros Hab Hbc y'' Hy''.
  destruct (Hbc y'' Hy'') as [H0|[y' [Hy' [E1 L1]]]]; [left; exact H0|].
  destruct (Hab y' Hy') as [H0|[y [Hy [E2 L2]]]]; [left; lia|].
  right. exists y. split; [exact Hy|]. split; [congruence|lia].
Qed.

(** ** Groups that stay *)

Section ReplaceStay.

Variables (e e' : elem) (i : nat).
Hypothesis e'_id : eid e' = i.
Hypothesis e'_tag : tag e' = tag e.
Hypothesis stay_inside :
  forall g, In g (descendants e) -> is_group g = true ->
            In g (descendants e').

Lemma replace_groups_stay :
  forall t, (forall y, In y (iter t) -> eid y = i -> y = e) ->
            groups_stay t (replace_node i e' t).
Proof.
  refine (elem_rect_kids _ _). intros j tg a x ks IH Hun g Hg Hgrp.
  rewrite replace_node_eq. cbn [eid tag attrib text kids].
  destruct (Nat.eqb_spec j i) as [Hji|Hji].
  - pose proof (Hun _ (In_iter_self _) Hji) as He. rewrite He in Hg.
    destruct Hg as [<-|Hg].
    + exists e'. split; [apply In_iter_self|].
      split; [rewrite e'_id, <- He; cbn; congruence|].
      unfold is_group, has_tag in *. rewrite e'_tag. exact Hgrp.
    + exists g. split; [right; exact (stay_inside g Hg Hgrp)|auto].
  - apply In_iter_inv in Hg. destruct Hg as [->|[k [Hk Hg]]].
    + eexists. split; [apply In_iter_self|]. split; [reflexivity|exact Hgrp].
    + cbn [kids] in Hk. rewrite List.Forall_forall in IH.
      destruct (IH k Hk) with (g := g) as [g' [Hg' H]];
        [|exact Hg|exact Hgrp|].
      * intros y Hy. apply Hun.
        exact (In_iter_kid y k (Elem j tg a x ks) Hk Hy).
      * exists g'. split; [|exact H].
        apply (In_iter_kid g' (replace_node i e' k)); [|exact Hg'].
        cbn [kids]. apply in_map. exact Hk.
Qed.

Lemma replace_markers_leaves (t : elem) :
  (forall y, In y (iter t) -> eid y = i -> y = e) ->
  markers_leaves t -> markers_leaves e' ->
  markers_leaves (replace_node i e' t).
Proof.
  intros Hun Ht He' m Hm Hmark.
  apply iter_replace in Hm. destruct Hm as [Hm|[y [Hy [Hne ->]]]].
  - exact (He' m Hm Hmark).
  - cbn [kids]. rewrite (Ht y Hy Hmark). reflexivity.
Qed.

End ReplaceStay.

Lemma groups_stay_refl (root : elem) : groups_stay root root.
Proof. intros g Hg Hgrp. exists g. auto. Qed.

Lemma groups_stay_trans (a b c : elem) :
  groups_stay a b -> groups_stay b c -> groups_stay a c.
Proof.
  intros Hab Hbc g Hg Hgrp.
  destruct (Hab g Hg Hgrp) as [g1 [Hg1 [E1 G1]]].
  destruct (Hbc g1 Hg1 G1) as [g2 [Hg2 [E2 G2]]].
  exists g2. split; [exact Hg2|]. split; [congruence|exact G2].
Qed.

Lemma tree_kept_refl (root : elem) : tree_kept root root.
Proof.
  split; [apply groups_kept_refl|]. split; [reflexivity|].
  split; [apply depth_kept_refl|].
  intros H. split; [exact H|apply groups_stay_refl].
Qed.

Lemma tree_kept_trans (a b c : elem) :
  tree_kept a b -> tree_kept b c -> tree_kept a c.
Proof.
  intros [A1 [A2 [A3 A4]]] [B1 [B2 [B3 B4]]].
  split; [exact (groups_kept_trans _ _ _ A1 B1)|].
  split; [congruence|].
  split; [exact (depth_kept_trans _ _ _ A3 B3)|].
  intros H. destruct (A4 H) as [Hb Hs1]. destruct (B4 Hb) as [Hc Hs2].
  split; [exact Hc|exact (groups_stay_trans _ _ _ Hs1 Hs2)].
Qed.

Lemma eid_replace (i : nat) (new t : elem) :
  eid new = i -> eid (replace_node i new t) = eid t.
Proof.
  intros H. rewrite replace_node_eq.
  destruct (Nat.eqb_spec (eid t) i); [congruence|reflexivity].
Qed.

(** The effect of one mutation on the invariants of a document. *)
Lemma replace_step (root e e' : elem) (n n' : nat) :
  well_formed root n -> In e (iter root) ->
  eid e' = eid e -> tag e' = tag e ->
  tag e <> "p:grpSpPr" -> tag e <> "p:grpSp" ->
  (tag e = "a:xfrm" -> attrs_rel (attrib e) (attrib e')) ->
  (forall g', In g' (descendants e') -> is_group g' = true ->
              In g' (descendants e)) ->
  List.NoDup (ids e') ->
  (forall j, In j (ids e') -> In j (ids e) \/ (n <= j < n')%nat) ->
  (n <= n')%nat ->
  (gdepth e' <= gdepth e)%nat ->
  (forall y', In y' (descendants e') ->
              gdepth y' = O \/ In y' (descendants e)) ->
  (markers_leaves root ->
   markers_leaves e'
   /\ forall g, In g (descendants e) -> is_group g = true ->
                In g (descendants e')) ->
  well_formed (replace_node (eid e) e' root) n'
  /\ tree_kept root (replace_node (eid e) e' root).
Proof.
  intros Hwf He Hid Htag Hp Hg Hx Hin Hnd Hids Hn Hdep Hdin Hfwd.
  assert (forall y, In y (iter root) -> eid y = eid e -> y = e) as Hun.
  { intros y Hy Hyi. destruct Hwf as [Hnodup _].
    exact (unique_by_id root y e Hnodup Hy He Hyi). }
  split; [exact (replace_well_formed root e e' n n' Hwf He Hid Hnd Hids Hn)|].
  split.
  { exact (replace_groups_kept e e' (eid e) eq_refl Hid Htag Hp Hg Hx Hin
             root Hun). }
  split; [apply eid_replace; exact Hid|].
  split.
  { exact (replace_depth_kept e e' (eid e) Htag Hdep Hdin root Hun Hid). }
  intros Hml. destruct (Hfwd Hml) as [Hml' Hstay]. split.
  - exact (replace_markers_leaves e e' (eid e) root Hun Hml Hml').
  - exact (replace_groups_stay e e' (eid e) Hid Htag Hstay root Hun).
Qed.

Lemma ids_same_kids (e e' : elem) :
  eid e' = eid e -> kids e' = kids e -> ids e' = ids e.
Proof. intros H1 H2. rewrite !ids_eq, H1, H2. reflexivity. Qed.

Lemma descendants_same_kids (e e' : elem) :
  kids e' = kids e -> descendants e' = descendants e.
Proof. intros H. rewrite !descendants_eq, H. reflexivity. Qed.

(** A mutation of the attributes alone. *)
Lemma attrs_step (root e e' : elem) (n : nat) :
  well_formed root n -> In e (iter root) ->
  eid e' = eid e -> tag e' = tag e -> kids e' = kids e ->
  tag e <> "p:grpSpPr" -> tag e <> "p:grpSp" ->
  (tag e = "a:xfrm" -> attrs_rel (attrib e) (attrib e')) ->
  well_formed (replace_node (eid e) e' root) n
  /\ tree_kept root (replace_node (eid e) e' root).
Proof.
  intros Hwf He Hid Htag Hkids Hp Hg Hx.
  pose proof (descendants_same_kids e e' Hkids) as Hdesc.
  apply (replace_step root e e' n n); try assumption.
  - intros g'. rewrite Hdesc. auto.
  - rewrite (ids_same_kids e e' Hid Hkids).
    exact (NoDup_sub root e (proj1 Hwf) He).
  - intros j. rewrite (ids_same_kids e e' Hid Hkids). auto.
  - lia.
  - rewrite !gdepth_eq, Hkids. lia.
  - intros y'. rewrite Hdesc. auto.
  - intros Hml. split; [|intros g; rewrite Hdesc; auto].
    intros m [<-|Hm] Hmark.
    + rewrite Hkids. apply (Hml e He).
      unfold is_marker, has_tag in *. rewrite <- Htag. exact Hmark.
    + rewrite Hdesc in Hm. apply Hml; [|exact Hmark].
      apply (In_iter_trans m e root); [right; exact Hm|exact He].
Qed.

(** The attributes after the treatment of a transform. *)
Lemma del_if_present_attrib (e : elem) (k : string) :
  attrib (del_if_present e k) = delete k (attrib e).
Proof.
  unfold del_if_present, has_attr.
  destruct (attrib e !! k) eqn:E; [reflexivity|].
  symmetry. apply delete_id. exact E.
Qed.

Lemma set_if_truthy_attrib (e : elem) (k : string) (v : list N) :
  (truthy v = true -> attrib e !! k = Some v) ->
  attrib (set_if_truthy k v e) = attrib e.
Proof.
  unfold set_if_truthy. destruct (truthy v); [|reflexivity].
  intros H. cbn. apply insert_id. apply H. reflexivity.
Qed.

Lemma get_attr_truthy (e : elem) (k : string) :
  truthy (get_attr e k []) = true -> attrib e !! k = Some (get_attr e k []).
Proof.
  unfold get_attr. destruct (attrib e !! k); [reflexivity|discriminate].
Qed.

Lemma set_if_truthy_same (x e : elem) (k : string) :
  attrib e !! k = attrib x !! k ->
  attrib (set_if_truthy k (get_attr x k []) e) = attrib e.
Proof.
  intros H. apply set_if_truthy_attrib. intros Ht.
  rewrite H. apply get_attr_truthy. exact Ht.
Qed.

Lemma reassert_attrib (x e : elem) (k : string) :
  k <> "cx" -> k <> "cy" ->
  attrib e = delete "cy" (delete "cx" (attrib x)) ->
  attrib (set_if_truthy k (get_attr x k []) e)
  = delete "cy" (delete "cx" (attrib x)).
Proof.
  intros H1 H2 He. rewrite set_if_truthy_same; [exact He|].
  rewrite He, !lookup_delete_ne by congruence. reflexivity.
Qed.

Lemma strip_size_attrib (x : elem) :
  attrib (fold_left del_if_present ["cx"; "cy"] x)
  = delete "cy" (delete "cx" (attrib x)).
Proof. cbn [fold_left]. rewrite !del_if_present_attrib. reflexivity. Qed.

Lemma grp_xfrm_fix_attrib (x : elem) :
  attrib (grp_xfrm_fix x) = delete "cy" (delete "cx" (attrib x)).
Proof.
  unfold grp_xfrm_fix.
  repeat (apply reassert_attrib; [discriminate|discriminate|]).
  apply strip_size_attrib.
Qed.

Lemma sp_xfrm_fix_attrib (x : elem) :
  attrib (sp_xfrm_fix x) = delete "cy" (delete "cx" (attrib x)).
Proof.
  unfold sp_xfrm_fix.
  repeat (apply reassert_attrib; [discriminate|discriminate|]).
  apply strip_size_attrib.
Qed.

Lemma attrs_rel_delete (a : gmap string (list N)) :
  attrs_rel a (delete "cy" (delete "cx" a)).
Proof.
  intros k. split.
  - intros H1 H2. rewrite !lookup_delete_ne by congruence. reflexivity.
  - destruct (decide (k = "cy")) as [->|H2];
      [left; apply lookup_delete_eq|].
    rewrite lookup_delete_ne by congruence.
    destruct (decide (k = "cx")) as [->|H1];
      [left; apply lookup_delete_eq|].
    right. rewrite lookup_delete_ne by congruence. reflexivity.
Qed.

(** What the treatments of a transform keep of the element. *)
Definition same_node (e e' : elem) : Prop :=
  eid e' = eid e /\ tag e' = tag e /\ kids e' = kids e.

Lemma same_node_trans (a b c : elem) :
  same_node a b -> same_node b c -> same_node a c.
Proof. unfold same_node. intuition congruence. Qed.

Lemma del_if_present_same (e : elem) (k : string) :
  same_node e (del_if_present e k).
Proof.
  unfold del_if_present, same_node. destruct (has_attr k e); cbn; auto.
Qed.

Lemma set_if_truthy_same_node (e : elem) (k : string) (v : list N) :
  same_node e (set_if_truthy k v e).
Proof.
  unfold set_if_truthy, same_node. destruct (truthy v); cbn; auto.
Qed.

Lemma grp_xfrm_fix_same (x : elem) : same_node x (grp_xfrm_fix x).
Proof.
  unfold grp_xfrm_fix. cbn [fold_left].
  repeat (eapply same_node_trans; [|apply set_if_truthy_same_node]).
  eapply same_node_trans; apply del_if_present_same.
Qed.

Lemma sp_xfrm_fix_same (x : elem) : same_node x (sp_xfrm_fix x).
Proof.
  unfold sp_xfrm_fix. cbn [fold_left].
  repeat (eapply same_node_trans; [|apply set_if_truthy_same_node]).
  eapply same_node_trans; apply del_if_present_same.
Qed.

(** ** Children taken out and appended *)

Lemma NoDup_app_disjoint {A} (l l' : list A) (a : A) :
  List.NoDup (l ++ l') -> In a l -> ~ In a l'.
Proof.
  induction l as [|c l IH]; intros Hnd Ha Hb; [destruct Ha|].
  cbn in Hnd. apply List.NoDup_cons_iff in Hnd. destruct Hnd as [Hc Hnd].
  destruct Ha as [->|Ha]; [|exact (IH Hnd Ha Hb)].
  apply Hc, in_or_app. right. exact Hb.
Qed.

Lemma sublist_flat_map_In {A B} (f : A -> list B) (l1 l2 : list A) (x : B) :
  sublist l1 l2 -> In x (flat_map f l1) -> In x (flat_map f l2).
Proof.
  induction 1 as [|a l1 l2 _ IH|a l1 l2 _ IH]; intros H; [exact H| |].
  - cbn in *. apply in_or_app. apply in_app_or in H.
    destruct H as [H|H]; [left; exact H|right; exact (IH H)].
  - cbn. apply in_or_app. right. exact (IH H).
Qed.

Lemma sublist_flat_map_NoDup {A B} (f : A -> list B) (l1 l2 : list A) :
  sublist l1 l2 -> List.NoDup (flat_map f l2) -> List.NoDup (flat_map f l1).
Proof.
  induction 1 as [|a l1 l2 Hs IH|a l1 l2 _ IH]; intros H; [exact H| |].
  - cbn in *. apply List.NoDup_app.
    + exact (List.NoDup_app_remove_r _ _ H).
    + exact (IH (List.NoDup_app_remove_l _ _ H)).
    + intros b Hb Hb'. apply (NoDup_app_disjoint _ _ b H Hb).
      exact (sublist_flat_map_In f l1 l2 b Hs Hb').
  - cbn in H. exact (IH (List.NoDup_app_remove_l _ _ H)).
Qed.

Lemma remove_first_sublist (i : nat) (ks : list elem) :
  sublist (remove_first i ks) ks.
Proof.
  induction ks as [|k ks IH]; [constructor|].
  cbn [remove_first]. destruct (eid k =? i)%nat.
  - apply sublist_cons. reflexivity.
  - apply sublist_skip. exact IH.
Qed.

Lemma remove_same (c : nat) (e : elem) :
  eid (remove c e) = eid e /\ tag (remove c e) = tag e
  /\ sublist (kids (remove c e)) (kids e).
Proof. cbn. auto using remove_first_sublist. Qed.

Lemma remove_all_same (t : string) (e : elem) :
  eid (remove_all t e) = eid e /\ tag (remove_all t e) = tag e
  /\ sublist (kids (remove_all t e)) (kids e).
Proof.
  unfold remove_all. generalize (findall_child t e) as l.
  intros l. revert e. induction l as [|x l IH]; intros e.
  - cbn. auto.
  - cbn [fold_left]. destruct (IH (remove (eid x) e)) as [H1 [H2 H3]].
    destruct (remove_same (eid x) e) as [R1 [R2 R3]].
    split; [congruence|]. split; [congruence|].
    etransitivity; eassumption.
Qed.

Lemma remove_first_keeps (i : nat) (ks : list elem) (k : elem) :
  In k ks -> eid k <> i -> In k (remove_first i ks).
Proof.
  induction ks as [|a ks IH]; intros Hk Hne; [destruct Hk|].
  cbn [remove_first]. destruct (Nat.eqb_spec (eid a) i) as [Ha|Ha].
  - destruct Hk as [->|Hk]; [contradiction|exact Hk].
  - destruct Hk as [->|Hk]; [left; reflexivity|right; exact (IH Hk Hne)].
Qed.

Lemma fold_remove_keeps (xs : list elem) (k : elem) :
  forall e, In k (kids e) -> (forall x, In x xs -> eid x <> eid k) ->
            In k (kids (fold_left (fun b x => remove (eid x) b) xs e)).
Proof.
  induction xs as [|x xs IH]; intros e Hk Hne; [exact Hk|].
  cbn [fold_left]. apply IH.
  - cbn. apply remove_first_keeps; [exact Hk|].
    intros H. exact (Hne x (or_introl eq_refl) (eq_sym H)).
  - intros y Hy. apply Hne. right. exact Hy.
Qed.

(** A child that is not a marker is not taken out. *)
Lemma remove_all_keeps (t : string) (e0 e k : elem) :
  List.NoDup (ids e0) -> sublist (kids e) (kids e0) ->
  In k (kids e) -> tag k <> t -> In k (kids (remove_all t e)).
Proof.
  intros Hnd Hsub Hk Ht. unfold remove_all.
  apply fold_remove_keeps; [exact Hk|].
  intros x Hx Hid. apply Ht.
  unfold findall_child in Hx. apply filter_In in Hx.
  destruct Hx as [Hx Htag].
  assert (x = k) as Hxk.
  { apply (unique_by_id e0 x k Hnd); [| |exact Hid].
    - apply (In_iter_kid x x e0); [|apply In_iter_self].
      exact (sublist_In _ _ x Hsub Hx).
    - apply (In_iter_kid k k e0); [|apply In_iter_self].
      exact (sublist_In _ _ k Hsub Hk). }
  subst x. unfold has_tag in Htag. apply String.eqb_eq in Htag. exact Htag.
Qed.

Lemma not_marker_tags (k : elem) :
  is_marker k = false ->
  tag k <> "a:noAutofit" /\ tag k <> "a:normAutofit"
  /\ tag k <> "a:spAutoFit".
Proof.
  unfold is_marker, has_tag. intros H.
  apply orb_false_elim in H. destruct H as [H H3].
  apply orb_false_elim in H. destruct H as [H1 H2].
  apply String.eqb_neq in H1. apply String.eqb_neq in H2.
  apply String.eqb_neq in H3. auto.
Qed.

Lemma body_pr_auto_fit_shape (body_pr : elem) (n : nat) :
  List.NoDup (ids body_pr) ->
  exists e1,
    body_pr_auto_fit body_pr n
    = (append (Elem n "a:spAutoFit" ∅ None []) e1, S n)
    /\ eid e1 = eid body_pr /\ tag e1 = tag body_pr
    /\ sublist (kids e1) (kids body_pr)
    /\ forall k, In k (kids body_pr) -> is_marker k = false ->
                 In k (kids e1).
Proof.
  intros Hnd.
  unfold body_pr_auto_fit, bind, Element, fresh, ret.
  eexists. split; [reflexivity|].
  destruct (remove_all_same "a:noAutofit" body_pr) as [A1 [A2 A3]].
  destruct (remove_all_same "a:normAutofit"
              (remove_all "a:noAutofit" body_pr)) as [B1 [B2 B3]].
  destruct (remove_all_same "a:spAutoFit"
              (remove_all "a:normAutofit"
                 (remove_all "a:noAutofit" body_pr))) as [C1 [C2 C3]].
  cbn [fold_left set_attr eid tag kids].
  assert (forall k, In k (kids body_pr) -> is_marker k = false ->
                    In k (kids (remove_all "a:spAutoFit"
                                  (remove_all "a:normAutofit"
                                     (remove_all "a:noAutofit" body_pr)))))
    as Hkeep.
  { intros k Hk Hm. apply not_marker_tags in Hm.
    destruct Hm as [M1 [M2 M3]].
    apply (remove_all_keeps _ body_pr); [exact Hnd| | |exact M3].
    { etransitivity; [exact B3|exact A3]. }
    apply (remove_all_keeps _ body_pr); [exact Hnd|exact A3| |exact M2].
    apply (remove_all_keeps _ body_pr); [exact Hnd|reflexivity|exact Hk|].
    exact M1. }
  set (e3 := remove_all "a:spAutoFit" _) in *.
  destruct (del_if_present_same e3 "w") as [D1 [D2 D3]].
  destruct (del_if_present_same (del_if_present e3 "w") "h")
    as [E1 [E2 E3]].
  split; [congruence|]. split; [congruence|].
  rewrite E3, D3. split; [|exact Hkeep].
  etransitivity; [exact C3|].
  etransitivity; [exact B3|exact A3].
Qed.

Lemma group_not_marker (k : elem) :
  is_group k = true -> is_marker k = false.
Proof.
  unfold is_group, is_marker, has_tag. intros H.
  apply String.eqb_eq in H. rewrite H. reflexivity.
Qed.

(** A mutation that takes children out of an element that is neither a
    group, nor the properties of one, nor a transform, nor a marker, and
    appends a new childless element that is not a group. *)
Lemma sub_append_step (root e e1 : elem) (n : nat) (t : string) :
  well_formed root n -> In e (iter root) ->
  eid e1 = eid e -> tag e1 = tag e -> sublist (kids e1) (kids e) ->
  (forall k, In k (kids e) -> is_marker k = false -> In k (kids e1)) ->
  tag e <> "p:grpSpPr" -> tag e <> "p:grpSp" -> tag e <> "a:xfrm" ->
  is_marker e = false ->
  t <> "p:grpSp" ->
  let root' := replace_node (eid e) (append (Elem n t ∅ None []) e1) root in
  well_formed root' (S n) /\ tree_kept root root'.
Proof.
  intros Hwf He Hid Htag Hsub Hkeep Hp Hg Hx Hnm Ht root'. subst root'.
  set (leaf := Elem n t ∅ None []).
  assert (is_group leaf = false) as Hleaf.
  { unfold is_group, has_tag. cbn. apply String.eqb_neq. exact Ht. }
  assert (forall j, In j (ids (append leaf e1)) ->
                    In j (ids e) \/ j = n) as Hids.
  { intros j. rewrite !ids_eq. cbn [append set_kids eid kids].
    rewrite flat_map_app. cbn [flat_map]. rewrite Hid.
    intros [<-|Hj]; [left; left; reflexivity|].
    apply in_app_or in Hj. destruct Hj as [Hj|Hj].
    - left. right. exact (sublist_flat_map_In ids _ _ j Hsub Hj).
    - rewrite app_nil_r in Hj. cbn in Hj. destruct Hj as [<-|[]].
      right. reflexivity. }
  assert (forall j, In j (ids e) -> (j < n)%nat) as Hlt.
  { intros j Hj. apply (proj2 Hwf). exact (ids_sub e root j He Hj). }
  assert (forall y, In y (descendants (append leaf e1)) ->
                    y = leaf \/ In y (descendants e)) as Hdesc.
  { intros y. rewrite !descendants_eq. cbn [append set_kids kids].
    rewrite flat_map_app. intros Hy.
    apply in_app_or in Hy. destruct Hy as [Hy|Hy].
    - right. exact (sublist_flat_map_In iter _ _ y Hsub Hy).
    - cbn in Hy. destruct Hy as [<-|[]]. left. reflexivity. }
  apply (replace_step root e (append leaf e1) n (S n)); try assumption;
    try (cbn; lia).
  - intros H. contradiction.
  - intros g' Hg' Hgrp. destruct (Hdesc g' Hg') as [->|H]; [|exact H].
    rewrite Hleaf in Hgrp. discriminate.
  - pose proof (NoDup_sub root e (proj1 Hwf) He) as Hnd.
    rewrite ids_eq in Hnd |- *. cbn [append set_kids eid kids].
    rewrite flat_map_app, Hid. cbn [flat_map]. rewrite app_nil_r.
    apply List.NoDup_cons_iff in Hnd. destruct Hnd as [Hne Hnd].
    constructor.
    + intros Hin. apply in_app_or in Hin. destruct Hin as [Hin|Hin].
      * apply Hne. exact (sublist_flat_map_In ids _ _ _ Hsub Hin).
      * rewrite ids_eq in Hin. cbn in Hin. destruct Hin as [Hin|[]].
        specialize (Hlt (eid e)). rewrite ids_eq in Hlt.
        specialize (Hlt (or_introl eq_refl)). lia.
    + apply List.NoDup_app.
      * exact (sublist_flat_map_NoDup ids _ _ Hsub Hnd).
      * rewrite ids_eq. cbn. constructor; [intros []|constructor].
      * intros j Hj Hj'. rewrite ids_eq in Hj'. cbn in Hj'.
        destruct Hj' as [<-|[]].
        assert (n < n)%nat; [|lia]. apply Hlt. rewrite ids_eq. right.
        exact (sublist_flat_map_In ids _ _ _ Hsub Hj).
  - intros j Hj. destruct (Hids j Hj) as [H | ->]; [left; exact H|right; lia].
  - rewrite (gdepth_eq (append leaf e1)). cbn [append set_kids kids].
    apply list_max_bound. intros w Hw. apply in_map_iff in Hw.
    destruct Hw as [k [<- Hk]]. apply in_app_or in Hk.
    destruct Hk as [Hk|[<-|[]]].
    + apply gdepth_kid. exact (sublist_In _ _ k Hsub Hk).
    + unfold group_weight. rewrite Hleaf. cbn. lia.
  - intros y' Hy'. destruct (Hdesc y' Hy') as [->|H]; [left; reflexivity|].
    right. exact H.
  - intros Hml. split.
    + intros m Hm Hmark. destruct Hm as [<-|Hm].
      * exfalso. unfold is_marker, has_tag in Hmark, Hnm.
        cbn [append set_kids tag] in Hmark. rewrite Htag in Hmark.
        congruence.
      * destruct (Hdesc m Hm) as [->|H]; [reflexivity|].
        apply Hml; [|exact Hmark].
        apply (In_iter_trans m e root); [right; exact H|exact He].
    + intros g Hg0 Hgrp. apply In_descendants in Hg0.
      destruct Hg0 as [k [Hk Hgk]].
      destruct (is_marker k) eqn:Ek.
      * assert (kids k = []) as Hleafk.
        { apply Hml; [|exact Ek].
          exact (In_iter_trans k e root
                   (In_iter_kid k k e Hk (In_iter_self k)) He). }
        destruct Hgk as [->|Hgk].
        -- rewrite (group_not_marker _ Hgrp) in Ek. discriminate.
        -- rewrite descendants_eq, Hleafk in Hgk. destruct Hgk.
      * apply In_descendants. exists k. split; [|exact Hgk].
        cbn [append set_kids kids]. apply in_or_app. left.
        exact (Hkeep k Hk Ek).
Qed.

(** ** The steps of the auto-fit pass *)

Lemma step_ok_refl (root : elem) (n : nat) :
  well_formed root n -> step_ok root n (root, n).
Proof.
  intros H. unfold step_ok. cbn [fst snd].
  split; [exact H|]. split; [lia|apply tree_kept_refl].
Qed.

Lemma step_ok_trans (root : elem) (n : nat) (r1 r2 : elem * nat) :
  step_ok root n r1 -> step_ok (fst r1) (snd r1) r2 -> step_ok root n r2.
Proof.
  intros [A1 [A2 A3]] [B1 [B2 B3]].
  split; [exact B1|]. split; [lia|exact (tree_kept_trans _ _ _ A3 B3)].
Qed.

Lemma well_formed_weaken (root : elem) (n n' : nat) :
  well_formed root n -> (n <= n')%nat -> well_formed root n'.
Proof.
  intros [H1 H2] Hn. split; [exact H1|].
  intros j Hj. specialize (H2 j Hj). lia.
Qed.

Lemma modify_body_pr_step (i : nat) (root : elem) (n : nat) :
  well_formed root n ->
  (forall e, get i root = Some e -> tag e = "a:bodyPr") ->
  step_ok root n (modify i body_pr_auto_fit root n).
Proof.
  intros Hwf Htag. unfold modify.
  destruct (get i root) as [e|] eqn:Eget; [|apply step_ok_refl; exact Hwf].
  pose proof (Htag e eq_refl) as Ht.
  apply get_In in Eget. destruct Eget as [He <-].
  unfold bind.
  destruct (body_pr_auto_fit_shape e n (NoDup_sub root e (proj1 Hwf) He))
    as [e1 [-> [H1 [H2 [H3 H4]]]]].
  cbn [ret].
  destruct (sub_append_step root e e1 n "a:spAutoFit" Hwf He H1 H2 H3 H4)
    as [S1 S2]; try (rewrite Ht; discriminate); try discriminate.
  { unfold is_marker, has_tag. rewrite Ht. reflexivity. }
  unfold ret, step_ok. cbn [fst snd].
  split; [exact S1|]. split; [lia|exact S2].
Qed.

Lemma SubElement_step (parent : nat) (t : string) (root : elem) (n : nat) :
  well_formed root n ->
  (forall e, get parent root = Some e -> tag e = "a:txBody") ->
  t <> "p:grpSp" ->
  exists root', SubElement parent t root n = ((n, root'), S n)
    /\ step_ok root n (root', S n)
    /\ forall y, In y (iter root') -> eid y = n -> tag y = t.
Proof.
  intros Hwf Htag Ht. unfold SubElement, bind, Element, fresh, ret.
  cbn [eid]. eexists. split; [reflexivity|].
  unfold modify_pure.
  destruct (get parent root) as [e|] eqn:Eget.
  - pose proof (Htag e eq_refl) as Hte.
    apply get_In in Eget. destruct Eget as [He <-].
    destruct (sub_append_step root e e n t Hwf He eq_refl eq_refl
                (reflexivity _) (fun k Hk _ => Hk))
      as [S1 S2]; try (rewrite Hte; discriminate); [|exact Ht|].
    { unfold is_marker, has_tag. rewrite Hte. reflexivity. }
    split.
    { unfold step_ok. cbn [fst snd].
      split; [exact S1|]. split; [lia|exact S2]. }
    intros y Hy Hyn. apply iter_replace in Hy.
    assert (forall z, In z (iter root) -> eid z <> n) as Hold.
    { intros z Hz Hzn. pose proof (proj2 Hwf _ (In_ids z root Hz)). lia. }
    destruct Hy as [Hy|[y0 [Hy0 [_ ->]]]];
      [|exfalso; exact (Hold y0 Hy0 Hyn)].
    apply In_iter_inv in Hy. destruct Hy as [->|[k [Hk Hy]]].
    + exfalso. exact (Hold e He Hyn).
    + cbn [append set_kids kids] in Hk. apply in_app_or in Hk.
      destruct Hk as [Hk|[<-|[]]].
      * exfalso. apply (Hold y); [|exact Hyn].
        apply (In_iter_trans y e root); [|exact He].
        exact (In_iter_kid y k e Hk Hy).
      * destruct Hy as [<-|[]]. reflexivity.
  - split.
    + unfold step_ok. cbn [fst snd].
      split; [apply (well_formed_weaken root n); [exact Hwf|lia]|].
      split; [lia|apply tree_kept_refl].
    + intros y Hy Hyn. pose proof (proj2 Hwf _ (In_ids y root Hy)). lia.
Qed.

Lemma modify_xfrm_step (f : elem -> elem) (i : nat) (root : elem) (n : nat) :
  (forall x, same_node x (f x)) ->
  (forall x, attrib (f x) = delete "cy" (delete "cx" (attrib x))) ->
  well_formed root n ->
  (forall e, get i root = Some e -> tag e = "a:xfrm") ->
  step_ok root n (modify_pure i f root, n).
Proof.
  intros Hsame Hattr Hwf Htag. unfold modify_pure.
  destruct (get i root) as [e|] eqn:Eget; [|apply step_ok_refl; exact Hwf].
  pose proof (Htag e eq_refl) as Ht.
  apply get_In in Eget. destruct Eget as [He <-].
  destruct (Hsame e) as [H1 [H2 H3]].
  destruct (attrs_step root e (f e) n Hwf He H1 H2 H3) as [S1 S2];
    try (rewrite Ht; discriminate).
  { intros _. rewrite Hattr. apply attrs_rel_delete. }
  unfold step_ok. cbn [fst snd].
  split; [exact S1|]. split; [lia|exact S2].
Qed.

Lemma get_unique (root y e : elem) :
  List.NoDup (ids root) -> In y (iter root) -> get (eid y) root = Some e ->
  e = y.
Proof.
  intros Hnd Hy Hget. rewrite (get_of_In root y Hnd Hy) in Hget.
  congruence.
Qed.

Lemma set_shape_auto_fit_step (sp : nat) (root : elem) (n : nat) :
  well_formed root n -> step_ok root n (_set_shape_auto_fit sp root n).
Proof.
  intros Hwf. unfold _set_shape_auto_fit.
  destruct (get sp root) as [sp_elem|] eqn:Esp;
    [|apply step_ok_refl; exact Hwf].
  apply get_In in Esp. destruct Esp as [Hsp _].
  destruct (find_desc "a:txBody" sp_elem) as [tx_body|] eqn:Etx;
    [|apply step_ok_refl; exact Hwf].
  apply find_desc_In in Etx. destruct Etx as [Htx Htxt].
  assert (In tx_body (iter root)) as Htxr
    by (apply (In_iter_trans _ sp_elem); [right; exact Htx|exact Hsp]).
  unfold bind at 1.
  (* the text-body properties, found or created *)
  assert (exists body_pr root1 n1,
            (match find_child "a:bodyPr" tx_body with
             | Some b => ret (eid b, root)
             | None => SubElement (eid tx_body) "a:bodyPr" root
             end) n = ((body_pr, root1), n1)
            /\ step_ok root n (root1, n1)
            /\ forall e, get body_pr root1 = Some e -> tag e = "a:bodyPr")
    as [body_pr [root1 [n1 [-> [Hstep1 Hbody]]]]].
  { destruct (find_child "a:bodyPr" tx_body) as [b|] eqn:Eb.
    - apply find_child_In in Eb. destruct Eb as [Hb Hbt].
      exists (eid b), root, n. split; [reflexivity|].
      split; [apply step_ok_refl; exact Hwf|].
      intros e He.
      rewrite (get_unique root b e (proj1 Hwf)
                 (In_iter_trans b tx_body root
                    (In_iter_kid b b tx_body Hb (In_iter_self b)) Htxr) He).
      exact Hbt.
    - destruct (SubElement_step (eid tx_body) "a:bodyPr" root n Hwf)
        as [root1 [-> [Hs Hnew]]]; [|discriminate|].
      + intros e He.
        rewrite (get_unique root tx_body e (proj1 Hwf) Htxr He). exact Htxt.
      + exists n, root1, (S n). split; [reflexivity|]. split; [exact Hs|].
        intros e He. apply get_In in He. destruct He as [He Hid].
        exact (Hnew e He Hid). }
  unfold bind.
  pose proof (modify_body_pr_step body_pr root1 n1 (proj1 Hstep1) Hbody)
    as Hstep2.
  destruct (modify body_pr body_pr_auto_fit root1 n1) as [root2 n2].
  pose proof (step_ok_trans root n _ _ Hstep1 Hstep2) as Hstep12.
  cbn [fst snd] in *.
  destruct (get sp root2) as [sp2|] eqn:Esp2; [|exact Hstep12].
  apply get_In in Esp2. destruct Esp2 as [Hsp2 _].
  destruct (find_desc "p:spPr" sp2) as [sp_pr|] eqn:Epr; [|exact Hstep12].
  apply find_desc_In in Epr. destruct Epr as [Hpr _].
  destruct (find_child "a:xfrm" sp_pr) as [xfrm|] eqn:Ex; [|exact Hstep12].
  apply find_child_In in Ex. destruct Ex as [Hx Hxt].
  unfold ret.
  apply (step_ok_trans root n (root2, n2)); [exact Hstep12|].
  cbn [fst snd].
  apply modify_xfrm_step;
    [apply sp_xfrm_fix_same|apply sp_xfrm_fix_attrib|exact (proj1 Hstep2)|].
  intros e He.
  assert (In xfrm (iter root2)) as Hxr.
  { apply (In_iter_trans xfrm sp2 root2); [|exact Hsp2].
    apply (In_iter_trans xfrm sp_pr sp2); [|right; exact Hpr].
    exact (In_iter_kid xfrm xfrm sp_pr Hx (In_iter_self xfrm)). }
  rewrite (get_unique root2 xfrm e (proj1 (proj1 Hstep2)) Hxr He).
  exact Hxt.
Qed.

Lemma foldM_step_ok {A} (body : elem -> A -> M elem) (l : list A) :
  (forall r n x, well_formed r n -> step_ok r n (body r x n)) ->
  forall r n, well_formed r n -> step_ok r n (foldM body l r n).
Proof.
  intros Hbody. induction l as [|x l IH]; intros r n Hwf.
  - apply step_ok_refl. exact Hwf.
  - cbn [foldM]. unfold bind.
    pose proof (Hbody r n x Hwf) as H1.
    destruct (body r x n) as [r1 n1].
    apply (step_ok_trans r n (r1, n1)); [exact H1|].
    apply IH. exact (proj1 H1).
Qed.

Lemma group_xfrm_In (g x : elem) :
  group_xfrm g = Some x ->
  In x (descendants g) /\ tag x = "a:xfrm".
Proof.
  unfold group_xfrm.
  destruct (find_child "p:grpSpPr" g) as [c|] eqn:Ec; [|discriminate].
  intros Ex. apply find_child_In in Ec. apply find_child_In in Ex.
  split; [|tauto].
  apply (In_descendants_trans x c g);
    apply In_kids_descendants; tauto.
Qed.

Lemma fix_group_step (g : nat) (root : elem) (n : nat) :
  well_formed root n -> step_ok root n (fix_group g root, n).
Proof.
  intros Hwf. unfold fix_group.
  destruct (get g root) as [ge|] eqn:Eg; [|apply step_ok_refl; exact Hwf].
  destruct (group_xfrm ge) as [x|] eqn:Ex; [|apply step_ok_refl; exact Hwf].
  apply get_In in Eg. destruct Eg as [Hge _].
  apply group_xfrm_In in Ex. destruct Ex as [Hx Hxt].
  apply modify_xfrm_step;
    [apply grp_xfrm_fix_same|apply grp_xfrm_fix_attrib|exact Hwf|].
  intros e He.
  assert (In x (iter root)) as Hxr
    by (apply (In_iter_trans x ge root); [right; exact Hx|exact Hge]).
  rewrite (get_unique root x e (proj1 Hwf) Hxr He). exact Hxt.
Qed.

Lemma In_replace_new (i : nat) (e e' : elem) :
  forall t, In e (iter t) -> eid e = i ->
            In e' (iter (replace_node i e' t)).
Proof.
  refine (elem_rect_kids _ _). intros j tg a x ks IH He Hid.
  rewrite replace_node_eq. cbn [eid tag attrib text kids].
  destruct (Nat.eqb_spec j i) as [Hji|Hji]; [apply In_iter_self|].
  apply In_iter_inv in He. destruct He as [->|[k [Hk He]]].
  - cbn in Hid. contradiction.
  - rewrite List.Forall_forall in IH.
    apply (In_iter_kid e' (replace_node i e' k)).
    + cbn [kids]. apply in_map. exact Hk.
    + exact (IH k Hk He Hid).
Qed.

(** After its treatment the transform of a group has no [cx] and no
    [cy]. *)
Lemma fix_group_done (g : nat) (root : elem) (n : nat) :
  well_formed root n -> group_done g (fix_group g root).
Proof.
  intros Hwf g' x' Hg' Hid Hgrp Hx'.
  destruct (fix_group_step g root n Hwf) as [Hwf' [_ [Hkept _]]].
  cbn [fst snd] in Hwf', Hkept.
  destruct (Hkept g' Hg' Hgrp) as [g0 [Hg0 [Hid0 [Hgrp0 Hrel]]]].
  rewrite Hx' in Hrel.
  destruct (group_xfrm g0) as [x|] eqn:Ex; [|destruct Hrel].
  destruct Hrel as [Hxid _].
  assert (get g root = Some g0) as Hget.
  { rewrite <- Hid, <- Hid0. exact (get_of_In root g0 (proj1 Hwf) Hg0). }
  destruct (group_xfrm_In g0 x Ex) as [Hx _].
  assert (In x (iter root)) as Hxr
    by (apply (In_iter_trans x g0 root); [right; exact Hx|exact Hg0]).
  unfold fix_group in Hg', Hwf'. rewrite Hget, Ex in Hg', Hwf'.
  unfold modify_pure in Hg', Hwf'.
  rewrite (get_of_In root x (proj1 Hwf) Hxr) in Hg', Hwf'.
  destruct (grp_xfrm_fix_same x) as [Fid _].
  pose proof (In_replace_new (eid x) x (grp_xfrm_fix x) root Hxr eq_refl)
    as Hnew.
  destruct (group_xfrm_In g' x' Hx') as [Hx'g _].
  assert (x' = grp_xfrm_fix x) as ->.
  { apply (unique_by_id _ x' (grp_xfrm_fix x) (proj1 Hwf')).
    - apply (In_iter_trans x' g'); [right; exact Hx'g|exact Hg'].
    - exact Hnew.
    - congruence. }
  rewrite grp_xfrm_fix_attrib. split.
  - rewrite lookup_delete_ne by discriminate. apply lookup_delete_eq.
  - apply lookup_delete_eq.
Qed.

Lemma process_shapes_step (fuel : nat) :
  forall parent root n,
    well_formed root n ->
    step_ok root n (process_shapes fuel parent root n).
Proof.
  induction fuel as [|fuel IH]; intros parent root n Hwf.
  - apply step_ok_refl. exact Hwf.
  - cbn [process_shapes].
    destruct (get parent root) as [pe|]; [|apply step_ok_refl; exact Hwf].
    unfold bind.
    pose proof (foldM_step_ok
                  (fun r sp => _set_shape_auto_fit (eid sp) r)
                  (findall_desc "p:sp" pe)
                  (fun r n x => set_shape_auto_fit_step (eid x) r n)
                  root n Hwf) as H1.
    destruct (foldM _ (findall_desc "p:sp" pe) root n) as [r1 n1].
    destruct (get parent r1) as [pe1|]; [|exact H1].
    apply (step_ok_trans root n (r1, n1)); [exact H1|].
    apply foldM_step_ok; [|exact (proj1 H1)].
    intros r m g Hr.
    apply (step_ok_trans r m (fix_group (eid g) r, m));
      [apply fix_group_step; exact Hr|].
    apply IH. exact (proj1 (fix_group_step (eid g) r m Hr)).
Qed.

(** The loop over the groups treats the transform of each of them. *)
Lemma groups_loop_done (fuel : nat) (gs : list elem) :
  forall r n,
    well_formed r n ->
    let res :=
      foldM (fun r grp_sp =>
               process_shapes fuel (eid grp_sp) (fix_group (eid grp_sp) r))
            gs r n in
    step_ok r n res
    /\ forall g, In g gs -> group_done (eid g) (fst res).
Proof.
  induction gs as [|g gs IH]; intros r n Hwf res; subst res.
  - split; [apply step_ok_refl; exact Hwf|intros g []].
  - cbn [foldM]. unfold bind.
    pose proof (fix_group_step (eid g) r n Hwf) as Hfix.
    pose proof (fix_group_done (eid g) r n Hwf) as Hdone.
    pose proof (process_shapes_step fuel (eid g) (fix_group (eid g) r) n
                  (proj1 Hfix)) as Hrec.
    destruct (process_shapes fuel (eid g) (fix_group (eid g) r) n)
      as [r1 n1].
    pose proof (step_ok_trans r n _ _ Hfix Hrec) as H1.
    cbn [fst snd] in *.
    destruct (IH r1 n1 (proj1 Hrec)) as [Hrest Hall].
    split; [exact (step_ok_trans r n (r1, n1) _ H1 Hrest)|].
    intros g0 [<-|Hg0]; [|exact (Hall g0 Hg0)].
    apply (group_done_kept _ r1); [exact (proj1 (proj2 (proj2 Hrest)))|].
    apply (group_done_kept _ (fix_group (eid g) r));
      [exact (proj1 (proj2 (proj2 Hrec)))|exact Hdone].
Qed.

(** ** Auto-fit and the transforms of the groups *)

Lemma get_self (t : elem) : get (eid t) t = Some t.
Proof. unfold get, iter. cbn [List.find]. rewrite Nat.eqb_refl. reflexivity. Qed.

Lemma transform_after (a a' : gmap string (list N)) :
  attrs_rel a a' -> a' !! "cx" = None -> a' !! "cy" = None ->
  a' = delete "cy" (delete "cx" a).
Proof.
  intros Hrel Hcx Hcy. apply map_eq. intros k.
  destruct (decide (k = "cy")) as [->|H2];
    [rewrite lookup_delete_eq; exact Hcy|].
  rewrite lookup_delete_ne by congruence.
  destruct (decide (k = "cx")) as [->|H1];
    [rewrite lookup_delete_eq; exact Hcx|].
  rewrite lookup_delete_ne by congruence.
  apply (Hrel k); assumption.
Qed.

(** C5: in a well-formed document whose root is not itself a group, every
    group of the tree that [set_auto_fit] returns, at any depth, is a
    group of the given tree with the same transform element
    ([grpSpPr/xfrm]); the attributes of that transform are those it had
    with [cx] and [cy] taken out, so [off], [ext], [chOff] and [chExt]
    (and every other attribute) have the value they had. *)
Theorem set_auto_fit_keeps_group_transforms (root : elem) (n : nat) :
  well_formed root n -> tag root <> "p:grpSp" ->
  forall g', In g' (iter (fst (set_auto_fit root n))) ->
    is_group g' = true ->
    exists g, In g (iter root) /\ eid g = eid g' /\ is_group g = true
      /\ match group_xfrm g, group_xfrm g' with
         | Some x, Some x' =>
             eid x' = eid x
             /\ attrib x' = delete "cy" (delete "cx" (attrib x))
         | None, None => True
         | _, _ => False
         end.
Proof.
  intros Hwf Hroot g' Hg' Hgrp.
  unfold set_auto_fit in Hg'. cbn [process_shapes] in Hg'.
  rewrite get_self in Hg'. unfold bind in Hg'.
  pose proof (foldM_step_ok
                (fun r sp => _set_shape_auto_fit (eid sp) r)
                (findall_desc "p:sp" root)
                (fun r n x => set_shape_auto_fit_step (eid x) r n)
                root n Hwf) as H1.
  destruct (foldM _ (findall_desc "p:sp" root) root n) as [r1 n1].
  destruct H1 as [Hwf1 [_ [Hkept1 [Hid1 _]]]]. cbn [fst snd] in *.
  rewrite <- Hid1, get_self in Hg'.
  destruct (groups_loop_done (gdepth root) (findall_desc "p:grpSp" r1)
              r1 n1 Hwf1) as [[_ [_ [Hkept2 _]]] Hdone].
  set (res := foldM _ (findall_desc "p:grpSp" r1) r1 n1) in *.
  destruct (Hkept2 g' Hg' Hgrp) as [g1 [Hg1 [Hid [Hgrp1 Hrel2]]]].
  destruct (Hkept1 g1 Hg1 Hgrp1) as [g [Hg [Hid0 [Hgrp0 Hrel1]]]].
  exists g. split; [exact Hg|]. split; [congruence|].
  split; [exact Hgrp0|].
  pose proof (xfrm_rel_trans _ _ _ Hrel1 Hrel2) as Hrel.
  assert (In g1 (findall_desc "p:grpSp" r1)) as Hlist.
  { apply findall_desc_In. split.
    - destruct Hg1 as [<-|Hg1]; [|exact Hg1].
      exfalso. apply Hroot.
      assert (g = root) as <-.
      { apply (unique_by_id root g root (proj1 Hwf) Hg (In_iter_self root)).
        congruence. }
      unfold is_group, has_tag in Hgrp0. apply String.eqb_eq. exact Hgrp0.
    - unfold is_group, has_tag in Hgrp1. apply String.eqb_eq. exact Hgrp1. }
  pose proof (Hdone g1 Hlist) as Hd.
  destruct (group_xfrm g) as [x|], (group_xfrm g') as [x'|] eqn:Ex';
    cbn in Hrel |- *; try tauto.
  destruct Hrel as [Hxid Hattrs].
  destruct (Hd g' x' Hg' (eq_sym Hid) Hgrp Ex') as [Hcx Hcy].
  split; [congruence|]. exact (transform_after _ _ Hattrs Hcx Hcy).
Qed.

Lemma distinct_NoDup (l : list nat) : distinct l = true -> List.NoDup l.
Proof.
  induction l as [|a l IH]; intros H; [constructor|].
  cbn in H. apply andb_prop in H. destruct H as [Ha Hl].
  constructor; [|exact (IH Hl)].
  intros Hin. apply negb_true_iff in Ha.
  assert (existsb (Nat.eqb a) l = true); [|congruence].
  apply existsb_exists. exists a. split; [exact Hin|apply Nat.eqb_refl].
Qed.

Lemma well_formed_b_correct (root : elem) (n : nat) :
  well_formed_b root n = true -> well_formed root n.
Proof.
  unfold well_formed_b. intros H. apply andb_prop in H.
  destruct H as [H1 H2]. split; [exact (distinct_NoDup _ H1)|].
  intros j Hj. rewrite forallb_forall in H2.
  apply Nat.ltb_lt. exact (H2 j Hj).
Qed.

Lemma set_auto_fit_keeps_group_transforms_witness :
  exists g, In g (iter slide_groups) /\ eid g = 2%nat /\ is_group g = true
    /\ match group_xfrm g,
             group_xfrm (first_group (fst (set_auto_fit slide_groups 13%nat))) with
       | Some x, Some x' =>
           eid x' = eid x
           /\ attrib x' = delete "cy" (delete "cx" (attrib x))
       | None, None => True
       | _, _ => False
       end.
Proof.
  apply (set_auto_fit_keeps_group_transforms slide_groups 13%nat
           (well_formed_b_correct slide_groups 13%nat eq_refl)
           ltac:(discriminate)
           (first_group (fst (set_auto_fit slide_groups 13%nat)))).
  - vm_compute. right. right. left. reflexivity.
  - reflexivity.
Defined.

(** The scenario of the specification: the size override of the outer
    group is gone and its four transform values are what they were; the
    nested group is treated alike. *)
Lemma set_auto_fit_slide_groups :
  group_transform 2 (fst (set_auto_fit slide_groups 13%nat))
  = Some (<["off" := u "0,0"]> (<["ext" := u "100,100"]>
          (<["chOff" := u "0,0"]> {["chExt" := u "200,200"]})))
  /\ group_transform 10 (fst (set_auto_fit slide_groups 13%nat))
     = Some {["off" := u "7,7"]}.
Proof. split; vm_compute; reflexivity. Qed.

(** * Further properties *)

(** ** The font-size ladder *)

Section LadderOrder.

Local Open Scope Q_scope.

Lemma Qle_bool_false (a r : Q) : Qle_bool a r = false -> r < a.
Proof.
  intros H. apply Qnot_le_lt. intros Hle.
  apply Qle_bool_iff in Hle. congruence.
Qed.

Lemma py_round_mono (x y : Q) : x <= y -> (py_round x <= py_round y)%Z.
Proof.
  intros Hxy.
  pose proof (Qfloor_resp_le x y Hxy) as Hf.
  pose proof (Qfloor_le x) as Hx1. pose proof (Qlt_floor x) as Hx2.
  pose proof (Qfloor_le y) as Hy1. pose proof (Qlt_floor y) as Hy2.
  rewrite inject_Z_plus in Hx2, Hy2.
  change (inject_Z 1) with 1 in Hx2, Hy2.
  destruct (Z.eq_dec (Qfloor x) (Qfloor y)) as [E|E].
  - unfold py_round. rewrite <- E.
    destruct (Qcompare (x - inject_Z (Qfloor x)) (1 # 2)) eqn:Cx;
      destruct (Qcompare (y - inject_Z (Qfloor x)) (1 # 2)) eqn:Cy;
      repeat match goal with
             | H : Qcompare _ _ = Eq |- _ => apply <- Qeq_alt in H
             | H : Qcompare _ _ = Lt |- _ => apply <- Qlt_alt in H
             | H : Qcompare _ _ = Gt |- _ => apply <- Qgt_alt in H
             end;
      try (exfalso; lra);
      destruct (Z.even (Qfloor x)); lia.
  - assert (Qfloor x + 1 <= Qfloor y)%Z as Hlt by lia.
    assert (py_round x <= Qfloor x + 1)%Z.
    { unfold py_round.
      destruct (Qcompare _ _); [destruct (Z.even _)| |]; lia. }
    assert (Qfloor y <= py_round y)%Z.
    { unfold py_round.
      destruct (Qcompare _ _); [destruct (Z.even _)| |]; lia. }
    lia.
Qed.

Ltac ladder_entry :=
  match goal with
  | |- context [inject_Z ?z] =>
      match z with
      | context [Qle_bool] => fail 1
      | _ => let z' := eval vm_compute in z in change z with z'
      end
  end.

Lemma next_smaller_lt (r s : Q) :
  r <= s + (1 # 4) -> 5 < s ->
  inject_Z (next_smaller_from r 0 ppt_font_sizes) < s.
Proof.
  intros Hr Hs.
  unfold ppt_font_sizes at 1. cbn [next_smaller_from].
  repeat match goal with
         | |- context [Qle_bool ?a r] =>
             let E := fresh "E" in
             destruct (Qle_bool a r) eqn:E;
             [ apply Qle_bool_imp_le in E; cbv [inject_Z] in E;
               ladder_entry; cbv [inject_Z]; lra
             | clear E ]
         end.
  cbv [min_font_size inject_Z]. lra.
Qed.

Lemma next_smaller_mono (r1 r2 : Q) :
  r1 <= r2 ->
  (next_smaller_from r1 0 ppt_font_sizes
   <= next_smaller_from r2 0 ppt_font_sizes)%Z.
Proof.
  intros Hr.
  unfold ppt_font_sizes at 1 2. cbn [next_smaller_from].
  repeat match goal with
         | |- context [Qle_bool ?a r2] =>
             let E := fresh "E" in
             destruct (Qle_bool a r2) eqn:E;
             [ apply Qle_bool_imp_le in E | apply Qle_bool_false in E ];
             cbv [inject_Z] in E
         end;
  repeat match goal with
         | |- context [Qle_bool ?a r1] =>
             let E := fresh "E" in
             destruct (Qle_bool a r1) eqn:E;
             [ apply Qle_bool_imp_le in E; cbv [inject_Z] in E;
               first [ vm_compute; discriminate | exfalso; lra ]
             | clear E ]
         end;
  vm_compute; discriminate.
Qed.

End LadderOrder.

(** Above the floor of five points the size returned is strictly smaller
    than the size given. *)
Theorem get_next_smaller_size_shrinks (s : Q) :
  (5 < s)%Q -> (inject_Z (get_next_smaller_size s) < s)%Q.
Proof.
  intros Hs. unfold get_next_smaller_size.
  destruct (rounded_size_near s) as [_ Hhi].
  apply next_smaller_lt; assumption.
Qed.

Lemma get_next_smaller_size_shrinks_witness :
  (inject_Z (get_next_smaller_size (51 # 10)) < 51 # 10)%Q.
Proof.
  apply (get_next_smaller_size_shrinks (51 # 10)). reflexivity.
Defined.

(** A larger size is never given a smaller successor. *)
Theorem get_next_smaller_size_monotone (s1 s2 : Q) :
  (s1 <= s2)%Q -> get_next_smaller_size s1 <= get_next_smaller_size s2.
Proof.
  intros Hs. unfold get_next_smaller_size.
  apply next_smaller_mono.
  assert (py_round (s1 * 2) <= py_round (s2 * 2)) as H
    by (apply py_round_mono; lra).
  unfold Qdiv. change (/ 2)%Q with (1 # 2)%Q.
  rewrite Zle_Qle in H. lra.
Qed.

Lemma get_next_smaller_size_monotone_witness :
  get_next_smaller_size 18 <= get_next_smaller_size (37 # 2).
Proof.
  apply (get_next_smaller_size_monotone 18 (37 # 2)).
  vm_compute. discriminate.
Defined.

(** ** adjust_font_size *)

Lemma next_smaller_below_44 (s : Q) :
  In (get_next_smaller_size s) (skipn 2 ppt_font_sizes).
Proof.
  unfold get_next_smaller_size.
  set (r := (inject_Z (py_round (s * 2)) / 2)%Q). clearbody r.
  unfold ppt_font_sizes at 1. cbn [next_smaller_from].
  repeat match goal with
         | |- context [Qle_bool ?a r] => destruct (Qle_bool a r)
         end;
    vm_compute; tauto.
Qed.

(** Whatever the size, the adjusted size is a hundred times an entry of
    the ladder, between 5 and 44 points for an original text and between
    5 and 36 points for a translation. *)
Theorem adjust_font_size_range (size : Z) (is_translation : bool) :
  In (adjust_font_size size is_translation)
     (List.map (Z.mul 100) ppt_font_sizes)
  /\ 500 <= adjust_font_size size is_translation
     <= (if is_translation then 3600 else 4400).
Proof.
  unfold adjust_font_size.
  pose proof (next_smaller_below_44 (size_to_point size)) as H.
  set (v := get_next_smaller_size (size_to_point size)) in *.
  clearbody v.
  cbv [skipn ppt_font_sizes In] in H.
  destruct is_translation;
    repeat (destruct H as [H|H];
            [subst v; vm_compute; intuition discriminate|]);
    destruct H.
Qed.

(** The size of a translation is the size of an original text adjusted
    once more. *)
Theorem adjust_font_size_translation_twice (size : Z) :
  adjust_font_size size true
  = adjust_font_size (adjust_font_size size false) false.
Proof.
  unfold adjust_font_size.
  pose proof (next_smaller_below_44 (size_to_point size)) as H.
  set (v := get_next_smaller_size (size_to_point size)) in *.
  clearbody v.
  cbv [skipn ppt_font_sizes In] in H.
  repeat (destruct H as [H|H]; [subst v; vm_compute; reflexivity|]).
  destruct H.
Qed.

(** The quotient [size / 100] is rounded to a float, and rounding keeps
    the order: it does not cross an entry of the ladder. *)
Lemma size_to_point_le (v size : Z) :
  In v ppt_font_sizes -> size <= 100 * v ->
  (size_to_point size <= inject_Z v)%Q.
Proof.
  intros Hv Hs. unfold size_to_point.
  assert (inject_Z size / 100 <= inject_Z v)%Q as Hq
    by (unfold Qle, Qdiv, Qmult, Qinv, inject_Z; cbn; lia).
  apply fl_mono in Hq.
  assert (Float.fl (inject_Z v) <= inject_Z v)%Q as He.
  { cbv [ppt_font_sizes In] in Hv.
    repeat (destruct Hv as [<-|Hv];
            [apply Qle_bool_iff; vm_compute; reflexivity|]).
    destruct Hv. }
  lra.
Qed.

Lemma size_to_point_lt (v size : Z) :
  In v ppt_font_sizes ->
  (inject_Z v < size_to_point size)%Q -> 100 * v < size.
Proof.
  intros Hv H. destruct (Z_lt_le_dec (100 * v) size) as [C|C]; [exact C|].
  pose proof (size_to_point_le v size Hv C). lra.
Qed.

Lemma size_to_point_above_5 (size : Z) :
  500 < size -> (5 < size_to_point size)%Q.
Proof.
  intros Hs. unfold size_to_point.
  assert (501 / 100 <= inject_Z size / 100)%Q as Hq
    by (unfold Qle, Qdiv, Qmult, Qinv, inject_Z; cbn; lia).
  apply fl_mono in Hq.
  assert (5 < Float.fl (501 / 100))%Q by (vm_compute; reflexivity).
  lra.
Qed.

(** A size above 5 points is made strictly smaller, and a size of at most
    5 points becomes 5 points. *)
Theorem adjust_font_size_shrinks (size : Z) (is_translation : bool) :
  (500 < size -> adjust_font_size size is_translation < size)
  /\ (size <= 500 -> adjust_font_size size is_translation = 500).
Proof.
  unfold adjust_font_size.
  pose proof (next_smaller_below_44 (size_to_point size)) as H.
  destruct (rounded_size_near (size_to_point size)) as [_ Hhi].
  split; intros Hs.
  - assert (100 * get_next_smaller_size (size_to_point size) < size) as Hlt.
    { apply size_to_point_lt.
      - revert H. generalize (get_next_smaller_size (size_to_point size)).
        intros v Hv. cbv [skipn ppt_font_sizes In] in Hv |- *. tauto.
      - unfold get_next_smaller_size.
        apply next_smaller_lt; [exact Hhi|].
        apply size_to_point_above_5. exact Hs. }
    set (v := get_next_smaller_size (size_to_point size)) in *.
    clearbody v.
    cbv [skipn ppt_font_sizes In] in H.
    destruct is_translation;
      repeat (destruct H as [H|H];
              [subst v;
               match goal with
               | |- ?l < size =>
                   let l' := eval vm_compute in l in change l with l'
               end; lia|]);
      destruct H.
  - assert (get_next_smaller_size (size_to_point size) = 5) as ->.
    { unfold get_next_smaller_size. apply next_smaller_floor.
      assert (size_to_point size <= 5)%Q
        by (apply (size_to_point_le 5 size);
            [cbv [ppt_font_sizes In]; tauto|lia]).
      lra. }
    destruct is_translation; vm_compute; reflexivity.
Qed.

Lemma adjust_font_size_shrinks_witness :
  adjust_font_size 2400 true < 2400 /\ adjust_font_size 300 false = 500.
Proof.
  split.
  - apply (adjust_font_size_shrinks 2400 true). reflexivity.
  - apply (adjust_font_size_shrinks 300 false). discriminate.
Defined.

(** ** clean_translation: white space and character classes *)


Lemma words_go_words (s : list N) :
  forall cur,
    (forall c, In c cur -> is_space c = false) ->
    List.Forall (fun w => w <> [] /\ forall c, In c w -> is_space c = false)
                (words_go cur s).
Proof.
  induction s as [|d s IH]; intros cur Hcur.
  - cbn [words_go]. destruct cur as [|a cur]; [constructor|].
    constructor; [|constructor]. split.
    + intros H. apply (f_equal (@length N)) in H.
      rewrite length_rev in H. discriminate.
    + intros c Hc. apply Hcur. apply in_rev. exact Hc.
  - cbn [words_go]. destruct (is_space d) eqn:Hd.
    + destruct cur as [|a cur]; [apply IH; intros c []|].
      constructor; [|apply IH; intros c []]. split.
      * intros H. apply (f_equal (@length N)) in H.
        rewrite length_rev in H. discriminate.
      * intros c Hc. apply Hcur. apply in_rev. exact Hc.
    + apply IH. intros c [<-|Hc]; [exact Hd|exact (Hcur c Hc)].
Qed.

Lemma word_tight (w : list N) :
  w <> [] -> (forall c, In c w -> is_space c = false) -> tight w = true.
Proof.
  intros Hne Hw. unfold tight. apply andb_true_intro. split.
  - destruct w as [|c r]; [congruence|]. cbn.
    rewrite (Hw c (or_introl eq_refl)). reflexivity.
  - destruct (rev w) as [|c r] eqn:E.
    + apply (f_equal (@length N)) in E. rewrite length_rev in E.
      destruct w; [congruence|discriminate].
    + cbn. rewrite (Hw c); [reflexivity|].
      apply in_rev. rewrite E. left. reflexivity.
Qed.

Lemma spaced_once_cons (a b : N) (r : list N) :
  spaced_once (a :: b :: r)
  = negb (is_space a && is_space b) && spaced_once (b :: r).
Proof. reflexivity. Qed.

Lemma spaced_once_word (w r : list N) :
  (forall c, In c w -> is_space c = false) ->
  spaced_once r = true -> starts_tight r = true ->
  spaced_once (w ++ SPACE :: r) = true.
Proof.
  intros Hw Hr Hs. induction w as [|a w IH].
  - destruct r as [|b r]; [discriminate|].
    cbn [app]. rewrite spaced_once_cons. cbn [starts_tight] in Hs.
    apply negb_true_iff in Hs. rewrite Hs, andb_false_r. exact Hr.
  - cbn [app]. destruct (w ++ SPACE :: r) as [|b t] eqn:E.
    + reflexivity.
    + rewrite spaced_once_cons, (Hw a (or_introl eq_refl)).
      cbn [andb negb]. apply IH. intros c Hc. apply Hw. right. exact Hc.
Qed.

Lemma spaced_once_no_space (w : list N) :
  (forall c, In c w -> is_space c = false) -> spaced_once w = true.
Proof.
  induction w as [|a w IH]; intros Hw; [reflexivity|].
  destruct w as [|b w]; [reflexivity|].
  rewrite spaced_once_cons, (Hw a (or_introl eq_refl)).
  cbn [andb negb]. apply IH. intros c Hc. apply Hw. right. exact Hc.
Qed.

Lemma join_words_tight (ws : list (list N)) :
  List.Forall (fun w => w <> [] /\ forall c, In c w -> is_space c = false)
              ws ->
  ws <> [] ->
  tight (join [SPACE] ws) = true /\ spaced_once (join [SPACE] ws) = true.
Proof.
  induction ws as [|w ws IH]; [congruence|]. intros H _.
  inversion H as [|? ? [Hne Hw] Hrest]; subst.
  destruct ws as [|w' ws].
  - cbn [join]. split; [apply word_tight; assumption|].
    apply spaced_once_no_space. exact Hw.
  - change (join [SPACE] (w :: w' :: ws))
      with (w ++ SPACE :: join [SPACE] (w' :: ws)).
    destruct (IH Hrest ltac:(discriminate)) as [Ht Hs]. split.
    + apply tight_join2; [apply word_tight; assumption|exact Ht].
    + apply spaced_once_word; [exact Hw|exact Hs|].
      unfold tight in Ht. apply andb_prop in Ht. tauto.
Qed.

Lemma normalised_evenly_spaced (s : list N) :
  evenly_spaced (strip (join [SPACE] (words s))).
Proof.
  pose proof (words_go_words s [] ltac:(intros c [])) as Hw.
  fold (words s) in Hw.
  destruct (words s) as [|w ws] eqn:E.
  - cbn. split; [intros c []|]. split; [left; reflexivity|reflexivity].
  - destruct (join_words_tight (w :: ws) Hw ltac:(discriminate))
      as [Ht Hs].
    rewrite (strip_tight _ Ht).
    split; [|split; [right; exact Ht|exact Hs]].
    intros c Hc Hsp. apply In_join in Hc.
    destruct Hc as [[<-|[]]|[x [Hx Hcx]]]; [reflexivity|].
    rewrite List.Forall_forall in Hw.
    destruct (Hw x Hx) as [_ Hno]. rewrite (Hno c Hcx) in Hsp.
    discriminate.
Qed.

Lemma In_normalised (s : list N) (c : N) :
  In c (strip (join [SPACE] (words s))) -> c = SPACE \/ In c s.
Proof.
  intros Hc. apply In_strip_by in Hc. apply In_join in Hc.
  destruct Hc as [[<-|[]]|[w [Hw Hcw]]]; [left; reflexivity|].
  destruct (In_words_go _ _ _ _ Hw Hcw) as [[]|Hs]. right. exact Hs.
Qed.

Lemma mem_In (c : N) (l : list N) : mem c l = true -> In c l.
Proof.
  unfold mem. intros H. apply existsb_exists in H.
  destruct H as [d [Hd Hcd]]. apply N.eqb_eq in Hcd. subst d. exact Hd.
Qed.

Section Cleaning.

Variable lower : list N -> list N.

(** Whatever the model answers, the cleaned text is evenly spaced: its
    only white space is the plain space, it neither begins nor ends with
    one, and no two follow each other.  In particular it holds no line
    break. *)
Theorem clean_translation_evenly_spaced (self : Translator) (text : list N)
    (from_lang to_lang : string) :
  evenly_spaced (clean_translation lower self text from_lang to_lang)
  /\ ~ In LF (clean_translation lower self text from_lang to_lang).
Proof.
  assert (evenly_spaced (clean_translation lower self text from_lang to_lang))
    as H.
  { unfold clean_translation. destruct (truthy text) eqn:Et; cbn [negb].
    - apply normalised_evenly_spaced.
    - destruct text; [|discriminate].
      split; [intros c []|]. split; [left; reflexivity|reflexivity]. }
  split; [exact H|].
  intros Hin. destruct H as [H _].
  specialize (H LF Hin eq_refl). discriminate.
Qed.

(** From Chinese to English the cleaned text holds no ideograph of the
    block U+4E00 to U+9FFF; from English to Chinese it holds only such
    ideographs and the characters of the list of punctuation marks. *)
Theorem clean_translation_character_classes (self : Translator)
    (text : list N) (from_lang to_lang : string) (c : N) :
  In c (clean_translation lower self text from_lang to_lang) ->
  (from_lang = "zh" -> to_lang = "en" -> is_cjk c = false)
  /\ (from_lang = "en" -> to_lang = "zh" ->
      mem c allowed_en2zh || is_cjk c = true).
Proof.
  unfold clean_translation. destruct (truthy text) eqn:Et; cbn [negb];
    [|destruct text; [intros []|discriminate]].
  intros Hc. apply In_normalised in Hc.
  destruct Hc as [->|Hc];
    [split; intros _ _; vm_compute; reflexivity|].
  split; intros Hf Ht.
  - assert (is_zh2en from_lang to_lang = true) as E
      by (subst; reflexivity).
    rewrite E in Hc.
    apply filter_In in Hc. destruct Hc as [_ Hc].
    apply orb_prop in Hc. destruct Hc as [Hc|Hc].
    + apply orb_prop in Hc. destruct Hc as [Hc|Hc].
      * apply mem_In in Hc. rename Hc into Hd.
        assert (forallb (fun x => negb (is_cjk x)) allowed_zh2en = true)
          as Hall by (vm_compute; reflexivity).
        rewrite forallb_forall in Hall.
        apply negb_true_iff. exact (Hall c Hd).
      * unfold is_cjk. apply N.ltb_lt in Hc.
        apply andb_false_intro1. apply N.leb_gt. exact Hc.
    + unfold is_cjk. apply N.ltb_lt in Hc.
      apply andb_false_intro2. apply N.leb_gt. exact Hc.
  - assert (is_zh2en from_lang to_lang = false) as E
      by (subst; reflexivity).
    assert (String.eqb from_lang "en" && String.eqb to_lang "zh" = true)
      as E2 by (subst; reflexivity).
    rewrite E, E2 in Hc.
    apply filter_In in Hc. exact (proj2 Hc).
Qed.

End Cleaning.

Lemma clean_translation_character_classes_witness :
  is_cjk 104%N = false.
Proof.
  apply (clean_translation_character_classes ascii_lower qwen_translator
           (u "译文: Hello 世界") "zh" "en" 104%N);
    [vm_compute; tauto|reflexivity|reflexivity].
Defined.

(** ** translate and batch_translate *)

Section Requests.

Variable lower : list N -> list N.
Variable World : Type.
Variable post : list N -> string -> list N -> State World (option (list N)).

(** A blank text is returned as it is, and no request is made. *)
Theorem translate_blank_unchanged (self : Translator) (text : list N)
    (from_lang to_lang : string) (w : World) :
  truthy (strip text) = false ->
  translate lower World post self text from_lang to_lang w = (text, w).
Proof.
  intros H. unfold translate. rewrite H.
  destruct (truthy text); reflexivity.
Qed.

Lemma translate_not_blank (self : Translator) (text : list N)
    (from_lang to_lang : string) (w : World) :
  not_blank text ->
  not_blank (fst (translate lower World post self text from_lang to_lang w)).
Proof.
  intros Htext.
  pose proof (translate_result lower World post self text from_lang to_lang
                w Htext) as H.
  cbv zeta in H. unfold not_blank.
  destruct (fst (post (api_url self) (model_name self)
                   (get_prompt self text from_lang to_lang false) w))
    as [response|].
  - destruct (truthy (strip (clean_translation lower self (strip response)
                               from_lang to_lang))) eqn:E;
      rewrite H; [exact E|apply placeholder_not_blank].
  - rewrite H. apply placeholder_not_blank.
Qed.

Lemma clean_all_length (self : Translator) (texts : list (list N))
    (from_lang to_lang : string) (translations : list (list N)) :
  forall i cleaned,
    (length (clean_all lower self texts from_lang to_lang i translations
                       cleaned)
     <= length cleaned + length translations)%nat.
Proof.
  induction translations as [|trans rest IH]; intros i cleaned.
  - cbn. lia.
  - cbn [clean_all]. etransitivity; [apply IH|].
    destruct (truthy _); [rewrite length_app; cbn; lia|].
    destruct (nth_error texts i); [rewrite length_app|]; cbn; lia.
Qed.

Lemma clean_all_not_blank (self : Translator) (texts : list (list N))
    (from_lang to_lang : string) (translations : list (list N)) :
  forall i cleaned,
    List.Forall not_blank cleaned ->
    List.Forall not_blank
      (clean_all lower self texts from_lang to_lang i translations cleaned).
Proof.
  induction translations as [|trans rest IH]; intros i cleaned H;
    [exact H|].
  cbn [clean_all]. apply IH.
  destruct (truthy (strip (clean_translation lower self trans from_lang
                             to_lang))) eqn:E.
  - apply List.Forall_app. split; [exact H|].
    constructor; [exact E|constructor].
  - destruct (nth_error texts i); [|exact H].
    apply List.Forall_app. split; [exact H|].
    constructor; [apply placeholder_not_blank|constructor].
Qed.

Lemma backfill_not_blank (self : Translator) (from_lang to_lang : string)
    (missing : list (list N)) :
  forall cleaned w,
    List.Forall not_blank cleaned -> List.Forall not_blank missing ->
    List.Forall not_blank
      (fst (backfill lower World post self from_lang to_lang missing
                     cleaned w)).
Proof.
  induction missing as [|t rest IH]; intros cleaned w Hc Hm; [exact Hc|].
  inversion Hm as [|? ? Ht Hrest]; subst.
  cbn [backfill]. unfold bind.
  pose proof (translate_not_blank self t from_lang to_lang w Ht) as H1.
  destruct (translate lower World post self t from_lang to_lang w)
    as [r w1].
  apply IH; [|exact Hrest].
  apply List.Forall_app. split; [exact Hc|].
  constructor; [exact H1|constructor].
Qed.

Lemma translate_all_not_blank (self : Translator)
    (from_lang to_lang : string) (texts : list (list N)) :
  forall w,
    List.Forall not_blank texts ->
    List.Forall not_blank
      (fst (mapM (fun text =>
                    translate lower World post self text from_lang to_lang)
                 texts w)).
Proof.
  induction texts as [|t rest IH]; intros w H; [constructor|].
  inversion H as [|? ? Ht Hrest]; subst.
  cbn [mapM]. unfold bind.
  pose proof (translate_not_blank self t from_lang to_lang w Ht) as H1.
  destruct (translate lower World post self t from_lang to_lang w)
    as [r w1].
  specialize (IH w1 Hrest).
  destruct (mapM _ rest w1) as [rs w2].
  constructor; [exact H1|exact IH].
Qed.

Lemma Forall_skipn {A} (P : A -> Prop) (k : nat) (l : list A) :
  List.Forall P l -> List.Forall P (skipn k l).
Proof.
  intros H. rewrite <- (firstn_skipn k l) in H.
  apply List.Forall_app in H. tauto.
Qed.

(** When the response holds no more usable fragments than there are
    texts, or the request fails, the batch holds exactly one entry for
    each text. *)
Theorem batch_translate_count (self : Translator) (texts : list (list N))
    (from_lang to_lang : string) (w : World) :
  match fst (post (api_url self) (model_name self)
                  (get_prompt self (join (u "|||") texts)
                              from_lang to_lang true) w) with
  | Some response =>
      (length (usable_fragments response) <= length texts)%nat
  | None => True
  end ->
  length (fst (batch_translate lower World post self texts
                               from_lang to_lang w))
  = length texts.
Proof.
  intros H. unfold batch_translate.
  destruct texts as [|t texts]; [reflexivity|].
  cbv zeta. unfold bind.
  destruct (post _ _ _ w) as [[response|] w']; cbn [fst] in H.
  - fold (usable_fragments response).
    pose proof (clean_all_length self (t :: texts) from_lang to_lang
                  (usable_fragments response) 0 []) as Hlen.
    set (cleaned := clean_all lower self (t :: texts) from_lang to_lang 0
                      (usable_fragments response) []) in *.
    cbn [length Nat.add] in Hlen.
    destruct (length cleaned =? length (t :: texts))%nat eqn:E.
    + apply Nat.eqb_eq in E. exact E.
    + rewrite backfill_length, length_skipn. cbn [length] in *. lia.
  - apply mapM_length.
Qed.

(** When no text of the batch is blank, no entry of the result is. *)
Theorem batch_translate_never_blank (self : Translator)
    (texts : list (list N)) (from_lang to_lang : string) (w : World) :
  List.Forall not_blank texts ->
  List.Forall not_blank
    (fst (batch_translate lower World post self texts from_lang to_lang w)).
Proof.
  intros H. unfold batch_translate.
  destruct texts as [|t texts]; [constructor|].
  cbv zeta. unfold bind.
  destruct (post _ _ _ w) as [[response|] w'].
  - fold (usable_fragments response).
    pose proof (clean_all_not_blank self (t :: texts) from_lang to_lang
                  (usable_fragments response) 0 []
                  (@List.Forall_nil _ not_blank)) as Hc.
    set (cleaned := clean_all lower self (t :: texts) from_lang to_lang 0
                      (usable_fragments response) []) in *.
    destruct (length cleaned =? length (t :: texts))%nat; [exact Hc|].
    apply backfill_not_blank; [exact Hc|].
    apply Forall_skipn. exact H.
  - apply translate_all_not_blank. exact H.
Qed.

End Requests.

Lemma translate_blank_unchanged_witness :
  translate ascii_lower unit backend_greeting qwen_translator (u "  ")
            "zh" "en" tt
  = (u "  ", tt).
Proof.
  apply (translate_blank_unchanged ascii_lower unit backend_greeting
           qwen_translator (u "  ") "zh" "en" tt).
  reflexivity.
Defined.

Lemma batch_translate_count_witness :
  length (fst (batch_translate ascii_lower unit backend_greeting
                 qwen_translator [u "你好"; u "世界"] "zh" "en" tt))
  = 2%nat.
Proof.
  apply (batch_translate_count ascii_lower unit backend_greeting
           qwen_translator [u "你好"; u "世界"] "zh" "en" tt).
  vm_compute. lia.
Defined.

Lemma batch_translate_never_blank_witness :
  List.Forall not_blank
    (fst (batch_translate ascii_lower unit backend_blank qwen_translator
            [u "你好"] "zh" "en" tt)).
Proof.
  apply (batch_translate_never_blank ascii_lower unit backend_blank
           qwen_translator [u "你好"] "zh" "en" tt).
  constructor; [reflexivity|constructor].
Defined.

(** ** set_auto_fit: the recursion over the groups *)

Lemma depth_bound (root root' g g' : elem) (d : nat) :
  List.NoDup (ids root) -> depth_kept root root' ->
  In g (iter root) -> (gdepth g <= d)%nat ->
  In g' (iter root') -> eid g' = eid g -> (gdepth g' <= d)%nat.
Proof.
  intros Hnd Hkept Hg Hd Hg' Hid.
  destruct (Hkept g' Hg') as [H0|[y [Hy [Ey Ly]]]]; [lia|].
  assert (y = g) as -> by
    (apply (unique_by_id root y g Hnd Hy Hg); congruence).
  lia.
Qed.

Lemma step_ok_depth (root r : elem) (n m : nat) :
  step_ok root n (r, m) -> depth_kept root r.
Proof. intros [_ [_ [_ [_ [H _]]]]]. exact H. Qed.

(** The loop over the groups of a parent, for two bounds of the recursion
    that give the same result on every group. *)
Lemma groups_loop_fuel (f1 f2 : nat) :
  (forall parent root n,
      well_formed root n ->
      (forall pe, get parent root = Some pe ->
                  (gdepth pe < f1)%nat /\ (gdepth pe < f2)%nat) ->
      process_shapes f1 parent root n = process_shapes f2 parent root n) ->
  forall (r0 : elem) (gs : list elem) (r : elem) (n : nat),
    List.NoDup (ids r0) -> well_formed r n -> depth_kept r0 r ->
    (forall g, In g gs ->
               In g (iter r0) /\ (gdepth g < f1)%nat /\ (gdepth g < f2)%nat) ->
    foldM (fun r grp_sp =>
             process_shapes f1 (eid grp_sp) (fix_group (eid grp_sp) r))
          gs r n
    = foldM (fun r grp_sp =>
               process_shapes f2 (eid grp_sp) (fix_group (eid grp_sp) r))
            gs r n.
Proof.
  intros IH r0 gs. induction gs as [|g gs IHgs]; intros r n Hnd Hwf Hkept Hgs;
    [reflexivity|].
  cbn [foldM]. unfold bind.
  pose proof (fix_group_step (eid g) r n Hwf) as Hfix.
  destruct (Hgs g (or_introl eq_refl)) as [Hg [H1 H2]].
  assert (depth_kept r0 (fix_group (eid g) r)) as Hkept1
    by exact (depth_kept_trans _ _ _ Hkept (step_ok_depth _ _ _ _ Hfix)).
  rewrite (IH (eid g) (fix_group (eid g) r) n (proj1 Hfix)).
  - pose proof (process_shapes_step f2 (eid g) (fix_group (eid g) r) n
                  (proj1 Hfix)) as Hrec.
    destruct (process_shapes f2 (eid g) (fix_group (eid g) r) n)
      as [r2 n2].
    apply IHgs; [exact Hnd|exact (proj1 Hrec)| |].
    + exact (depth_kept_trans _ _ _ Hkept1 (step_ok_depth _ _ _ _ Hrec)).
    + intros g0 Hg0. apply Hgs. right. exact Hg0.
  - intros pe Hpe. apply get_In in Hpe. destruct Hpe as [Hpe Hid].
    pose proof (depth_bound r0 _ g pe (gdepth g) Hnd Hkept1 Hg
                  (Nat.le_refl _) Hpe Hid).
    lia.
Qed.

Lemma process_shapes_fuel (f1 : nat) :
  forall f2 parent root n,
    well_formed root n ->
    (forall pe, get parent root = Some pe ->
                (gdepth pe < f1)%nat /\ (gdepth pe < f2)%nat) ->
    process_shapes f1 parent root n = process_shapes f2 parent root n.
Proof.
  induction f1 as [|f1 IH]; intros f2 parent root n Hwf Hb.
  - destruct (get parent root) as [pe|] eqn:E;
      [destruct (Hb pe eq_refl); lia|].
    destruct f2; cbn [process_shapes]; [reflexivity|].
    rewrite E. reflexivity.
  - destruct f2 as [|f2].
    + destruct (get parent root) as [pe|] eqn:E;
        [destruct (Hb pe eq_refl); lia|].
      cbn [process_shapes]. rewrite E. reflexivity.
    + cbn [process_shapes].
      destruct (get parent root) as [pe|] eqn:E; [|reflexivity].
      destruct (Hb pe eq_refl) as [B1 B2].
      apply get_In in E. destruct E as [Hpe Hid].
      unfold bind.
      pose proof (foldM_step_ok
                    (fun r sp => _set_shape_auto_fit (eid sp) r)
                    (findall_desc "p:sp" pe)
                    (fun r n x => set_shape_auto_fit_step (eid x) r n)
                    root n Hwf) as H1.
      destruct (foldM _ (findall_desc "p:sp" pe) root n) as [r1 n1].
      destruct (get parent r1) as [pe1|] eqn:E1; [|reflexivity].
      apply get_In in E1. destruct E1 as [Hpe1 Hid1].
      pose proof (depth_bound root r1 pe pe1 (gdepth pe) (proj1 Hwf)
                    (step_ok_depth _ _ _ _ H1) Hpe (Nat.le_refl _) Hpe1
                    ltac:(congruence)) as Hd.
      apply (groups_loop_fuel f1 f2 (fun p r m => IH f2 p r m) r1);
        [exact (proj1 (proj1 H1))|exact (proj1 H1)|apply depth_kept_refl|].
      intros g Hg. apply findall_desc_In in Hg. destruct Hg as [Hg Hgt].
      assert (is_group g = true) as Hgrp
        by (unfold is_group, has_tag; apply String.eqb_eq; exact Hgt).
      pose proof (gdepth_descendant g pe1 Hg Hgrp).
      split; [|lia].
      apply (In_iter_trans g pe1 r1); [right; exact Hg|exact Hpe1].
Qed.

(** The recursion of [process_shapes] goes no deeper than the groups are
    nested: with any bound above the nesting depth of the document the
    result is that of [set_auto_fit], whose own bound is therefore never
    reached. *)
Theorem set_auto_fit_fuel (root : elem) (n fuel : nat) :
  well_formed root n -> (gdepth root < fuel)%nat ->
  process_shapes fuel (eid root) root n = set_auto_fit root n.
Proof.
  intros Hwf Hfuel. unfold set_auto_fit.
  apply process_shapes_fuel; [exact Hwf|].
  intros pe Hpe. rewrite get_self in Hpe. injection Hpe as <-. lia.
Qed.

Lemma set_auto_fit_fuel_witness :
  process_shapes 40 (eid slide_groups) slide_groups 13%nat
  = set_auto_fit slide_groups 13%nat.
Proof.
  apply (set_auto_fit_fuel slide_groups 13%nat 40
           (well_formed_b_correct slide_groups 13%nat eq_refl)).
  vm_compute. lia.
Defined.

(** In a document in which the auto-fit markers have no children, every
    group of the given tree is still a group of the tree that
    [set_auto_fit] returns, and its transform has lost [cx] and [cy] and
    kept every other attribute. *)
Theorem set_auto_fit_treats_every_group (root : elem) (n : nat) :
  well_formed root n -> tag root <> "p:grpSp" -> markers_leaves root ->
  forall g, In g (iter root) -> is_group g = true ->
    exists g', In g' (iter (fst (set_auto_fit root n)))
      /\ eid g' = eid g /\ is_group g' = true
      /\ match group_xfrm g, group_xfrm g' with
         | Some x, Some x' =>
             eid x' = eid x
             /\ attrib x' = delete "cy" (delete "cx" (attrib x))
         | None, None => True
         | _, _ => False
         end.
Proof.
  intros Hwf Hroot Hml g Hg Hgrp.
  unfold set_auto_fit. cbn [process_shapes].
  rewrite get_self. unfold bind.
  pose proof (foldM_step_ok
                (fun r sp => _set_shape_auto_fit (eid sp) r)
                (findall_desc "p:sp" root)
                (fun r n x => set_shape_auto_fit_step (eid x) r n)
                root n Hwf) as H1.
  destruct (foldM _ (findall_desc "p:sp" root) root n) as [r1 n1].
  destruct H1 as [Hwf1 [_ [Hkept1 [Hid1 [_ Hfw1]]]]]. cbn [fst snd] in *.
  destruct (Hfw1 Hml) as [Hml1 Hstay1].
  rewrite <- Hid1, get_self.
  destruct (groups_loop_done (gdepth root) (findall_desc "p:grpSp" r1)
              r1 n1 Hwf1) as [[Hwf2 [_ [Hkept2 [_ [_ Hfw2]]]]] Hdone].
  set (res := foldM _ (findall_desc "p:grpSp" r1) r1 n1) in *.
  destruct (Hfw2 Hml1) as [_ Hstay2].
  destruct (Hstay1 g Hg Hgrp) as [g1 [Hg1 [Eg1 Hgrp1]]].
  destruct (Hstay2 g1 Hg1 Hgrp1) as [g' [Hg' [Eg' Hgrp']]].
  exists g'. split; [exact Hg'|]. split; [congruence|].
  split; [exact Hgrp'|].
  destruct (Hkept2 g' Hg' Hgrp') as [h1 [Hh1 [Eh1 [_ Hrel2]]]].
  assert (h1 = g1) as ->
    by (apply (unique_by_id r1 h1 g1 (proj1 Hwf1) Hh1 Hg1); congruence).
  destruct (Hkept1 g1 Hg1 Hgrp1) as [h [Hh [Eh [_ Hrel1]]]].
  assert (h = g) as ->
    by (apply (unique_by_id root h g (proj1 Hwf) Hh Hg); congruence).
  pose proof (xfrm_rel_trans _ _ _ Hrel1 Hrel2) as Hrel.
  assert (In g1 (findall_desc "p:grpSp" r1)) as Hlist.
  { apply findall_desc_In. split.
    - destruct Hg1 as [<-|Hg1]; [|exact Hg1].
      exfalso. apply Hroot.
      assert (g = root) as ->.
      { apply (unique_by_id root g root (proj1 Hwf) Hg (In_iter_self root)).
        congruence. }
      unfold is_group, has_tag in Hgrp. apply String.eqb_eq. exact Hgrp.
    - unfold is_group, has_tag in Hgrp1. apply String.eqb_eq. exact Hgrp1. }
  pose proof (Hdone g1 Hlist) as Hd.
  destruct (group_xfrm g) as [x|], (group_xfrm g') as [x'|] eqn:Ex';
    cbn in Hrel |- *; try tauto.
  destruct Hrel as [Hxid Hattrs].
  destruct (Hd g' x' Hg' Eg' Hgrp' Ex') as [Hcx Hcy].
  split; [congruence|]. exact (transform_after _ _ Hattrs Hcx Hcy).
Qed.

Lemma slide_groups_markers : markers_leaves slide_groups.
Proof.
  intros m Hm Hmark.
  cbv [slide_groups iter descendants app In] in Hm.
  repeat (destruct Hm as [<-|Hm]; [first [reflexivity|discriminate]|]).
  destruct Hm.
Qed.

Lemma set_auto_fit_treats_every_group_witness :
  exists g', In g' (iter (fst (set_auto_fit slide_groups 13%nat)))
    /\ eid g' = 10%nat /\ is_group g' = true
    /\ match group_xfrm g' with
       | Some x' =>
           eid x' = 12%nat
           /\ attrib x' = delete "cy" (delete "cx"
                            (<["off" := u "7,7"]> {["cy" := u "9"]}))
       | None => False
       end.
Proof.
  exact (set_auto_fit_treats_every_group slide_groups 13%nat
           (well_formed_b_correct slide_groups 13%nat eq_refl)
           ltac:(discriminate) slide_groups_markers
           (Elem 10 "p:grpSp" ∅ None
             [Elem 11 "p:grpSpPr" ∅ None
                [Elem 12 "a:xfrm" (<["off" := u "7,7"]> {["cy" := u "9"]})
                   None []]])
           ltac:(cbv [slide_groups iter descendants app In]; tauto)
           eq_refl).
Defined.

(** ** _set_shape_auto_fit: the text-body properties and the transform *)

Lemma filter_all {A} (p : A -> bool) (l : list A) :
  (forall x, In x l -> p x = true) -> List.filter p l = l.
Proof.
  induction l as [|a l IH]; intros H; [reflexivity|].
  cbn. rewrite (H a (or_introl eq_refl)). f_equal.
  apply IH. intros x Hx. apply H. right. exact Hx.
Qed.

Lemma filter_twice {A} (p q : A -> bool) (l : list A) :
  List.filter p (List.filter q l) = List.filter (fun x => q x && p x) l.
Proof.
  induction l as [|a l IH]; [reflexivity|].
  cbn. destruct (q a); cbn; [destruct (p a)|]; rewrite IH; reflexivity.
Qed.

Lemma NoDup_map_filter {A B} (f : A -> B) (p : A -> bool) (l : list A) :
  List.NoDup (List.map f l) -> List.NoDup (List.map f (List.filter p l)).
Proof.
  induction l as [|a l IH]; intros H; [constructor|].
  cbn in H. apply List.NoDup_cons_iff in H. destruct H as [Hn Hl].
  cbn. destruct (p a); [|exact (IH Hl)].
  cbn. constructor; [|exact (IH Hl)].
  intros Hin. apply Hn. apply in_map_iff in Hin.
  destruct Hin as [x [Hx Hin]]. apply filter_In in Hin.
  apply in_map_iff. exists x. tauto.
Qed.

(** Among children that are distinct elements, [remove] takes out the
    one with the given identity and nothing else. *)
Lemma remove_first_filter (i : nat) (ks : list elem) :
  List.NoDup (List.map eid ks) ->
  remove_first i ks = List.filter (fun k => negb (eid k =? i)%nat) ks.
Proof.
  induction ks as [|k ks IH]; intros H; [reflexivity|].
  cbn in H. apply List.NoDup_cons_iff in H. destruct H as [Hn Hks].
  cbn [remove_first List.filter].
  destruct (Nat.eqb_spec (eid k) i) as [E|E]; cbn [negb].
  - symmetry. apply filter_all. intros x Hx.
    apply negb_true_iff, Nat.eqb_neq. intros Hxi.
    apply Hn. apply in_map_iff. exists x. split; [congruence|exact Hx].
  - f_equal. exact (IH Hks).
Qed.

Lemma fold_remove_filter (xs : list elem) :
  forall e, List.NoDup (List.map eid (kids e)) ->
    kids (fold_left (fun b x => remove (eid x) b) xs e)
    = List.filter (fun k => negb (existsb (fun x => (eid k =? eid x)%nat) xs))
                  (kids e).
Proof.
  induction xs as [|x xs IH]; intros e Hnd.
  - cbn. symmetry. apply filter_all. reflexivity.
  - cbn [fold_left]. rewrite IH.
    + cbn [remove set_kids kids]. rewrite (remove_first_filter _ _ Hnd).
      rewrite filter_twice. apply filter_ext. intros k. cbn [existsb].
      rewrite negb_orb. reflexivity.
    + cbn [remove set_kids kids]. rewrite (remove_first_filter _ _ Hnd).
      apply NoDup_map_filter. exact Hnd.
Qed.

Lemma remove_all_filter (t : string) (e : elem) :
  List.NoDup (List.map eid (kids e)) ->
  kids (remove_all t e)
  = List.filter (fun k => negb (has_tag t k)) (kids e).
Proof.
  intros Hnd. unfold remove_all. rewrite (fold_remove_filter _ _ Hnd).
  apply filter_ext_in. intros k Hk. f_equal.
  destruct (has_tag t k) eqn:Ht.
  - apply existsb_exists. exists k. split; [|apply Nat.eqb_refl].
    unfold findall_child. apply filter_In. auto.
  - destruct (existsb _ _) eqn:Ex; [|reflexivity].
    apply existsb_exists in Ex. destruct Ex as [x [Hx Hid]].
    apply Nat.eqb_eq in Hid. unfold findall_child in Hx.
    apply filter_In in Hx. destruct Hx as [Hx Htx].
    assert (k = x) as ->; [|congruence].
    clear Ht Htx. induction (kids e) as [|a l IH]; [destruct Hk|].
    cbn in Hnd. apply List.NoDup_cons_iff in Hnd. destruct Hnd as [Hn Hl].
    destruct Hk as [->|Hk], Hx as [->|Hx]; [reflexivity| | |auto].
    + exfalso. apply Hn. apply in_map_iff. exists x. auto.
    + exfalso. apply Hn. apply in_map_iff. exists k. auto.
Qed.

Lemma remove_all_attrib (t : string) (e : elem) :
  attrib (remove_all t e) = attrib e /\ text (remove_all t e) = text e.
Proof.
  unfold remove_all. generalize (findall_child t e) as l.
  intros l. revert e. induction l as [|x l IH]; intros e; [auto|].
  cbn [fold_left]. destruct (IH (remove (eid x) e)) as [-> ->]. auto.
Qed.

(** What [_set_shape_auto_fit] makes of the text-body properties whose
    children are distinct elements: the auto-fit markers that were there
    are gone, the other children are kept in their order, and one new
    [spAutoFit] marker is the last child; [w] and [h] are deleted and the
    four layout attributes are set. *)
Theorem body_pr_auto_fit_result (body_pr : elem) (n : nat) :
  List.NoDup (List.map eid (kids body_pr)) ->
  let r := body_pr_auto_fit body_pr n in
  snd r = S n
  /\ eid (fst r) = eid body_pr /\ tag (fst r) = tag body_pr
  /\ text (fst r) = text body_pr
  /\ kids (fst r)
     = List.filter (fun k => negb (is_marker k)) (kids body_pr)
       ++ [Elem n "a:spAutoFit" ∅ None []]
  /\ attrib (fst r)
     = <["anchorCtr" := u "1"]> (<["anchor" := u "ctr"]>
         (<["rtlCol" := u "0"]> (<["wrap" := u "square"]>
            (delete "h" (delete "w" (attrib body_pr)))))).
Proof.
  intros Hnd. unfold body_pr_auto_fit, Element, bind, fresh, ret.
  cbn [fst snd fold_left set_attr append set_kids eid tag text kids attrib].
  set (e1 := remove_all "a:noAutofit" body_pr).
  set (e2 := remove_all "a:normAutofit" e1).
  set (e3 := remove_all "a:spAutoFit" e2).
  assert (kids e1 = List.filter (fun k => negb (has_tag "a:noAutofit" k))
                                (kids body_pr)) as K1
    by (apply remove_all_filter; exact Hnd).
  assert (List.NoDup (List.map eid (kids e1))) as Hnd1
    by (rewrite K1; apply NoDup_map_filter; exact Hnd).
  assert (kids e2 = List.filter (fun k => negb (has_tag "a:normAutofit" k))
                                (kids e1)) as K2
    by (apply remove_all_filter; exact Hnd1).
  assert (List.NoDup (List.map eid (kids e2))) as Hnd2
    by (rewrite K2; apply NoDup_map_filter; exact Hnd1).
  assert (kids e3 = List.filter (fun k => negb (has_tag "a:spAutoFit" k))
                                (kids e2)) as K3
    by (apply remove_all_filter; exact Hnd2).
  destruct (remove_all_same "a:noAutofit" body_pr) as [A1 [A2 _]].
  destruct (remove_all_same "a:normAutofit" e1) as [B1 [B2 _]].
  destruct (remove_all_same "a:spAutoFit" e2) as [C1 [C2 _]].
  destruct (remove_all_attrib "a:noAutofit" body_pr) as [A3 A4].
  destruct (remove_all_attrib "a:normAutofit" e1) as [B3 B4].
  destruct (remove_all_attrib "a:spAutoFit" e2) as [C3 C4].
  fold e1 in A1, A2, A3, A4. fold e2 in B1, B2, B3, B4.
  fold e3 in C1, C2, C3, C4.
  destruct (del_if_present_same e3 "w") as [D1 [D2 D3]].
  destruct (del_if_present_same (del_if_present e3 "w") "h")
    as [E1 [E2 E3]].
  split; [reflexivity|].
  split; [congruence|]. split; [congruence|].
  split.
  { unfold del_if_present.
    destruct (has_attr "h" _), (has_attr "w" e3); cbn; congruence. }
  split.
  - rewrite E3, D3, K3, K2, K1, !filter_twice. f_equal.
    apply filter_ext. intros k. unfold is_marker.
    destruct (has_tag "a:noAutofit" k), (has_tag "a:normAutofit" k),
      (has_tag "a:spAutoFit" k); reflexivity.
  - rewrite !del_if_present_attrib. congruence.
Qed.

Lemma body_pr_auto_fit_result_witness :
  List.map tag
    (kids (fst (body_pr_auto_fit
                  (Elem 7 "a:bodyPr" {["w" := u "9"]} None
                     [Elem 8 "a:normAutofit" ∅ None [];
                      Elem 9 "a:prstTxWarp" ∅ None []]) 20%nat)))
  = ["a:prstTxWarp"; "a:spAutoFit"].
Proof.
  pose proof (body_pr_auto_fit_result
                (Elem 7 "a:bodyPr" {["w" := u "9"]} None
                   [Elem 8 "a:normAutofit" ∅ None [];
                    Elem 9 "a:prstTxWarp" ∅ None []]) 20%nat) as H.
  destruct H as [_ [_ [_ [_ [H _]]]]].
  - cbn. repeat constructor; cbn; intuition discriminate.
  - rewrite H. reflexivity.
Defined.

(** The transform of a shape loses [cx] and [cy] and keeps every other
    attribute with its value; putting [off] and [ext] back changes
    nothing.  The element, its tag and its children are what they
    were. *)
Theorem sp_xfrm_fix_result (xfrm : elem) :
  attrib (sp_xfrm_fix xfrm) = delete "cy" (delete "cx" (attrib xfrm))
  /\ eid (sp_xfrm_fix xfrm) = eid xfrm
  /\ tag (sp_xfrm_fix xfrm) = tag xfrm
  /\ kids (sp_xfrm_fix xfrm) = kids xfrm.
Proof.
  split; [apply sp_xfrm_fix_attrib|apply sp_xfrm_fix_same].
Qed.

(** ** find_text_elements: what every block holds *)

Lemma paragraph_step_gathered (P : elem -> Prop) (p : elem)
    (st st' : list N * option StyleSpec * option elem) :
  P p -> gathered P st -> paragraph_step st p = Some st' -> gathered P st'.
Proof.
  destruct st as [[stxt style] first]. intros HP [H1 [H2 H3]].
  unfold paragraph_step.
  destruct (findall_desc "a:r" p) as [|r0 rs];
    [intros H; injection H as <-; repeat split; assumption|].
  destruct (runs_loop p (r0 :: rs) ([], style)) as [[ptxt style']|];
    [|discriminate].
  destruct (truthy (strip ptxt)) eqn:Et; intros H; injection H as <-;
    [|repeat split; assumption].
  pose proof (strip_truthy_tight ptxt Et) as Hp.
  split; [|split].
  - right. destruct H1 as [->|H1]; [exact Hp|].
    rewrite (tight_not_nil stxt H1), <- app_assoc.
    apply tight_join2; assumption.
  - intros _. destruct first; discriminate.
  - intros q Hq. destruct first as [f|].
    + apply H3. exact Hq.
    + injection Hq as <-. exact HP.
Qed.

Lemma paragraphs_loop_gathered (P : elem -> Prop) (ps : list elem) :
  (forall p, In p ps -> P p) ->
  forall st st',
    gathered P st -> paragraphs_loop ps st = Some st' -> gathered P st'.
Proof.
  induction ps as [|p ps IH]; intros HP st st' Hst H.
  - injection H as <-. exact Hst.
  - cbn [paragraphs_loop] in H.
    destruct (paragraph_step st p) as [st1|] eqn:E; [|discriminate].
    apply (IH (fun q Hq => HP q (or_intror Hq)) st1 st'); [|exact H].
    apply (paragraph_step_gathered P p st st1); [|exact Hst|exact E].
    apply HP. left. reflexivity.
Qed.

Lemma shape_block_holds (shape : elem) (b : TextBlock) :
  shape_block shape = Some (Some b) ->
  tight (tb_text b) = true
  /\ tb_style b <> None
  /\ tb_shape b = eid shape
  /\ exists p, In p (findall_desc "a:p" shape)
               /\ tb_paragraph b = Some (eid p).
Proof.
  unfold shape_block.
  destruct (findall_desc "a:p" shape) as [|p0 ps] eqn:Eps; [discriminate|].
  destruct (paragraphs_loop (p0 :: ps) ([], None, None))
    as [[[stxt style] first]|] eqn:EL; [|discriminate].
  assert (gathered (fun p => In p (p0 :: ps)) ([], None, None)) as H0
    by (repeat split; [left; reflexivity|discriminate|discriminate]).
  pose proof (paragraphs_loop_gathered (fun p => In p (p0 :: ps)) (p0 :: ps)
                (fun p Hp => Hp) _ _ H0 EL) as [H1 [H2 H3]].
  destruct (truthy (strip stxt)) eqn:Et; [|discriminate].
  intros H. injection H as <-. cbn [tb_text tb_style tb_shape tb_paragraph].
  assert (tight stxt = true) as Ht
    by (destruct H1 as [->|H1]; [discriminate|exact H1]).
  specialize (H2 (tight_not_nil _ Ht)).
  destruct first as [fp|]; [|congruence].
  split; [rewrite (strip_tight _ Ht); exact Ht|].
  split; [destruct style; discriminate|].
  split; [reflexivity|].
  exists fp. split; [exact (H3 fp eq_refl)|reflexivity].
Qed.

Lemma shapes_loop_blocks (shapes : list elem) :
  forall blocks b,
    shapes_loop shapes = Some blocks -> In b blocks ->
    exists shape, In shape shapes /\ shape_block shape = Some (Some b).
Proof.
  induction shapes as [|sh shapes IH]; intros blocks b H Hb.
  - injection H as <-. destruct Hb.
  - cbn [shapes_loop] in H.
    destruct (shape_block sh) as [ob|] eqn:E; [|discriminate].
    destruct (shapes_loop shapes) as [bs|]; [|discriminate].
    injection H as <-.
    destruct ob as [x|].
    + destruct Hb as [<-|Hb].
      * exists sh. split; [left; reflexivity|exact E].
      * destruct (IH bs b eq_refl Hb) as [s [Hs Hsb]].
        exists s. split; [right; exact Hs|exact Hsb].
    + destruct (IH bs b eq_refl Hb) as [s [Hs Hsb]].
      exists s. split; [right; exact Hs|exact Hsb].
Qed.

(** Every block that [find_text_elements] returns holds a text that is
    not empty and neither begins nor ends with white space, a style, the
    shape it was read from, which is a [p:sp] element below the root, and
    a paragraph of that shape. *)
Theorem find_text_elements_blocks (root : elem) (blocks : list TextBlock)
    (b : TextBlock) :
  find_text_elements root = Some blocks -> In b blocks ->
  tight (tb_text b) = true
  /\ tb_style b <> None
  /\ exists shape p,
       In shape (findall_desc "p:sp" root)
       /\ tb_shape b = eid shape
       /\ In p (findall_desc "a:p" shape)
       /\ tb_paragraph b = Some (eid p).
Proof.
  unfold find_text_elements. intros H Hb.
  destruct (shapes_loop_blocks _ _ b H Hb) as [shape [Hs Hsb]].
  destruct (shape_block_holds shape b Hsb) as [H1 [H2 [H3 [p [Hp Hpb]]]]].
  split; [exact H1|]. split; [exact H2|].
  exists shape, p. auto.
Qed.

Lemma find_text_elements_blocks_witness :
  tight (tb_text block_hello_world) = true
  /\ tb_style block_hello_world <> None
  /\ exists shape p,
       In shape (findall_desc "p:sp" slide_hello_empty_world)
       /\ tb_shape block_hello_world = eid shape
       /\ In p (findall_desc "a:p" shape)
       /\ tb_paragraph block_hello_world = Some (eid p).
Proof.
  apply (find_text_elements_blocks slide_hello_empty_world
           [block_hello_world] block_hello_world).
  - vm_compute. reflexivity.
  - left. reflexivity.
Defined.

(** ** create_translated_paragraphs: one paragraph for each line *)

Lemma copy_children_same (l : list elem) :
  forall tg n,
    let r := fst (foldM (fun tg child => c <- deep_copy child ;;
                                         ret (append c tg)) l tg n) in
    eid r = eid tg /\ tag r = tag tg /\ attrib r = attrib tg
    /\ text r = text tg.
Proof.
  induction l as [|k l IH]; intros tg n r; [cbn; auto|].
  subst r. cbn [foldM]. unfold bind, ret.
  destruct (deep_copy k n) as [c n1].
  exact (IH (append c tg) n1).
Qed.

Lemma adjust_attr_same (b : bool) (e : elem) (a : string) :
  eid (adjust_attr b e a) = eid e /\ tag (adjust_attr b e a) = tag e
  /\ text (adjust_attr b e a) = text e /\ kids (adjust_attr b e a) = kids e.
Proof.
  unfold adjust_attr. destruct (attrib e !! a) as [v|]; [|auto].
  destruct (py_int v); cbn; auto.
Qed.

Lemma adjust_attr_attrib (b : bool) (e e' : elem) (a : string) :
  attrib e' = attrib e ->
  attrib (adjust_attr b e' a) = attrib (adjust_attr b e a).
Proof.
  intros H. unfold adjust_attr. rewrite H.
  destruct (attrib e !! a) as [v|]; [|exact H].
  destruct (py_int v); [|exact H]. cbn. rewrite H. reflexivity.
Qed.

(** The element that [create_element_with_style] makes: a new element
    with no attribute and no text, whose only child, when the source has a
    style child, is a new style element with the attributes of that
    child. *)
Lemma create_element_with_style_shape (t : string) (src : option elem)
    (n : nat) :
  let e := fst (create_element_with_style t src n) in
  eid e = n /\ tag e = ("a:" ++ t)%string /\ attrib e = ∅ /\ text e = None
  /\ match match src with
           | Some s => find_child ("a:" ++ t ++ "Pr") s
           | None => None
           end, kids e with
     | Some style, [s'] =>
         eid s' = S n /\ tag s' = ("a:" ++ t ++ "Pr")%string
         /\ attrib s' = attrib style
     | None, [] => True
     | _, _ => False
     end.
Proof.
  unfold create_element_with_style, Element, fresh, bind, ret.
  destruct src as [s|]; [|cbn; auto].
  destruct (find_child ("a:" ++ t ++ "Pr") s) as [style|]; [|cbn; auto].
  unfold copy_element_style.
  pose proof (copy_children_same (kids style)
                (Elem (eid (Elem (S n) ("a:" ++ t ++ "Pr") ∅ None []))
                      (tag (Elem (S n) ("a:" ++ t ++ "Pr") ∅ None []))
                      (attrib style
                       ∪ attrib (Elem (S n) ("a:" ++ t ++ "Pr") ∅ None []))
                      (text (Elem (S n) ("a:" ++ t ++ "Pr") ∅ None []))
                      (kids (Elem (S n) ("a:" ++ t ++ "Pr") ∅ None [])))
                (S (S n))) as H.
  cbn zeta in H.
  destruct (foldM _ (kids style) _ (S (S n))) as [s' n'].
  cbn [fst eid tag attrib text kids] in H |- *.
  destruct H as [H1 [H2 [H3 _]]].
  cbn [append set_kids eid tag attrib text kids app].
  repeat split; try assumption.
  rewrite H3. apply (right_id_L ∅ (∪)).
Qed.

(** What [create_translated_paragraphs] makes of one line. *)
Lemma translated_paragraph_line (original_p : elem) (line : list N)
    (n : nat) :
  let p := fst (translated_paragraph original_p
                  (fst (find_element_with_style original_p "r"))
                  (snd (find_element_with_style original_p "r")) line n) in
  tag p = "a:p"
  /\ List.map run_view (findall_child "a:r" p)
     = [(translated_size original_p, Some line)].
Proof.
  unfold translated_paragraph, bind.
  pose proof (create_element_with_style_shape "p" (Some original_p) n) as Hp.
  destruct (create_element_with_style "p" (Some original_p) n)
    as [new_p n1].
  cbn [fst] in Hp. destruct Hp as [_ [Hpt [_ [_ Hpk]]]].
  pose proof (create_element_with_style_shape "r"
                (fst (find_element_with_style original_p "r")) n1) as Hr.
  destruct (create_element_with_style "r"
              (fst (find_element_with_style original_p "r")) n1)
    as [new_r n2].
  cbn [fst] in Hr. destruct Hr as [Hri [Hrt [_ [_ Hrk]]]].
  unfold Element, fresh, bind, ret. cbn [fst].
  unfold translated_size, find_element_with_style in *.
  change ("a:" ++ "r")%string with "a:r" in *.
  change ("a:" ++ "r" ++ "Pr")%string with "a:rPr" in *.
  change ("a:" ++ "p")%string with "a:p" in *.
  change ("a:" ++ "p" ++ "Pr")%string with "a:pPr" in *.
  set (new_t := set_text line (Elem n2 "a:t" ∅ None [])).
  assert (forall r', tag r' = "a:r" ->
            findall_child "a:r" (append r' new_p) = [r']) as Hone.
  { intros r' Hr'. unfold findall_child, append. cbn [set_kids kids].
    rewrite List.filter_app. cbn [List.filter]. unfold has_tag at 2.
    rewrite Hr'. cbn [String.eqb Ascii.eqb Bool.eqb].
    destruct (find_child "a:pPr" original_p) as [style|],
             (kids new_p) as [|s' [|]]; try tauto.
    destruct Hpk as [_ [Hs' _]]. cbn [List.filter]. unfold has_tag.
    rewrite Hs'. reflexivity. }
  split; [cbn; exact Hpt|].
  destruct (find_desc "a:r" original_p) as [r|]; cbn [fst snd] in *.
  - destruct (find_child "a:rPr" r) as [rPr|] eqn:ErPr.
    + destruct (kids new_r) as [|s' [|]] eqn:Ek; try tauto.
      destruct Hrk as [Hsi [Hst Hsa]].
      assert (find_child "a:rPr" new_r = Some s') as Ef
        by (unfold find_child, findall_child, has_tag; rewrite Ek; cbn;
            rewrite Hst; reflexivity).
      assert (get (eid s') new_r = Some s') as Eg.
      { unfold get. destruct new_r as [i t a x ks]. cbn in Ek, Hri.
        subst ks i. cbn. rewrite Hsi.
        destruct (Nat.eqb_spec n1 (S n1)) as [E|_]; [lia|].
        rewrite Nat.eqb_refl. reflexivity. }
      assert (forall f, modify_pure (eid s') f new_r
                        = set_kids [f s'] new_r) as Hm.
      { intros f. unfold modify_pure. rewrite Eg.
        destruct new_r as [i t a x ks]. cbn in Ek, Hri. subst ks i.
        cbn. rewrite Hsi.
        destruct (Nat.eqb_spec n1 (S n1)) as [E|_]; [lia|].
        rewrite replace_node_eq, Hsi, Nat.eqb_refl. reflexivity. }
      assert (forall r', tag r' = "a:r" ->
                forall q, tag q = "a:rPr" -> kids r' = [q] ->
                  run_view (append new_t r')
                  = (attrib q !! "sz", Some line)) as Hview.
      { intros r' Hr' q Hq Hk. unfold run_view, find_child, findall_child,
          append. cbn [set_kids kids]. rewrite Hk. cbn [app List.filter].
        unfold has_tag. rewrite Hq. cbn. reflexivity. }
      unfold sized.
      destruct (attrib rPr !! "sz") as [v|] eqn:Esz.
      * assert (has_attr "sz" rPr = true) as Hs
          by (unfold has_attr; rewrite Esz; reflexivity).
        rewrite Hs, Ef, Hm.
        rewrite Hone by (cbn; exact Hrt). cbn [List.map].
        rewrite (Hview (set_kids [adjust_element_font_size ["sz"] true s']
                                 new_r) Hrt
                   (adjust_element_font_size ["sz"] true s'));
          [|cbn [adjust_element_font_size fold_left];
            rewrite (proj1 (proj2 (adjust_attr_same true s' "sz")));
            exact Hst
           |reflexivity].
        cbn [adjust_element_font_size fold_left].
        rewrite (adjust_attr_attrib true rPr s' "sz" Hsa). reflexivity.
      * assert (has_attr "sz" rPr = false) as Hs
          by (unfold has_attr; rewrite Esz; reflexivity).
        rewrite Hs. rewrite Hone by exact Hrt. cbn [List.map].
        rewrite (Hview new_r Hrt s' Hst Ek).
        cbn [adjust_element_font_size fold_left]. unfold adjust_attr.
        rewrite Esz, Hsa, Esz. reflexivity.
    + destruct (kids new_r) as [|] eqn:Ek; try tauto.
      cbn [sized]. rewrite Hone by exact Hrt. cbn [List.map].
      unfold run_view, find_child, findall_child, append.
      cbn [set_kids kids]. rewrite Ek. cbn. reflexivity.
  - destruct (kids new_r) as [|] eqn:Ek; try tauto.
    cbn [sized]. rewrite Hone by exact Hrt. cbn [List.map].
    unfold run_view, find_child, findall_child, append.
    cbn [set_kids kids]. rewrite Ek. cbn. reflexivity.
Qed.

(** [create_translated_paragraphs] makes one paragraph for each line of
    the translated text, in the order of the lines.  Each is an [a:p]
    with exactly one run, whose text is the line and whose size is that of
    the first run of the original paragraph stepped down as for a
    translation. *)
Theorem create_translated_paragraphs_lines (original_p : elem)
    (translated_text : list N) (n : nat) :
  let ps := fst (create_translated_paragraphs original_p translated_text n) in
  List.map (fun p => List.map run_view (findall_child "a:r" p)) ps
  = List.map (fun line => [(translated_size original_p, Some line)])
             (split [LF] translated_text)
  /\ List.Forall (fun p => tag p = "a:p") ps.
Proof.
  unfold create_translated_paragraphs.
  pose proof (translated_paragraph_line original_p) as Hline.
  destruct (find_element_with_style original_p "r") as [original_r rPr].
  cbn [fst snd] in Hline.
  generalize (split [LF] translated_text) as lines. intros lines. revert n.
  induction lines as [|line lines IH]; intros n;
    [split; [reflexivity|constructor]|].
  cbn [mapM]. unfold bind, ret.
  specialize (Hline line n).
  destruct (translated_paragraph original_p original_r rPr line n)
    as [p n1].
  specialize (IH n1).
  destruct (mapM _ lines n1) as [ps n2].
  cbn [fst snd] in *. destruct Hline as [Ht Hv], IH as [IH1 IH2].
  split; [cbn [List.map]; rewrite Hv, IH1; reflexivity|].
  constructor; assumption.
Qed.

(** ** translate_slide: where the translated paragraphs are inserted *)

Lemma splice_firstn {A} (p : A) (ks : list A) :
  forall i, firstn (S i) (firstn i ks ++ p :: skipn i ks)
            = firstn i ks ++ [p].
Proof.
  induction ks as [|a ks IH]; intros [|i]; try reflexivity.
  cbn [firstn skipn app]. f_equal. exact (IH i).
Qed.

Lemma splice_skipn {A} (p : A) (ks : list A) :
  forall i, skipn (S i) (firstn i ks ++ p :: skipn i ks) = skipn i ks.
Proof.
  induction ks as [|a ks IH]; intros [|i]; try reflexivity.
  cbn [firstn skipn app]. exact (IH i).
Qed.

(** The loop of [parent.insert(index + 1 + i, translated_p)] puts the new
    children, in their order, between the first [index] children and the
    others; past the end it appends them. *)
Lemma insert_all_eq (new : list elem) :
  forall index parent,
    insert_all index new parent
    = set_kids (firstn index (kids parent) ++ new
                ++ skipn index (kids parent)) parent.
Proof.
  induction new as [|p new IH]; intros index parent.
  - cbn [insert_all app]. rewrite firstn_skipn. destruct parent. reflexivity.
  - cbn [insert_all]. rewrite IH. unfold insert.
    cbn [set_kids kids eid tag attrib text].
    rewrite splice_firstn, splice_skipn, <- app_assoc. reflexivity.
Qed.

Lemma index_of_split (i : nat) (children : list elem) :
  forall index, index_of i children = Some index ->
    exists c, eid c = i
      /\ firstn index children ++ c :: skipn (S index) children = children
      /\ firstn (S index) children = firstn index children ++ [c].
Proof.
  induction children as [|a l IH]; intros index H; [discriminate|].
  cbn [index_of] in H. destruct (Nat.eqb_spec (eid a) i) as [E|E].
  - injection H as <-. exists a. split; [exact E|split; reflexivity].
  - destruct (index_of i l) as [j|]; [|discriminate].
    injection H as <-. destruct (IH j eq_refl) as [c [Hc [Hs Hf]]].
    exists c. split; [exact Hc|].
    split.
    + cbn [firstn skipn app]. f_equal. exact Hs.
    + change (a :: firstn (S j) l = a :: (firstn j l ++ [c])).
      f_equal. exact Hf.
Qed.

Lemma index_of_In (x : elem) (children : list elem) :
  In x children -> index_of (eid x) children <> None.
Proof.
  induction children as [|a l IH]; intros H; [destruct H|].
  cbn [index_of]. destruct (Nat.eqb_spec (eid a) (eid x)) as [E|E];
    [discriminate|].
  destruct H as [->|H]; [congruence|].
  destruct (index_of (eid x) l); [discriminate|]. exact (IH H).
Qed.

Lemma descendant_parent (x : elem) :
  forall root, In x (descendants root) ->
    exists p, In p (iter root) /\ In x (kids p).
Proof.
  refine (elem_rect_kids _ _). intros i t a tx ks IH H.
  apply In_descendants in H. cbn [kids] in H.
  destruct H as [k [Hk [->|H]]].
  - exists (Elem i t a tx ks). split; [apply In_iter_self|exact Hk].
  - rewrite List.Forall_forall in IH.
    destruct (IH k Hk H) as [p [Hp Hx]].
    exists p. split; [|exact Hx].
    apply (In_iter_kid p k (Elem i t a tx ks)); assumption.
Qed.

Lemma find_found {A} (f : A -> bool) (l : list A) (x : A) :
  In x l -> f x = true ->
  exists y, List.find f l = Some y /\ In y l /\ f y = true.
Proof.
  intros Hx Hf. destruct (List.find f l) as [y|] eqn:E.
  - exists y. split; [reflexivity|]. exact (find_some _ _ E).
  - rewrite (find_none _ _ E x Hx) in Hf. discriminate.
Qed.

(** In a document the element that has a given child is the parent of
    that child. *)
Lemma child_unique (root p x : elem) :
  List.NoDup (ids root) -> In p (iter root) -> In x (iter root) ->
  is_child (eid x) p = true -> In x (kids p).
Proof.
  intros Hnd Hp Hx Hc. unfold is_child in Hc.
  apply existsb_exists in Hc. destruct Hc as [k [Hk Hid]].
  apply Nat.eqb_eq in Hid.
  assert (k = x) as <-; [|exact Hk].
  apply (unique_by_id root k x Hnd); [|exact Hx|exact Hid].
  apply (In_iter_trans k p root); [|exact Hp].
  apply (In_iter_kid k k p Hk). apply In_iter_self.
Qed.

Lemma dedup_by_id_sub (l : list elem) :
  forall seen y, In y (dedup_by_id seen l) -> In y l.
Proof.
  induction l as [|a l IH]; intros seen y H; [destruct H|].
  cbn [dedup_by_id] in H.
  destruct (existsb (Nat.eqb (eid a)) seen).
  - right. exact (IH _ _ H).
  - destruct H as [->|H]; [left; reflexivity|right; exact (IH _ _ H)].
Qed.

Lemma dedup_by_id_keeps (l : list elem) :
  forall seen x, In x l -> existsb (Nat.eqb (eid x)) seen = false ->
    exists y, In y (dedup_by_id seen l) /\ eid y = eid x.
Proof.
  induction l as [|a l IH]; intros seen x Hx Hs; [destruct Hx|].
  cbn [dedup_by_id].
  destruct (existsb (Nat.eqb (eid a)) seen) eqn:Ea.
  - destruct Hx as [->|Hx]; [congruence|]. exact (IH seen x Hx Hs).
  - destruct Hx as [->|Hx]; [exists x; split; [left|]; reflexivity|].
    destruct (Nat.eqb_spec (eid x) (eid a)) as [E|E].
    + exists a. split; [left; reflexivity|congruence].
    + destruct (IH (eid a :: seen) x Hx) as [y [Hy Hid]].
      * cbn [existsb]. rewrite Hs.
        destruct (Nat.eqb_spec (eid x) (eid a)); [contradiction|reflexivity].
      * exists y. split; [right; exact Hy|exact Hid].
Qed.

Lemma In_findall_parents (t : string) (root y : elem) :
  In y (findall_parents t root) -> In y (iter root).
Proof.
  intros H. apply dedup_by_id_sub in H.
  apply list_elem_of_In, list_elem_of_omap in H.
  destruct H as [x [_ Hx]]. unfold parent_of in Hx.
  exact (proj1 (find_some _ _ Hx)).
Qed.

(** In a document, the translated paragraphs of a block are put right
    after the last paragraph of its shape, in their order, among the
    children of the parent of that paragraph; nothing else of the document
    changes. *)
Theorem insert_translation_after_last (shape : nat)
    (translated_paragraphs : list elem) (root sh last_p : elem) :
  List.NoDup (ids root) ->
  get shape root = Some sh ->
  last (findall_desc "a:p" sh) = Some last_p ->
  exists parent before after,
    In parent (iter root)
    /\ kids parent = before ++ last_p :: after
    /\ insert_translation shape translated_paragraphs root
       = replace_node (eid parent)
           (set_kids (before ++ last_p :: translated_paragraphs ++ after)
                     parent) root.
Proof.
  intros Hnd Hsh Hlast. unfold insert_translation. rewrite Hsh, Hlast.
  apply get_In in Hsh. destruct Hsh as [Hsh _].
  apply last_Some in Hlast. destruct Hlast as [l' Hl].
  assert (In last_p (findall_desc "a:p" sh)) as Hin
    by (rewrite Hl; apply in_or_app; right; left; reflexivity).
  apply findall_desc_In in Hin. destruct Hin as [Hd Htag].
  assert (In last_p (descendants root)) as Hdr.
  { destruct Hsh as [<-|Hsh]; [exact Hd|].
    exact (In_descendants_trans _ _ _ Hd Hsh). }
  assert (In last_p (iter root)) as Hir by (right; exact Hdr).
  destruct (descendant_parent last_p root Hdr) as [p0 [Hp0 Hk0]].
  assert (is_child (eid last_p) p0 = true) as Hc0.
  { unfold is_child. apply existsb_exists. exists last_p.
    split; [exact Hk0|apply Nat.eqb_refl]. }
  destruct (find_found (is_child (eid last_p)) (iter root) p0 Hp0 Hc0)
    as [p1 [Ep1 [Hp1 Hc1]]].
  assert (In p1 (omap (fun x => parent_of (eid x) root)
                      (findall_desc "a:p" root))) as Hom.
  { apply list_elem_of_In, list_elem_of_omap. exists last_p. split.
    - apply list_elem_of_In, findall_desc_In. auto.
    - exact Ep1. }
  destruct (dedup_by_id_keeps _ [] p1 Hom eq_refl) as [y [Hy Hid]].
  fold (findall_parents "a:p" root) in Hy.
  assert (y = p1) as ->.
  { apply (unique_by_id root y p1 Hnd); [|exact Hp1|exact Hid].
    exact (In_findall_parents _ _ _ Hy). }
  destruct (find_found (is_child (eid last_p)) _ p1 Hy Hc1)
    as [parent [Ef [Hpar Hcp]]].
  rewrite Ef. apply In_findall_parents in Hpar.
  pose proof (child_unique root parent last_p Hnd Hpar Hir Hcp) as Hkid.
  destruct (index_of (eid last_p) (kids parent)) as [index|] eqn:Ei;
    [|exact (False_ind _ (index_of_In _ _ Hkid Ei))].
  destruct (index_of_split _ _ _ Ei) as [c [Hc [Hs Hf]]].
  assert (c = last_p) as ->.
  { apply (unique_by_id root c last_p Hnd); [|exact Hir|exact Hc].
    apply (In_iter_trans c parent root); [|exact Hpar].
    apply (In_iter_kid c c parent); [|apply In_iter_self].
    rewrite <- Hs. apply in_or_app. right. left. reflexivity. }
  exists parent, (firstn index (kids parent)),
    (skipn (S index) (kids parent)).
  split; [exact Hpar|]. split; [symmetry; exact Hs|].
  unfold modify_pure. rewrite (get_of_In root parent Hnd Hpar).
  rewrite insert_all_eq, Hf, <- app_assoc. reflexivity.
Qed.

Lemma insert_translation_after_last_witness :
  exists parent before after,
    In parent (iter slide_hello_world)
    /\ kids parent
       = before ++ Elem 13 "a:p" ∅ None [sized_run 14 "2400" "World"]
                :: after
    /\ insert_translation 3 [Elem 20 "a:p" ∅ None []] slide_hello_world
       = replace_node (eid parent)
           (set_kids (before
                      ++ Elem 13 "a:p" ∅ None [sized_run 14 "2400" "World"]
                         :: [Elem 20 "a:p" ∅ None []] ++ after)
                     parent) slide_hello_world.
Proof.
  eapply (insert_translation_after_last 3 [Elem 20 "a:p" ∅ None []]
            slide_hello_world).
  - exact (proj1 (well_formed_b_correct slide_hello_world 17%nat eq_refl)).
  - reflexivity.
  - vm_compute. reflexivity.
Defined.

(** ** translate_slide: the lines of a translation *)

Lemma segment_loop_count (scaled : Z -> Z) (txt : list N) (breaks : list Z) :
  forall last_pos lines,
    (length (snd (segment_loop scaled txt breaks last_pos lines))
     <= length lines + length breaks)%nat.
Proof.
  induction breaks as [|b breaks IH]; intros last_pos lines;
    [cbn; lia|].
  cbn [segment_loop length].
  destruct (scaled b <? len txt).
  - destruct (truthy (strip (slice txt last_pos (snap txt (scaled b))))).
    + pose proof (IH (snap txt (scaled b))
                    (lines ++ [strip (slice txt last_pos
                                        (snap txt (scaled b)))])) as H.
      rewrite length_app in H. cbn [length] in H. lia.
    + pose proof (IH (snap txt (scaled b)) lines). lia.
  - pose proof (IH last_pos lines). lia.
Qed.

Lemma segment_with_count (scaled : Z -> Z) (breaks : list Z) (txt : list N) :
  (length (segment_with scaled breaks txt) <= S (length breaks))%nat.
Proof.
  unfold segment_with.
  pose proof (segment_loop_count scaled txt breaks 0 []) as H.
  destruct (segment_loop scaled txt breaks 0 []) as [last_pos lines].
  cbn [snd length] in H.
  destruct (last_pos <? len txt); [|lia].
  destruct (truthy (strip (slice_from txt last_pos))); [|lia].
  rewrite length_app. cbn [length]. lia.
Qed.

Lemma line_breaks_from_length (lines : list (list N)) :
  forall cur, length (line_breaks_from cur lines) = length lines.
Proof.
  induction lines as [|l lines IH]; intros cur; [reflexivity|].
  cbn [line_breaks_from length]. rewrite IH. reflexivity.
Qed.

(** A translation is cut into at most one line more than the original
    text has lines, whatever the positions the breaks are scaled to. *)
Theorem resegment_line_count (original_text translated_text : list N) :
  (length (resegment original_text translated_text)
   <= S (length (split [LF] original_text)))%nat
  /\ forall scaled,
       (length (segment_with scaled (line_breaks original_text)
                             translated_text)
        <= S (length (split [LF] original_text)))%nat.
Proof.
  assert (length (line_breaks original_text)
          = length (split [LF] original_text)) as E
    by apply line_breaks_from_length.
  split; [unfold resegment|intros scaled]; rewrite <- E;
    apply segment_with_count.
Qed.

Lemma strip_blank (s : list N) :
  (forall c, In c s -> is_space c = true) -> strip s = [].
Proof.
  intros H. destruct (strip_result s) as [E|E]; [exact E|].
  unfold tight in E. apply andb_prop in E. destruct E as [E _].
  destruct (strip s) as [|c r] eqn:Es; [reflexivity|].
  cbn [starts_tight] in E. apply negb_true_iff in E.
  rewrite (H c) in E; [discriminate|].
  apply (In_strip_by is_space). fold (strip s). rewrite Es.
  left. reflexivity.
Qed.

Lemma In_firstn_sub {A} (n : nat) (l : list A) (x : A) :
  In x (firstn n l) -> In x l.
Proof.
  intros H. rewrite <- (firstn_skipn n l). apply in_or_app. left. exact H.
Qed.

Lemma In_skipn_sub {A} (n : nat) (l : list A) (x : A) :
  In x (skipn n l) -> In x l.
Proof.
  intros H. rewrite <- (firstn_skipn n l). apply in_or_app. right. exact H.
Qed.

Lemma segment_loop_blank (scaled : Z -> Z) (txt : list N)
    (breaks : list Z) :
  (forall c, In c txt -> is_space c = true) ->
  forall last_pos, snd (segment_loop scaled txt breaks last_pos []) = [].
Proof.
  intros Hb. induction breaks as [|b breaks IH]; intros last_pos;
    [reflexivity|].
  cbn [segment_loop]. destruct (scaled b <? len txt); [|apply IH].
  rewrite strip_blank; [apply IH|].
  intros c Hc. apply Hb. unfold slice in Hc.
  apply In_firstn_sub, In_skipn_sub in Hc. exact Hc.
Qed.

Lemma segment_with_blank (scaled : Z -> Z) (breaks : list Z) (txt : list N) :
  (forall c, In c txt -> is_space c = true) ->
  segment_with scaled breaks txt = [].
Proof.
  intros Hb. unfold segment_with.
  pose proof (segment_loop_blank scaled txt breaks Hb 0) as H.
  destruct (segment_loop scaled txt breaks 0 []) as [last_pos lines].
  cbn [snd] in H. subst lines.
  destruct (last_pos <? len txt); [|reflexivity].
  rewrite strip_blank; [reflexivity|].
  intros c Hc. apply Hb. unfold slice_from in Hc.
  apply In_skipn_sub in Hc. exact Hc.
Qed.

(** When the translator returns white space only, the block still gets a
    translated paragraph: one paragraph whose run holds the empty text is
    inserted after the last paragraph of the shape. *)
Theorem translate_block_blank_translation
    (translator_func : list N -> list N) (block : TextBlock) (root : elem)
    (n pid : nat) (original_p : elem) :
  isspace (translator_func (tb_text block)) = true ->
  tb_paragraph block = Some pid ->
  get pid (adjust_runs (tb_shape block) root) = Some original_p ->
  exists p,
    fst (translate_block translator_func block root n)
    = Some (insert_translation (tb_shape block) [p]
              (adjust_runs (tb_shape block) root))
    /\ tag p = "a:p"
    /\ List.map run_view (findall_child "a:r" p)
       = [(translated_size original_p, Some [])].
Proof.
  intros Hsp Hpar Hget. unfold isspace in Hsp.
  apply andb_prop in Hsp. destruct Hsp as [Ht Hsp].
  rewrite forallb_forall in Hsp.
  unfold translate_block. rewrite Ht, Hpar, Hget.
  unfold resegment. rewrite (segment_with_blank _ _ _ Hsp).
  unfold create_translated_paragraphs, bind.
  change (split [LF] (join [LF] [])) with [@nil N].
  pose proof (translated_paragraph_line original_p [] n) as Hline.
  destruct (find_element_with_style original_p "r") as [original_r rPr].
  cbn [fst snd] in Hline. cbn [mapM]. unfold bind, ret.
  destruct (translated_paragraph original_p original_r rPr [] n) as [p n1].
  cbn [fst] in *. exists p. split; [reflexivity|exact Hline].
Qed.

Lemma translate_block_blank_translation_witness :
  exists original_p p,
    get 9 (adjust_runs 3 slide_hello_world) = Some original_p
    /\ fst (translate_block (fun _ => u "  ")
              {| tb_paragraph := Some 9%nat;
                 tb_text := u "Hello" ++ [LF] ++ u "World";
                 tb_style := Some {| font_size := 2400 |};
                 tb_shape := 3%nat |}
              slide_hello_world 17%nat)
       = Some (insert_translation 3 [p] (adjust_runs 3 slide_hello_world))
    /\ tag p = "a:p"
    /\ List.map run_view (findall_child "a:r" p)
       = [(translated_size original_p, Some [])].
Proof.
  evar (original_p : elem).
  assert (get 9 (adjust_runs 3 slide_hello_world) = Some original_p) as E
    by (subst original_p; vm_compute; reflexivity).
  destruct (translate_block_blank_translation (fun _ => u "  ")
              {| tb_paragraph := Some 9%nat;
                 tb_text := u "Hello" ++ [LF] ++ u "World";
                 tb_style := Some {| font_size := 2400 |};
                 tb_shape := 3%nat |}
              slide_hello_world 17%nat 9%nat original_p eq_refl eq_refl E)
    as [p H].
  exists original_p, p. split; [exact E|exact H].
Defined.

(** ** adjust_element_font_size: what it changes and what it keeps *)

Lemma adjust_attr_other (b : bool) (e : elem) (a k : string) :
  k <> a -> attrib (adjust_attr b e a) !! k = attrib e !! k.
Proof.
  intros Hk. unfold adjust_attr.
  destruct (attrib e !! a) as [v|]; [|reflexivity].
  destruct (py_int v); [|reflexivity].
  cbn [set_attr attrib]. apply lookup_insert_ne. congruence.
Qed.

Lemma adjust_attr_present (b : bool) (e : elem) (a k : string) :
  attrib (adjust_attr b e a) !! k = None <-> attrib e !! k = None.
Proof.
  destruct (decide (k = a)) as [->|Hk];
    [|rewrite (adjust_attr_other b e a k Hk); reflexivity].
  unfold adjust_attr. destruct (attrib e !! a) as [v|] eqn:Ea;
    [|rewrite Ea; reflexivity].
  destruct (py_int v); [|rewrite Ea; reflexivity].
  cbn [set_attr attrib]. rewrite lookup_insert_eq.
  split; discriminate.
Qed.

Lemma adjust_fold_same (b : bool) (attrs : list string) :
  forall e,
    let r := fold_left (adjust_attr b) attrs e in
    eid r = eid e /\ tag r = tag e /\ text r = text e /\ kids r = kids e.
Proof.
  induction attrs as [|a attrs IH]; intros e; [cbn; auto|].
  cbn [fold_left]. destruct (IH (adjust_attr b e a)) as [H1 [H2 [H3 H4]]].
  destruct (adjust_attr_same b e a) as [G1 [G2 [G3 G4]]].
  cbn zeta. repeat split; congruence.
Qed.

Lemma adjust_fold_other (b : bool) (attrs : list string) (k : string) :
  ~ In k attrs ->
  forall e, attrib (fold_left (adjust_attr b) attrs e) !! k = attrib e !! k.
Proof.
  induction attrs as [|a attrs IH]; intros Hk e; [reflexivity|].
  cbn [fold_left]. rewrite IH by (intros H; apply Hk; right; exact H).
  apply adjust_attr_other. intros ->. apply Hk. left. reflexivity.
Qed.

Lemma adjust_fold_present (b : bool) (attrs : list string) (k : string) :
  forall e, attrib (fold_left (adjust_attr b) attrs e) !! k = None
            <-> attrib e !! k = None.
Proof.
  induction attrs as [|a attrs IH]; intros e; [reflexivity|].
  cbn [fold_left]. rewrite IH. apply adjust_attr_present.
Qed.

(** An adjusted size is written as a literal that reads back as the same
    integer. *)
Lemma adjust_font_size_literal (size : Z) (is_translation : bool) :
  py_int (py_str (adjust_font_size size is_translation))
  = Some (adjust_font_size size is_translation).
Proof.
  unfold adjust_font_size.
  pose proof (next_smaller_below_44 (size_to_point size)) as H.
  set (v := get_next_smaller_size (size_to_point size)) in *.
  clearbody v.
  cbv [skipn ppt_font_sizes In] in H.
  destruct is_translation;
    repeat (destruct H as [H|H]; [subst v; vm_compute; reflexivity|]);
    destruct H.
Qed.

(** [adjust_element_font_size] changes nothing of an element but the
    values of the listed attributes: its tag, text and children stay, an
    attribute that is not listed keeps its value, and no attribute is
    added or taken away.  A listed attribute that holds an integer
    literal gets the adjusted size, written as a literal that reads back
    as that integer. *)
Theorem adjust_element_font_size_frame (attrs : list string)
    (is_translation : bool) (element : elem) :
  let r := adjust_element_font_size attrs is_translation element in
  (eid r = eid element /\ tag r = tag element /\ text r = text element
   /\ kids r = kids element)
  /\ (forall k, ~ In k attrs -> attrib r !! k = attrib element !! k)
  /\ (forall k, attrib r !! k = None <-> attrib element !! k = None)
  /\ (List.NoDup attrs ->
      forall k v size,
        In k attrs -> attrib element !! k = Some v -> py_int v = Some size ->
        attrib r !! k = Some (py_str (adjust_font_size size is_translation))
        /\ py_int (py_str (adjust_font_size size is_translation))
           = Some (adjust_font_size size is_translation)).
Proof.
  unfold adjust_element_font_size. cbn zeta.
  split; [apply adjust_fold_same|].
  split; [intros k Hk; apply adjust_fold_other; exact Hk|].
  split; [intros k; apply adjust_fold_present|].
  intros Hnd k v size Hk Hv Hsize.
  split; [|apply adjust_font_size_literal].
  revert element Hv. induction attrs as [|a attrs IH]; intros e Hv;
    [destruct Hk|].
  apply List.NoDup_cons_iff in Hnd. destruct Hnd as [Ha Hnd].
  cbn [fold_left]. destruct (decide (k = a)) as [->|Hne].
  - rewrite (adjust_fold_other _ _ _ Ha).
    unfold adjust_attr. rewrite Hv, Hsize. cbn [set_attr attrib].
    apply lookup_insert_eq.
  - destruct Hk as [->|Hk]; [congruence|].
    apply (IH Hnd Hk). rewrite (adjust_attr_other _ _ _ _ Hne). exact Hv.
Qed.

Lemma adjust_element_font_size_frame_witness :
  attrib (adjust_element_font_size ["sz"; "kern"; "spc"; "baseline"] false
            (Elem 1 "a:rPr" (<["lang" := u "en-US"]> {["sz" := u "1800"]})
                  None []))
    !! "sz"
  = Some (py_str (adjust_font_size 1800 false)).
Proof.
  pose proof (adjust_element_font_size_frame
                ["sz"; "kern"; "spc"; "baseline"] false
                (Elem 1 "a:rPr" (<["lang" := u "en-US"]> {["sz" := u "1800"]})
                      None [])) as H.
  cbn zeta in H. destruct H as [_ [_ [_ H]]].
  refine (proj1 (H _ "sz" (u "1800") 1800 _ _ _)).
  - repeat constructor; cbn; intuition discriminate.
  - left. reflexivity.
  - reflexivity.
  - reflexivity.
Defined.

(** ** OllamaTranslator.__init__ *)


Lemma rstrip_by_snoc (p : N -> bool) (s : list N) (c : N) :
  p c = true -> rstrip_by p (s ++ [c]) = rstrip_by p s.
Proof.
  intros H. unfold rstrip_by. rewrite rev_app_distr. cbn [rev app drop_while].
  rewrite H. reflexivity.
Qed.

Lemma rstrip_by_split (p : N -> bool) (s : list N) :
  exists t, s = rstrip_by p s ++ t /\ forallb p t = true
            /\ forall c, last (rstrip_by p s) = Some c -> p c = false.
Proof.
  unfold rstrip_by.
  destruct (drop_while_split p (rev s)) as [t [Ht Hp]].
  exists (rev t). split; [|split].
  - rewrite <- rev_app_distr, <- Ht, rev_involutive. reflexivity.
  - apply forallb_rev. exact Hp.
  - intros c Hc. destruct (drop_while p (rev s)) as [|d r] eqn:E;
      [discriminate|].
    cbn [rev] in Hc. rewrite last_snoc in Hc. injection Hc as <-.
    exact (drop_while_head p (rev s) d r E).
Qed.

(** A translator is made for the two supported models and for no other.
    Slashes at the end of the host do not matter: the address of the
    service is the host without them, followed by [/api/generate]. *)
Theorem init_host_slashes (model : string) (host : list N) :
  (init model host = None <-> model <> "qwen:7b" /\ model <> "llama3:8b")
  /\ init model (host ++ u "/") = init model host
  /\ forall self, init model host = Some self ->
       exists h t, host = h ++ t
         /\ (forall c, In c t -> c = 47%N)
         /\ last h <> Some 47%N
         /\ api_url self = h ++ u "/api/generate".
Proof.
  unfold init, SUPPORTED_MODELS. split; [|split].
  - destruct (String.eqb_spec model "qwen:7b") as [->|H1];
      [split; [discriminate|intros [H _]; congruence]|].
    destruct (String.eqb_spec model "llama3:8b") as [->|H2];
      [split; [discriminate|intros [_ H]; congruence]|].
    split; auto.
  - change (u "/") with [47%N].
    rewrite (rstrip_by_snoc (N.eqb 47) host 47%N eq_refl). reflexivity.
  - intros self H.
    destruct (rstrip_by_split (N.eqb 47) host) as [t [Hs [Ht Hl]]].
    exists (rstrip_by (N.eqb 47) host), t.
    split; [exact Hs|]. split; [|split].
    + rewrite forallb_forall in Ht. intros c Hc.
      symmetry. apply N.eqb_eq. exact (Ht c Hc).
    + intros E. specialize (Hl _ E). discriminate.
    + destruct (if String.eqb model "qwen:7b" then Some qwen_config
                else if String.eqb model "llama3:8b" then Some llama_config
                else None); [|discriminate].
      injection H as <-. reflexivity.
Qed.

Lemma init_host_slashes_witness :
  exists h t, u "http://localhost:2342//" = h ++ t
    /\ (forall c, In c t -> c = 47%N)
    /\ last h <> Some 47%N
    /\ api_url qwen_translator = h ++ u "/api/generate".
Proof.
  apply (proj2 (proj2 (init_host_slashes "qwen:7b"
                         (u "http://localhost:2342//")))).
  vm_compute. reflexivity.
Defined.
